(** * Role-based permission evaluator (package [roles]) and its use by
      the resource wrapper (package [resource])

    Shallow embedding of [pkg/roles/permission.go] and of
    [Resource.HasPermission] from [pkg/resource/resource.go].

    Go maps are reference objects and slices are views on backing arrays,
    so the builder operations ([Allow], [Deny]) and [Concat] are modelled
    over an explicit store holding the [Permission] structs, the map
    objects and the backing arrays.  The decision function
    [HasPermission] only reads that store. *)

From stdpp Require Import gmap strings list fin_maps.
From Equations Require Import Equations.

(** ** Permission modes *)

(** [type PermissionMode string] *)
Abbreviation PermissionMode := string (only parsing).

Definition Create : PermissionMode := "create".
Definition Read : PermissionMode := "read".
Definition Update : PermissionMode := "update".
Definition Delete : PermissionMode := "delete".
Definition CRUD : PermissionMode := "crud".

(** ** Store *)

Abbreviation loc := positive (only parsing).

(** A [[]string] value: the nil slice, or a view of the first [len]
    cells of the backing array at address [a].  The code never reslices,
    so every view starts at offset 0 and its capacity is the size of the
    backing array. *)
Inductive slice :=
| SNil
| SArr (a : loc) (len : nat).

(** Values of type [interface{}] handed to [HasPermission], as the loop has
    them once a call of [GetRoles()] has returned: a [string], a value
    implementing [Roler] (given by what its [GetRoles()] returned), or
    anything else, kept as its [%#v] rendering.  The call itself, which can
    panic, is in [iface] and [HasPermission_call] below. *)
Inductive actor :=
| AString (r : string)
| ARoler (getRoles : list string)
| AOther (repr : string).

(** What [HasPermission] prints on standard output. *)
Inductive event :=
| InvalidRole (role : actor).

Inductive fault :=
| NilDereference
| NilMapAssignment
| InvalidAddress.

(** A growth policy for the runs on concrete stores: twice what is
    needed. *)
Definition doubling : nat → nat → nat := λ _ needed, 2 * needed.

Section Evaluator.

(** The declarations of [Role], [Global], [Anyone] and [Roler] live in a
    file of package [roles] that is not part of the sources at hand; the
    type of [*Role] values, the [Global] instance and the [Anyone] name
    are parameters of the development. *)
Variable RoleRef : Type.
Variable Global : RoleRef.
Variable Anyone : string.

(** The capacity the runtime picks when [append] has to move a slice is
    implementation defined: [growslice oldcap needed]; [append] takes at
    least [needed] cells whatever this function answers. *)
Variable growslice : nat → nat → nat.

(** Go leaves open the order in which [range] visits the entries of a
    map: [rangeOrder] lists them in the order of the visits, each entry
    once. *)
Variable rangeOrder : gmap string slice → list (string * slice).
Hypothesis rangeOrder_perm : ∀ M, rangeOrder M ≡ₚ map_to_list M.

(** [type Permission struct]; maps are references, [None] is the nil map. *)
Record Permission := mkPermission {
  Role : RoleRef;
  AllowedRoles : option loc;
  DeniedRoles : option loc;
}.

Record heap := mkHeap {
  structs : gmap loc Permission;
  maps : gmap loc (gmap string slice);
  arrays : gmap loc (list string);
}.

(** *** Reading the store *)

(** The map object behind a map reference; reading a nil map behaves as
    reading an empty map. *)
Definition mapobj (h : heap) (m : option loc) : gmap string slice :=
  match m with
  | None => ∅
  | Some l => default ∅ (maps h !! l)
  end.

(** [len(m)] *)
Definition maplen (h : heap) (m : option loc) : nat := size (mapobj h m).

(** [m[k]]: the zero value (nil slice) when the key is missing. *)
Definition mapaccess (h : heap) (m : option loc) (k : string) : slice :=
  default SNil (mapobj h m !! k).

Definition backing (h : heap) (a : loc) : list string :=
  default [] (arrays h !! a).

(** The elements of a slice, as [range] sees them. *)
Definition elems (h : heap) (s : slice) : list string :=
  match s with
  | SNil => []
  | SArr a n => take n (backing h a)
  end.

Definition slen (s : slice) : nat :=
  match s with
  | SNil => 0
  | SArr _ n => n
  end.

Definition cap (h : heap) (s : slice) : nat :=
  match s with
  | SNil => 0
  | SArr a _ => length (backing h a)
  end.

Definition is_nil (s : slice) : bool :=
  match s with
  | SNil => true
  | SArr _ _ => false
  end.

(** ** [includeRoles] *)

(** The inner loop: [for _, value := range values { if value == role ... }] *)
Fixpoint hasValue (role : string) (values : list string) : bool :=
  match values with
  | [] => false
  | value :: rest => if bool_decide (value = role) then true else hasValue role rest
  end.

Fixpoint includeRoles (roles values : list string) : bool :=
  match roles with
  | [] => false
  | role :: rest =>
      if bool_decide (role = Anyone) then true
      else if hasValue role values then true
      else includeRoles rest values
  end.

(** ** [Permission.HasPermission] *)

(** The first loop of [HasPermission]: collects the role names, or stops
    at the first value that is neither a string nor a [Roler]. *)
Fixpoint resolveRoles (roles : list actor) (roleNames : list string)
  : actor + list string :=
  match roles with
  | [] => inr roleNames
  | AString r :: rest => resolveRoles rest (roleNames ++ [r])
  | ARoler rs :: rest => resolveRoles rest (roleNames ++ rs)
  | AOther v :: _ => inl (AOther v)
  end.

(** The receiver is a [Permission] value; the result is the printed
    diagnostics and the decision. *)
Definition HasPermission (h : heap) (permission : Permission)
    (mode : PermissionMode) (roles : list actor) : list event * bool :=
  match resolveRoles roles [] with
  | inl role => ([InvalidRole role], false)
  | inr roleNames =>
      ([],
       if negb (maplen h (DeniedRoles permission) =? 0)
          && negb (is_nil (mapaccess h (DeniedRoles permission) mode))
          && includeRoles (elems h (mapaccess h (DeniedRoles permission) mode)) roleNames
       then false
       else if maplen h (AllowedRoles permission) =? 0 then true
       else if negb (is_nil (mapaccess h (AllowedRoles permission) mode))
               && includeRoles (elems h (mapaccess h (AllowedRoles permission) mode)) roleNames
       then true
       else false)
  end.

(** ** Operations that change the store *)

Inductive outcome (A : Type) :=
| Done (a : A) (h : heap)
| Panic (f : fault).
Arguments Done {A} a h.
Arguments Panic {A} f.

Definition M (A : Type) : Type := heap → outcome A.

Definition ret {A} (a : A) : M A := λ h, Done a h.

Definition bind {A B} (c : M A) (k : A → M B) : M B :=
  λ h, match c h with
       | Done a h' => k a h'
       | Panic f => Panic f
       end.

Notation "'let!' x := c 'in' k" := (bind c (λ x, k))
  (at level 10, x name, c at level 100, k at level 200).
Notation "'run!' c 'in' k" := (bind c (λ _, k))
  (at level 10, c at level 100, k at level 200).

(** [*p]: a nil pointer panics.  An address without a struct cannot be
    built in Go; the model reports it as [InvalidAddress]. *)
Definition deref (p : option loc) : M Permission :=
  λ h, match p with
       | None => Panic NilDereference
       | Some l =>
           match structs h !! l with
           | Some P => Done P h
           | None => Panic InvalidAddress
           end
       end.

(** A struct that escapes to the heap. *)
Definition newPermission (P : Permission) : M loc :=
  λ h, let l := fresh (dom (structs h)) in
       Done l (mkHeap (<[l := P]> (structs h)) (maps h) (arrays h)).

(** [result.Role = role] *)
Definition setRole (l : loc) (role : RoleRef) : M unit :=
  let! P := deref (Some l) in
  λ h, Done tt (mkHeap (<[l := mkPermission role (AllowedRoles P) (DeniedRoles P)]> (structs h))
                       (maps h) (arrays h)).

(** [map[PermissionMode][]string{}] *)
Definition makemap : M (option loc) :=
  λ h, let l := fresh (dom (maps h)) in
       Done (Some l) (mkHeap (structs h) (<[l := ∅]> (maps h)) (arrays h)).

(** [m[k]] as an expression. *)
Definition mapread (m : option loc) (k : string) : M slice :=
  λ h, Done (mapaccess h m k) h.

(** [m[k] = s]: assignment to an entry of a nil map panics. *)
Definition mapassign (m : option loc) (k : string) (s : slice) : M unit :=
  λ h, match m with
       | None => Panic NilMapAssignment
       | Some l =>
           Done tt (mkHeap (structs h) (<[l := <[k := s]> (mapobj h m)]> (maps h)) (arrays h))
       end.

(** [[]string{}]: a non-nil slice of length and capacity 0 (the model gives
    it a backing array of its own, of size 0). *)
Definition emptyslice : M slice :=
  λ h, let a := fresh (dom (arrays h)) in
       Done (SArr a 0) (mkHeap (structs h) (maps h) (<[a := []]> (arrays h))).

(** The values a slice holds when it is spread as [s...]. *)
Definition spread (s : slice) : M (list string) :=
  λ h, Done (elems h s) h.

(** [append(s, xs...)]: when the capacity suffices the new elements are
    written behind the slice in its own backing array; otherwise the
    elements move to a new, larger array. *)
Definition append (s : slice) (xs : list string) : M slice :=
  λ h, let n := slen s + length xs in
       if decide (n ≤ cap h s) then
         match s with
         | SNil => Done SNil h
         | SArr a len =>
             Done (SArr a n)
                  (mkHeap (structs h) (maps h)
                     (<[a := take len (backing h a) ++ xs ++ drop n (backing h a)]> (arrays h)))
         end
       else
         let a := fresh (dom (arrays h)) in
         let c := n `max` growslice (cap h s) n in
         Done (SArr a n)
              (mkHeap (structs h) (maps h)
                 (<[a := elems h s ++ xs ++ replicate (c - n) ""]> (arrays h))).

(** [for k, v := range m { body }], over the entries the map has when the
    loop starts, in the order [rangeOrder] gives (the bodies in this
    program never write to the map they range over). *)
Fixpoint forEach (body : string → slice → M unit) (kvs : list (string * slice)) : M unit :=
  match kvs with
  | [] => ret tt
  | (k, v) :: rest => run! body k v in forEach body rest
  end.

Definition rangeMap (m : option loc) (body : string → slice → M unit) : M unit :=
  λ h, forEach body (rangeOrder (mapobj h m)) h.

(** ** [Permission.Concat] *)

(** [result.F[mode] = append(result.F[mode], roles...)] for the field [F]
    ([DeniedRoles] or [AllowedRoles]) of the struct at [result]. *)
Definition appendEntry (F : Permission → option loc) (result : loc)
    (mode : PermissionMode) (roles : slice) : M unit :=
  let! R := deref (Some result) in
  let! s := mapread (F R) mode in
  let! xs := spread roles in
  let! s' := append s xs in
  let! R' := deref (Some result) in
  mapassign (F R') mode s'.

(** The closure [appendRoles]; [result] is the address of the captured
    variable. *)
Definition appendRoles (result : loc) (p : option loc) : M unit :=
  match p with
  | None => ret tt
  | Some _ =>
      let! P := deref p in
      run! setRole result (Role P) in
      let! P := deref p in
      run! rangeMap (DeniedRoles P) (appendEntry DeniedRoles result) in
      let! P := deref p in
      rangeMap (AllowedRoles P) (appendEntry AllowedRoles result)
  end.

Definition Concat (permission newPermission' : option loc) : M (option loc) :=
  let! allowed := makemap in
  let! denied := makemap in
  let! result := newPermission (mkPermission Global allowed denied) in
  run! appendRoles result newPermission' in
  run! appendRoles result permission in
  ret (Some result).

(** ** [Permission.Allow] and [Permission.Deny] *)

(** The statements after the [CRUD] case, for the field [F]. *)
Definition grant (F : Permission → option loc) (permission : option loc)
    (mode : PermissionMode) (roles : list string) : M (option loc) :=
  let! P := deref permission in
  let! s := mapread (F P) mode in
  run! (if is_nil s then
          let! e := emptyslice in
          let! P := deref permission in
          mapassign (F P) mode e
        else ret tt) in
  let! P := deref permission in
  let! s := mapread (F P) mode in
  let! s' := append s roles in
  let! P := deref permission in
  run! mapassign (F P) mode s' in
  ret permission.

Definition crud_depth (mode : PermissionMode) : nat :=
  if decide (mode = CRUD) then 1 else 0.

Equations Allow (permission : option loc) (mode : PermissionMode) (roles : list string)
    (h : heap) : outcome (option loc) by wf (crud_depth mode) lt :=
Allow permission mode roles h with decide (mode = CRUD) := {
  | left _ =>
      (let! p1 := (λ h, Allow permission Create roles h) in
       let! p2 := (λ h, Allow p1 Update roles h) in
       let! p3 := (λ h, Allow p2 Read roles h) in
       (λ h, Allow p3 Delete roles h)) h
  | right _ => grant AllowedRoles permission mode roles h }.

Equations Deny (permission : option loc) (mode : PermissionMode) (roles : list string)
    (h : heap) : outcome (option loc) by wf (crud_depth mode) lt :=
Deny permission mode roles h with decide (mode = CRUD) := {
  | left _ =>
      (let! p1 := (λ h, Deny permission Create roles h) in
       let! p2 := (λ h, Deny p1 Update roles h) in
       let! p3 := (λ h, Deny p2 Read roles h) in
       (λ h, Deny p3 Delete roles h)) h
  | right _ => grant DeniedRoles permission mode roles h }.

(** ** [Resource.HasPermission] (package [resource]) *)

(** The fields of [Resource] that [HasPermission] reads. *)
Record Resource := mkResource {
  Name : string;
  Resource_Permission : option loc;
}.

(** [appsvr.Context] is declared outside the sources at hand; the function
    only ranges over its [Roles] and boxes each element as [interface{}]. *)
Record Context := mkContext {
  Roles : list actor;
}.

Definition Resource_HasPermission (res : option Resource) (mode : PermissionMode)
    (context : option Context) : M (list event * bool) :=
  match res with
  | None => ret ([], true)
  | Some r =>
      match Resource_Permission r with
      | None => ret ([], true)
      | Some _ =>
          match context with
          | None => λ _, Panic NilDereference
          | Some ctx =>
              let roles := foldl (λ roles role, roles ++ [role]) [] (Roles ctx) in
              let! P := deref (Resource_Permission r) in
              λ h, Done (HasPermission h P mode roles) h
          end
      end
  end.

(** ** Notions used in the statements *)

(** The role names recorded under [mode] in the map [m]; nothing when the
    map is nil, has no such key, or holds a nil slice there. *)
Definition rolesFor (h : heap) (m : option loc) (mode : PermissionMode) : list string :=
  elems h (mapaccess h m mode).

(** The four modes a decision is asked for. *)
Definition concrete (mode : PermissionMode) : Prop :=
  mode = Create ∨ mode = Read ∨ mode = Update ∨ mode = Delete.

(** The statement that an [Anyone] among the actor's role names is enough
    for an action that is not denied. *)
Definition actor_wildcard_suffices : Prop :=
  ∀ h P mode roles roleNames,
    concrete mode →
    resolveRoles roles [] = inr roleNames →
    Anyone ∈ roleNames →
    includeRoles (rolesFor h (DeniedRoles P) mode) roleNames = false →
    (HasPermission h P mode roles).2 = true.

(** A store with one policy, at address 1, as [Allow(Read, "viewer")]
    leaves it: [AllowedRoles] is the map at 1, [DeniedRoles] the empty map
    at 2. *)
Definition viewer_store : heap :=
  mkHeap {[ 1%positive := mkPermission Global (Some 1%positive) (Some 2%positive) ]}
         {[ 1%positive := {[ Read := SArr 1%positive 1 ]}; 2%positive := ∅ ]}
         {[ 1%positive := ["viewer"] ]}.

Definition viewer_policy : Permission :=
  mkPermission Global (Some 1%positive) (Some 2%positive).

(** *** Well-formed stores

    Go never produces a dangling reference: the maps a struct refers to
    and the backing array of every slice kept in a map exist, and a slice
    is not longer than its array. *)
Definition wf_ref (h : heap) (m : option loc) : Prop :=
  match m with
  | None => True
  | Some l => is_Some (maps h !! l)
  end.

Definition wf_slice (h : heap) (s : slice) : Prop :=
  match s with
  | SNil => True
  | SArr a n => is_Some (arrays h !! a) ∧ n ≤ length (backing h a)
  end.

Definition wf_store (h : heap) : Prop :=
  map_Forall (λ _ P, wf_ref h (AllowedRoles P) ∧ wf_ref h (DeniedRoles P)) (structs h) ∧
  map_Forall (λ _ M, map_Forall (λ _ s, wf_slice h s) M) (maps h).

#[global] Instance wf_ref_dec h m : Decision (wf_ref h m).
Proof. destruct m; apply _. Defined.

#[global] Instance wf_slice_dec h s : Decision (wf_slice h s).
Proof. destruct s; apply _. Defined.

#[global] Instance wf_store_dec h : Decision (wf_store h).
Proof. apply _. Defined.

(** A pointer is nil or the address of a struct. *)
Definition valid_ptr (h : heap) (p : option loc) : Prop :=
  match p with
  | None => True
  | Some l => is_Some (structs h !! l)
  end.

#[global] Instance valid_ptr_dec h p : Decision (valid_ptr h p).
Proof. destruct p; apply _. Defined.

(** Every object of [h] is in [h'], with the same contents. *)
Definition extends (h h' : heap) : Prop :=
  structs h ⊆ structs h' ∧ maps h ⊆ maps h' ∧ arrays h ⊆ arrays h'.

(** The struct behind an operand of [Concat], if the operand is not nil. *)
Definition operand (h : heap) (p : option loc) : option Permission :=
  p ≫= λ l, structs h !! l.

(** The role names an operand records under [mode] in its field [F], and
    the keys of that field; nothing for a nil operand. *)
Definition operandRoles (h : heap) (F : Permission → option loc) (p : option loc)
    (mode : PermissionMode) : list string :=
  match operand h p with
  | Some P => rolesFor h (F P) mode
  | None => []
  end.

Definition operandKeys (h : heap) (F : Permission → option loc) (p : option loc)
  : gset string :=
  match operand h p with
  | Some P => dom (mapobj h (F P))
  | None => ∅
  end.

(** The scope the specification attributes to the result of [Concat]: the
    receiver's when the receiver is not nil, else the argument's when the
    argument is not nil, else [Global]. *)
Definition concatRole (h : heap) (permission newPermission' : option loc) : RoleRef :=
  match operand h permission with
  | Some P => Role P
  | None =>
      match operand h newPermission' with
      | Some P => Role P
      | None => Global
      end
  end.

(** The two maps of the result of [Concat]. *)
Definition result_map (mA mD m : loc) : Prop := m = mA ∨ m = mD.

(** The state of the store while [Concat] runs from the store [h0], with
    its result at [r] and the result's maps at [mA] and [mD]: the objects
    of [h0] are untouched, and the slices of the two maps sit on arrays
    that [h0] does not have, one array per entry. *)
Definition concat_inv (h0 : heap) (r mA mD : loc) (h : heap) : Prop :=
  extends h0 h ∧
  (∃ role, structs h !! r = Some (mkPermission role (Some mA) (Some mD))) ∧
  (∀ m k a n, result_map mA mD m → mapobj h (Some m) !! k = Some (SArr a n) →
     arrays h0 !! a = None ∧ wf_slice h (SArr a n)) ∧
  (∀ m1 k1 n1 m2 k2 n2 a, result_map mA mD m1 → result_map mA mD m2 →
     mapobj h (Some m1) !! k1 = Some (SArr a n1) →
     mapobj h (Some m2) !! k2 = Some (SArr a n2) →
     m1 = m2 ∧ k1 = k2).

(** The two map fields of a [Permission]. *)
Definition is_field (F : Permission → option loc) : Prop :=
  F = AllowedRoles ∨ F = DeniedRoles.

(** The two fields of the result, with the map each refers to. *)
Definition result_field (mA mD : loc) (F : Permission → option loc) (m : loc) : Prop :=
  (F = DeniedRoles ∧ m = mD) ∨ (F = AllowedRoles ∧ m = mA).

(** What [append s xs] does to the store. *)
Definition append_post (s : slice) (xs : list string) (h : heap) (s' : slice) (h' : heap)
  : Prop :=
  structs h' = structs h ∧ maps h' = maps h ∧
  (∀ b, is_Some (arrays h !! b) → (∀ n, s ≠ SArr b n) → arrays h' !! b = arrays h !! b) ∧
  (∀ b, is_Some (arrays h !! b) →
     is_Some (arrays h' !! b) ∧ length (backing h' b) = length (backing h b)) ∧
  (wf_slice h s → elems h' s' = elems h s ++ xs ∧ wf_slice h' s') ∧
  match s' with
  | SNil => s = SNil ∧ xs = [] ∧ h' = h
  | SArr a' _ => is_Some (arrays h' !! a') ∧ ((∃ n, s = SArr a' n) ∨ arrays h !! a' = None)
  end.

(** ** Sequences of builder calls *)

Inductive builder_call :=
| CallAllow (mode : PermissionMode) (roles : list string)
| CallDeny (mode : PermissionMode) (roles : list string).

Fixpoint run_calls (permission : option loc) (calls : list builder_call)
  : M (option loc) :=
  match calls with
  | [] => ret permission
  | CallAllow mode roles :: rest =>
      let! p := Allow permission mode roles in run_calls p rest
  | CallDeny mode roles :: rest =>
      let! p := Deny permission mode roles in run_calls p rest
  end.

(** A store with two policies: at address 1 the policy of [viewer_store],
    at address 2 a policy as [Deny(Delete, "intern")] leaves it. *)
Definition two_policies : heap :=
  mkHeap {[ 1%positive := mkPermission Global (Some 1%positive) (Some 2%positive);
            2%positive := mkPermission Global (Some 3%positive) (Some 4%positive) ]}
         {[ 1%positive := {[ Read := SArr 1%positive 1 ]}; 2%positive := ∅;
            3%positive := ∅; 4%positive := {[ Delete := SArr 2%positive 1 ]} ]}
         {[ 1%positive := ["viewer"]; 2%positive := ["intern"] ]}.

(** A store with one policy, at address 1, whose maps are empty, and the
    zero value of [Permission] at address 2. *)
Definition blank_store : heap :=
  mkHeap {[ 1%positive := mkPermission Global (Some 1%positive) (Some 2%positive);
            2%positive := mkPermission Global None None ]}
         {[ 1%positive := ∅; 2%positive := ∅ ]}
         ∅.

(** ** Actors, as the first loop of [HasPermission] sees them *)

(** A value the loop accepts: a string or a [Roler]. *)
Definition is_role_value (role : actor) : Prop :=
  match role with
  | AOther _ => False
  | _ => True
  end.

#[global] Instance is_role_value_dec role : Decision (is_role_value role).
Proof. destruct role; apply _. Defined.

(** The role names one accepted value contributes. *)
Definition namesOf (role : actor) : list string :=
  match role with
  | AString r => [r]
  | ARoler rs => rs
  | AOther _ => []
  end.

(** ** [Resource.AddValidator], [Resource.AddProcessor] (package [resource]) *)

(** The type of the handlers,
    [func(interface{}, *MetaValues, *appsvr.Context) error]; the two
    functions only store them. *)
Variable HandlerFn : Type.

Record Validator := mkValidator {
  Validator_Name : string;
  Validator_Handler : HandlerFn;
}.

Record Processor := mkProcessor {
  Processor_Name : string;
  Processor_Handler : HandlerFn;
}.

(** The loop the two functions share, on a slice of pointers ([None] is a
    nil pointer) and the pointer to add: [inr (Some items')] when an entry
    with the name was found and replaced, [inr None] when the loop ran to
    its end, a panic when a nil pointer is dereferenced for its [Name]. *)
Fixpoint replaceNamed {T} (nameOf : T → string) (items : list (option T))
    (item : option T) : fault + option (list (option T)) :=
  match items with
  | [] => inr None
  | v :: rest =>
      match v, item with
      | Some v', Some new =>
          if bool_decide (nameOf v' = nameOf new) then inr (Some (item :: rest))
          else match replaceNamed nameOf rest item with
               | inr (Some rest') => inr (Some (v :: rest'))
               | other => other
               end
      | _, _ => inl NilDereference
      end
  end.

Definition addNamed {T} (nameOf : T → string) (items : list (option T))
    (item : option T) : fault + list (option T) :=
  match replaceNamed nameOf items item with
  | inl f => inl f
  | inr (Some items') => inr items'
  | inr None => inr (items ++ [item])
  end.

(** [res.AddValidator(validator)], as what it makes of [res.Validators]. *)
Definition AddValidator (validators : list (option Validator))
    (validator : option Validator) : fault + list (option Validator) :=
  addNamed Validator_Name validators validator.

(** [res.AddProcessor(processor)], as what it makes of [res.Processors]. *)
Definition AddProcessor (processors : list (option Processor))
    (processor : option Processor) : fault + list (option Processor) :=
  addNamed Processor_Name processors processor.

(** The first entry of the name, as a loop like the one above finds it, and
    the names of the entries. *)
Fixpoint findNamed {T} (nameOf : T → string) (name : string) (items : list (option T))
  : option T :=
  match items with
  | [] => None
  | Some v :: rest => if bool_decide (nameOf v = name) then Some v else findNamed nameOf name rest
  | None :: rest => findNamed nameOf name rest
  end.

Definition namesIn {T} (nameOf : T → string) (items : list (option T)) : list string :=
  omap (fmap nameOf) items.

(** An entry that is not nil and has another name than [name]. *)
Definition other_name {T} (nameOf : T → string) (name : string) (v : option T) : Prop :=
  ∃ v', v = Some v' ∧ nameOf v' ≠ name.

(** ** [Resource.SetPrimaryFields] *)

(** [orm.Scope] is not part of the sources at hand: what its
    [FieldByName] and [PrimaryField] answer for the value of the resource
    is given by [fieldByName] (the [StructField] of the field when [ok])
    and [primaryField] ([None] for nil). *)
Fixpoint collectFields {StructField} (fieldByName : string → option StructField)
    (res : Resource) (fields : list string) (PrimaryFields : list StructField)
  : list StructField * option string :=
  match fields with
  | [] => (PrimaryFields, None)
  | fieldName :: rest =>
      match fieldByName fieldName with
      | Some field => collectFields fieldByName res rest (PrimaryFields ++ [field])
      | None =>
          (PrimaryFields,
           Some (fieldName ++ " is not a valid field for resource " ++ Name res)%string)
      end
  end.

(** The result is [res.PrimaryFields] after the call and the error. *)
Definition SetPrimaryFields {StructField} (fieldByName : string → option StructField)
    (primaryField : option StructField) (res : Resource) (fields : list string)
  : list StructField * option string :=
  if decide (0 < length fields) then collectFields fieldByName res fields []
  else match primaryField with
       | Some field => ([field], None)
       | None => ([], Some ("no valid primary field for resource " ++ Name res)%string)
       end.

(** ** Stores without shared backing arrays *)

(** Two slices on the same backing array. *)
Definition shares (s1 s2 : slice) : Prop :=
  match s1, s2 with
  | SArr a _, SArr b _ => a = b
  | _, _ => False
  end.

#[global] Instance shares_dec s1 s2 : Decision (shares s1 s2).
Proof. destruct s1, s2; simpl; apply _. Defined.

(** No backing array is used by two entries of the maps of the store:
    [append] on one entry then writes to no other.  The builders and
    [Concat] give every entry an array of its own. *)
Definition sep_store (h : heap) : Prop :=
  map_Forall (λ m1 M1,
    map_Forall (λ k1 s1,
      map_Forall (λ m2 M2,
        map_Forall (λ k2 s2, shares s1 s2 → m1 = m2 ∧ k1 = k2) M2) (maps h)) M1) (maps h).

#[global] Instance sep_store_dec h : Decision (sep_store h).
Proof. apply _. Defined.

(** The modes a call of [Allow] or [Deny] writes to. *)
Definition expand (mode : PermissionMode) : list PermissionMode :=
  if decide (mode = CRUD) then [Create; Update; Read; Delete] else [mode].

(** What a builder call for the map [m] and the modes [modes] makes of a
    store: the store stays well formed and without shared arrays, the
    structs and the other maps are as before, the entries of [m] for the
    modes have the role names [roles] added at their end and every other
    entry of every map keeps its role names. *)
Definition granted (m : loc) (modes : list PermissionMode) (roles : list string)
    (h h' : heap) : Prop :=
  wf_store h' ∧ sep_store h' ∧ structs h' = structs h ∧ is_Some (maps h' !! m) ∧
  dom (mapobj h' (Some m)) = list_to_set modes ∪ dom (mapobj h (Some m)) ∧
  (∀ m', m' ≠ m → maps h' !! m' = maps h !! m') ∧
  (∀ m' k, rolesFor h' (Some m') k
           = if decide (m' = m ∧ k ∈ modes) then rolesFor h (Some m') k ++ roles
             else rolesFor h (Some m') k).

(** The two builders, each with the field it fills. *)
Definition is_builder (F : Permission → option loc)
    (B : option loc → PermissionMode → list string → heap → outcome (option loc)) : Prop :=
  (F = AllowedRoles ∧ B = Allow) ∨ (F = DeniedRoles ∧ B = Deny).

(** A store with one policy, at address 1, as [Allow(Read, Anyone)] leaves
    it. *)
Definition wildcard_store : heap :=
  mkHeap {[ 1%positive := mkPermission Global (Some 1%positive) (Some 2%positive) ]}
         {[ 1%positive := {[ Read := SArr 1%positive 1 ]}; 2%positive := ∅ ]}
         {[ 1%positive := [Anyone] ]}.

(** ** The call of [GetRoles()] *)

(** A value of type [interface{}] as it is handed to [HasPermission].
    [Roler] is an interface, and [GetRoles()] is code of the caller: a call
    returns role names or panics (a method that reads its pointer receiver,
    called on a nil pointer, panics with [NilDereference]). *)
Inductive iface :=
| IString (r : string)
| IRoler (GetRoles : fault + list string)
| IOther (repr : string).

(** The loop over the variadic [roles]: the role names, the value that is
    neither a [string] nor a [Roler], or the panic of a [GetRoles()]. *)
Fixpoint rangeRoles (roles : list iface) (roleNames : list string)
  : fault + (actor + list string) :=
  match roles with
  | [] => inr (inr roleNames)
  | IString r :: rest => rangeRoles rest (roleNames ++ [r])
  | IRoler (inr rs) :: rest => rangeRoles rest (roleNames ++ rs)
  | IRoler (inl f) :: _ => inl f
  | IOther v :: _ => inr (inl (AOther v))
  end.

(** [permission.HasPermission(mode, roles...)] with the calls of
    [GetRoles()]: a panic, or the printed diagnostics and the decision. *)
Definition HasPermission_call (h : heap) (permission : Permission)
    (mode : PermissionMode) (roles : list iface) : fault + (list event * bool) :=
  match rangeRoles roles [] with
  | inl f => inl f
  | inr (inl role) => inr ([InvalidRole role], false)
  | inr (inr roleNames) =>
      inr ([],
           if negb (maplen h (DeniedRoles permission) =? 0)
              && negb (is_nil (mapaccess h (DeniedRoles permission) mode))
              && includeRoles (elems h (mapaccess h (DeniedRoles permission) mode)) roleNames
           then false
           else if maplen h (AllowedRoles permission) =? 0 then true
           else if negb (is_nil (mapaccess h (AllowedRoles permission) mode))
                   && includeRoles (elems h (mapaccess h (AllowedRoles permission) mode)) roleNames
           then true
           else false)
  end.

(** An [actor] as the value whose call returned it. *)
Definition boxed (role : actor) : iface :=
  match role with
  | AString r => IString r
  | ARoler rs => IRoler (inr rs)
  | AOther v => IOther v
  end.

(** A [string] or a [Roler]. *)
Definition is_accepted (role : iface) : Prop :=
  match role with
  | IOther _ => False
  | _ => True
  end.

(** Not a [Roler] whose [GetRoles()] panics. *)
Definition returns (role : iface) : Prop :=
  match role with
  | IRoler (inl _) => False
  | _ => True
  end.

#[global] Instance is_accepted_dec role : Decision (is_accepted role).
Proof. destruct role; apply _. Defined.

#[global] Instance returns_dec role : Decision (returns role).
Proof. destruct role as [r|[f|rs]|v]; apply _. Defined.

(** The statement that a value that is neither a string nor a [Roler]
    makes the call return false and never panic, whatever the other values
    are. *)
Definition invalid_value_fails_closed : Prop :=
  ∀ h P mode roles repr,
    IOther repr ∈ roles →
    ∃ events, HasPermission_call h P mode roles = inr (events, false).

(** * Properties *)

(** ** The matching test *)

Lemma hasValue_true role values : hasValue role values = true ↔ role ∈ values.
Proof.
  induction values as [|v values IH]; simpl.
  - split; [done | by intros ?%elem_of_nil].
  - case_bool_decide as Hv.
    + subst v. split; [intros _; left | done].
    + rewrite IH. split; [by right | ].
      intros [?|?]%elem_of_cons; [congruence | done].
Qed.

Lemma includeRoles_true roles values :
  includeRoles roles values = true ↔
  ∃ role, role ∈ roles ∧ (role = Anyone ∨ role ∈ values).
Proof.
  induction roles as [|r roles IH]; simpl.
  - split; [done | intros (? & ?%elem_of_nil & _); done].
  - case_bool_decide as Hr.
    { split; [intros _ | done]. exists r. split; [left | by left]. }
    destruct (hasValue r values) eqn:Hv.
    { apply hasValue_true in Hv. split; [intros _ | done].
      exists r. split; [left | by right]. }
    rewrite IH. split.
    + intros (role & Hin & Hm). exists role. split; [by right | done].
    + intros (role & [->|Hin]%elem_of_cons & Hm).
      * destruct Hm as [?|Hm]; [done |].
        apply hasValue_true in Hm. congruence.
      * by exists role.
Qed.

Lemma includeRoles_false roles values :
  includeRoles roles values = false ↔
  ∀ role, role ∈ roles → role ≠ Anyone ∧ role ∉ values.
Proof.
  rewrite <- not_true_iff_false, includeRoles_true. split.
  - intros Hno role Hin. split; intros ?; apply Hno; exists role; auto.
  - intros Hall (role & Hin & Hm). destruct (Hall role Hin). by destruct Hm.
Qed.

(** ** Reading maps *)

Lemma maplen_0_mapobj h m : maplen h m = 0 → mapobj h m = ∅.
Proof. unfold maplen. apply map_size_empty_iff. Qed.

Lemma maplen_0_mapaccess h m mode : maplen h m = 0 → mapaccess h m mode = SNil.
Proof.
  intros Hm. unfold mapaccess. by rewrite (maplen_0_mapobj _ _ Hm), lookup_empty.
Qed.

Lemma mapobj_lookup_maplen h m mode s : mapobj h m !! mode = Some s → maplen h m ≠ 0.
Proof. intros Hs Hz. by rewrite (maplen_0_mapobj _ _ Hz), lookup_empty in Hs. Qed.

Lemma rolesFor_lookup h m mode s : mapobj h m !! mode = Some s → rolesFor h m mode = elems h s.
Proof. intros Hs. unfold rolesFor, mapaccess. by rewrite Hs. Qed.

Lemma rolesFor_missing h m mode : mapobj h m !! mode = None → rolesFor h m mode = [].
Proof. intros Hs. unfold rolesFor, mapaccess. by rewrite Hs. Qed.

Lemma elems_nil_slice h s : is_nil s = true → elems h s = [].
Proof. by destruct s. Qed.

(** The test of a map entry in [HasPermission], with its guards, is the
    matching test on the role names recorded for the mode. *)
Lemma guarded_match h m mode roleNames :
  negb (maplen h m =? 0) && negb (is_nil (mapaccess h m mode))
    && includeRoles (elems h (mapaccess h m mode)) roleNames
  = includeRoles (rolesFor h m mode) roleNames.
Proof.
  unfold rolesFor. destruct (Nat.eqb_spec (maplen h m) 0) as [Hz|Hz]; simpl.
  - by rewrite (maplen_0_mapaccess _ _ _ Hz).
  - destruct (mapaccess h m mode); done.
Qed.

Lemma entry_match h m mode roleNames :
  negb (is_nil (mapaccess h m mode))
    && includeRoles (elems h (mapaccess h m mode)) roleNames
  = includeRoles (rolesFor h m mode) roleNames.
Proof. unfold rolesFor. destruct (mapaccess h m mode); done. Qed.

(** [HasPermission] on actors that all resolve, by the three decisions of
    the source. *)
Lemma HasPermission_resolved h P mode roles roleNames :
  resolveRoles roles [] = inr roleNames →
  HasPermission h P mode roles =
  ([], if includeRoles (rolesFor h (DeniedRoles P) mode) roleNames then false
       else if maplen h (AllowedRoles P) =? 0 then true
       else includeRoles (rolesFor h (AllowedRoles P) mode) roleNames).
Proof.
  intros Hres. unfold HasPermission. rewrite Hres, guarded_match, entry_match.
  repeat case_match; done.
Qed.

(** ** Resolving the actors *)

Lemma resolveRoles_invalid roles repr :
  AOther repr ∈ roles →
  ∀ roleNames, ∃ v, AOther v ∈ roles ∧ resolveRoles roles roleNames = inl (AOther v).
Proof.
  induction roles as [|role roles IH]; intros Hin roleNames.
  - by apply elem_of_nil in Hin.
  - destruct role as [r|rs|v]; simpl.
    + apply elem_of_cons in Hin as [?|Hin]; [done |].
      destruct (IH Hin (roleNames ++ [r])) as (v & ? & ?).
      exists v. split; [by right | done].
    + apply elem_of_cons in Hin as [?|Hin]; [done |].
      destruct (IH Hin (roleNames ++ rs)) as (v & ? & ?).
      exists v. split; [by right | done].
    + exists v. split; [left | done].
Qed.

(** ** The decision *)

(** C1 (as amended).  When the resolved role names of the actors contain
    [Anyone] and the action is not denied for them, [HasPermission] answers
    true exactly when the [AllowedRoles] map is empty or the list allowed
    for the action holds one of the actor's role names: [Anyone] on the
    actor's side is matched as an ordinary name, the wildcard works from
    the policy's lists only. *)
Theorem HasPermission_actor_wildcard h P mode roles roleNames :
  resolveRoles roles [] = inr roleNames →
  Anyone ∈ roleNames →
  includeRoles (rolesFor h (DeniedRoles P) mode) roleNames = false →
  (HasPermission h P mode roles).2 = true ↔
  maplen h (AllowedRoles P) = 0 ∨
  ∃ role, role ∈ rolesFor h (AllowedRoles P) mode ∧ role ∈ roleNames.
Proof.
  intros Hres Hany Hdeny.
  rewrite (HasPermission_resolved _ _ _ _ _ Hres), Hdeny. simpl.
  destruct (Nat.eqb_spec (maplen h (AllowedRoles P)) 0) as [Hz|Hz].
  { split; [by left | done]. }
  rewrite includeRoles_true. split.
  - intros (role & Hin & [->|Hm]); right; eauto.
  - intros [?|(role & Hin & Hm)]; [done |]. exists role. auto.
Qed.

(** C2.  For actors that resolve to role names and are not matched by the
    deny entry of the action: (a) an [AllowedRoles] map without any key
    gives true; (b) a non-empty [AllowedRoles] map without a key for the
    action gives false; (c) with a key for the action the answer is the
    result of the matching test on that entry. *)
Theorem HasPermission_allow_rules h P mode roles roleNames :
  resolveRoles roles [] = inr roleNames →
  includeRoles (rolesFor h (DeniedRoles P) mode) roleNames = false →
  (maplen h (AllowedRoles P) = 0 → (HasPermission h P mode roles).2 = true) ∧
  (maplen h (AllowedRoles P) ≠ 0 → mapobj h (AllowedRoles P) !! mode = None →
     (HasPermission h P mode roles).2 = false) ∧
  (∀ s, mapobj h (AllowedRoles P) !! mode = Some s →
     (HasPermission h P mode roles).2 = includeRoles (elems h s) roleNames).
Proof.
  intros Hres Hdeny.
  rewrite (HasPermission_resolved _ _ _ _ _ Hres), Hdeny. simpl.
  split; [|split].
  - by intros ->.
  - intros Hz Hnone. apply Nat.eqb_neq in Hz. rewrite Hz.
    by rewrite (rolesFor_missing _ _ _ Hnone).
  - intros s Hs. pose proof (mapobj_lookup_maplen _ _ _ _ Hs) as Hz.
    apply Nat.eqb_neq in Hz. rewrite Hz.
    by rewrite (rolesFor_lookup _ _ _ _ Hs).
Qed.

(** C3.  When the [DeniedRoles] map has an entry for the action that holds
    [Anyone], or one of the role names the actors resolve to,
    [HasPermission] answers false whatever [AllowedRoles] holds; with
    [Anyone] in the entry this is so for every list of actors. *)
Theorem HasPermission_deny_overrides h P mode roles s :
  mapobj h (DeniedRoles P) !! mode = Some s →
  (Anyone ∈ elems h s ∨
   ∃ roleNames role,
     resolveRoles roles [] = inr roleNames ∧ role ∈ elems h s ∧ role ∈ roleNames) →
  (HasPermission h P mode roles).2 = false.
Proof.
  intros Hs Hmatch.
  destruct (resolveRoles roles []) as [bad|roleNames] eqn:Hres.
  { unfold HasPermission. by rewrite Hres. }
  rewrite (HasPermission_resolved _ _ _ _ _ Hres).
  rewrite (rolesFor_lookup _ _ _ _ Hs).
  assert (includeRoles (elems h s) roleNames = true) as ->; [|done].
  apply includeRoles_true.
  destruct Hmatch as [Hany|(names & role & Hnames & Hin & Hm)].
  - exists Anyone. auto.
  - assert (names = roleNames) as -> by congruence. exists role. auto.
Qed.

Lemma rangeRoles_boxed roles : ∀ roleNames,
  rangeRoles (boxed <$> roles) roleNames = inr (resolveRoles roles roleNames).
Proof.
  induction roles as [|role roles IH]; intros roleNames; [done |].
  destruct role as [r|rs|v]; simpl; [apply IH | apply IH | done].
Qed.

(** Where every call of [GetRoles()] returns, the call of [HasPermission]
    returns what [HasPermission] gives for the lists returned. *)
Lemma HasPermission_call_boxed h P mode roles :
  HasPermission_call h P mode (boxed <$> roles) = inr (HasPermission h P mode roles).
Proof.
  unfold HasPermission_call, HasPermission. rewrite rangeRoles_boxed.
  by destruct (resolveRoles roles []).
Qed.

Lemma rangeRoles_first_invalid pre v post : ∀ roleNames,
  Forall is_accepted pre → Forall returns pre →
  rangeRoles (pre ++ IOther v :: post) roleNames = inr (inl (AOther v)).
Proof.
  induction pre as [|role pre IH]; intros roleNames Hacc Hret; [done |].
  apply Forall_cons in Hacc as [Ha Hacc]. apply Forall_cons in Hret as [Hr Hret].
  destruct role as [r|[f|rs]|w]; simpl in *; [by apply IH | done | by apply IH | done].
Qed.

Lemma rangeRoles_first_panic before f after : ∀ roleNames,
  Forall is_accepted before → Forall returns before →
  rangeRoles (before ++ IRoler (inl f) :: after) roleNames = inl f.
Proof.
  induction before as [|role before IH]; intros roleNames Hacc Hret; [done |].
  apply Forall_cons in Hacc as [Ha Hacc]. apply Forall_cons in Hret as [Hr Hret].
  destruct role as [r|[f'|rs]|w]; simpl in *; [by apply IH | done | by apply IH | done].
Qed.

(** A list with a value that is neither a string nor a [Roler] splits at
    the first such value. *)
Lemma first_invalid roles repr :
  IOther repr ∈ roles →
  ∃ pre v post, roles = pre ++ IOther v :: post ∧ Forall is_accepted pre.
Proof.
  induction roles as [|role roles IH]; intros Hin.
  - by apply elem_of_nil in Hin.
  - destruct role as [r|g|w].
    + apply elem_of_cons in Hin as [Heq|Hin]; [done |].
      destruct (IH Hin) as (pre & v & post & -> & Hacc).
      exists (IString r :: pre), v, post. split; [done |]. by constructor.
    + apply elem_of_cons in Hin as [Heq|Hin]; [done |].
      destruct (IH Hin) as (pre & v & post & -> & Hacc).
      exists (IRoler g :: pre), v, post. split; [done |]. by constructor.
    + by exists [], w, roles.
Qed.

(** The calls of a list all return, or the list splits at the first call
    that panics. *)
Lemma first_panic pre :
  Forall returns pre ∨
  ∃ f before after, pre = before ++ IRoler (inl f) :: after ∧ Forall returns before.
Proof.
  induction pre as [|role pre IH]; [by left |].
  destruct (decide (returns role)) as [Hr|Hr].
  - destruct IH as [Hall|(f & before & after & -> & Hall)].
    + left. by constructor.
    + right. exists f, (role :: before), after. split; [done |]. by constructor.
  - right. destruct role as [r|[f|rs]|w]; simpl in Hr; try done.
    by exists f, [], pre.
Qed.

(** C8.  A list of values with one that is neither a string nor a [Roler]
    makes the call of [HasPermission] print one diagnostic, about the first
    such value, and return false, whatever the policy, the mode, the role
    names of the values before it and the values after it, provided that
    the call of [GetRoles()] returns for every [Roler] before that value;
    where one of those calls panics, the first panic is what the call of
    [HasPermission] ends in. *)
Theorem HasPermission_invalid_value h P mode roles repr :
  IOther repr ∈ roles →
  ∃ pre v post,
    roles = pre ++ IOther v :: post ∧ Forall is_accepted pre ∧
    (Forall returns pre →
       HasPermission_call h P mode roles = inr ([InvalidRole (AOther v)], false)) ∧
    (∀ f before after,
       pre = before ++ IRoler (inl f) :: after → Forall returns before →
       HasPermission_call h P mode roles = inl f) ∧
    (Forall returns pre ∨
     ∃ f before after, pre = before ++ IRoler (inl f) :: after ∧ Forall returns before).
Proof.
  intros Hin. destruct (first_invalid roles repr Hin) as (pre & v & post & -> & Hacc).
  exists pre, v, post. split; [done |]. split; [done |]. split; [|split].
  - intros Hret. unfold HasPermission_call.
    by rewrite (rangeRoles_first_invalid pre v post [] Hacc Hret).
  - intros f before after -> Hret. unfold HasPermission_call.
    apply Forall_app in Hacc as [Hacc _].
    rewrite <- app_assoc, <- app_comm_cons.
    by rewrite (rangeRoles_first_panic before f _ [] Hacc Hret).
  - apply first_panic.
Qed.

(** ** The resource wrapper *)

Lemma boxing_loop (l acc : list actor) :
  foldl (λ roles role, roles ++ [role]) acc l = acc ++ l.
Proof.
  revert acc. induction l as [|x l IH]; intros acc; simpl.
  - by rewrite app_nil_r.
  - by rewrite IH, <- app_assoc.
Qed.

(** C9.  [Resource.HasPermission] answers true, for every mode and context,
    when the resource pointer is nil or its [Permission] field is nil;
    otherwise it answers what [Permission.HasPermission] answers for the
    mode and the roles of the context. *)
Theorem Resource_HasPermission_spec h mode :
  (∀ res context,
     res = None ∨ (∃ r, res = Some r ∧ Resource_Permission r = None) →
     Resource_HasPermission res mode context h = Done ([], true) h) ∧
  (∀ r l P ctx,
     Resource_Permission r = Some l →
     structs h !! l = Some P →
     Resource_HasPermission (Some r) mode (Some ctx) h
     = Done (HasPermission h P mode (Roles ctx)) h).
Proof.
  split.
  - intros res context [->|(r & -> & Hr)]; simpl; [done |]. by rewrite Hr.
  - intros r l P ctx Hr HP. simpl. rewrite Hr, boxing_loop. simpl.
    unfold bind, deref. by rewrite HP.
Qed.

(** ** The store under [append] *)

Lemma backing_insert_eq h a l st mp :
  backing (mkHeap st mp (<[a := l]> (arrays h))) a = l.
Proof. unfold backing. simpl. by rewrite lookup_insert_eq. Qed.

Lemma backing_insert_ne h a b l st mp :
  a ≠ b → backing (mkHeap st mp (<[a := l]> (arrays h))) b = backing h b.
Proof. intros. unfold backing. simpl. by rewrite lookup_insert_ne. Qed.

Lemma wf_slice_length h s : wf_slice h s → length (elems h s) = slen s.
Proof. destruct s as [|a n]; simpl; [done |]. intros [_ ?]. by apply length_take_le. Qed.

Lemma append_spec s xs h :
  ∃ s' h', append s xs h = Done s' h' ∧ append_post s xs h s' h'.
Proof.
  unfold append. case_decide as Hcap.
  - destruct s as [|a n]; simpl in *.
    + assert (xs = []) as -> by (apply length_zero_iff_nil; lia).
      exists SNil, h. repeat split; done.
    + eexists _, _. split; [done |].
      assert (length (take n (backing h a) ++ xs ++ drop (n + length xs) (backing h a))
              = length (backing h a)) as Hlen.
      { rewrite !length_app, length_take, length_drop. lia. }
      repeat split; simpl.
      * intros b _ Hb. rewrite lookup_insert_ne; [done |]. intros ->. by eapply Hb.
      * destruct (decide (a = b)) as [->|]; [by rewrite lookup_insert_eq |].
        by rewrite lookup_insert_ne.
      * destruct (decide (a = b)) as [->|].
        -- by rewrite backing_insert_eq.
        -- by rewrite backing_insert_ne.
      * rewrite backing_insert_eq, app_assoc. apply take_app_length'.
        rewrite length_app, length_take. lia.
      * by rewrite lookup_insert_eq.
      * rewrite backing_insert_eq, Hlen. lia.
      * by rewrite lookup_insert_eq.
      * left. by exists n.
  - assert (arrays h !! fresh (dom (arrays h)) = None) as Ha.
    { apply not_elem_of_dom. apply is_fresh. }
    revert Ha. generalize (fresh (dom (arrays h))). intros a Ha.
    eexists _, _. split; [done |]. repeat split; simpl.
    + intros b [l Hb] _. rewrite lookup_insert_ne; [done |]. intros ->. congruence.
    + destruct H as [l Hb]. rewrite lookup_insert_ne; [by rewrite Hb |].
      intros <-. congruence.
    + destruct H as [l Hb]. rewrite backing_insert_ne; [done |]. intros <-. congruence.
    + pose proof (wf_slice_length _ _ H) as Hl.
      rewrite backing_insert_eq, app_assoc. apply take_app_length'.
      rewrite length_app. lia.
    + by rewrite lookup_insert_eq.
    + pose proof (wf_slice_length _ _ H) as Hl.
      rewrite backing_insert_eq, !length_app, length_replicate. lia.
    + by rewrite lookup_insert_eq.
    + by right.
Qed.

(** ** The store under [Concat] *)

Lemma mapaccess_SArr h m k a n :
  mapaccess h m k = SArr a n → mapobj h m !! k = Some (SArr a n).
Proof. unfold mapaccess. destruct (mapobj h m !! k); simpl; congruence. Qed.

Lemma mapobj_assign st mp ar m M m' :
  mapobj (mkHeap st (<[m := M]> mp) ar) (Some m')
  = if decide (m = m') then M else mapobj (mkHeap st mp ar) (Some m').
Proof.
  simpl. case_decide as Hm.
  - subst. by rewrite lookup_insert_eq.
  - by rewrite lookup_insert_ne.
Qed.

Lemma mapobj_same_maps h h' m : maps h' = maps h → mapobj h' m = mapobj h m.
Proof. intros Hm. destruct m; simpl; [by rewrite Hm | done]. Qed.

Lemma elems_same_backing h h' s :
  (∀ a n, s = SArr a n → arrays h' !! a = arrays h !! a) → elems h' s = elems h s.
Proof.
  destruct s as [|a n]; [done |]. intros Ha. simpl. unfold backing.
  by rewrite (Ha a n eq_refl).
Qed.

Section concat.

Variables (h0 : heap) (r mA mD : loc).
Hypothesis Hr : structs h0 !! r = None.
Hypothesis HmA : maps h0 !! mA = None.
Hypothesis HmD : maps h0 !! mD = None.
Hypothesis HAD : mA ≠ mD.

Local Abbreviation inv := (concat_inv h0 r mA mD).
Local Abbreviation rmap := (result_map mA mD).

Lemma rmap_fresh m : rmap m → maps h0 !! m = None.
Proof. by intros [->| ->]. Qed.

(** One entry of a map of the result is replaced by what [append] made of
    it. *)
Lemma inv_update h h1 m mode xs s' :
  inv h → rmap m →
  append_post (mapaccess h (Some m) mode) xs h s' h1 →
  let h' := mkHeap (structs h1) (<[m := <[mode := s']> (mapobj h1 (Some m))]> (maps h1))
                   (arrays h1) in
  inv h' ∧
  structs h' = structs h ∧
  mapobj h' (Some m) = <[mode := s']> (mapobj h (Some m)) ∧
  (∀ m', m' ≠ m → maps h' !! m' = maps h !! m') ∧
  rolesFor h' (Some m) mode = rolesFor h (Some m) mode ++ xs ∧
  (∀ m' k, rmap m' → (m', k) ≠ (m, mode) →
     rolesFor h' (Some m') k = rolesFor h (Some m') k).
Proof.
  intros (Hext & [role Hstruct] & Hown & Hsep) Hm (Hst & Hmp & Harr & Hlen & Hel & Hs') h'.
  destruct Hext as (Hext1 & Hext2 & Hext3).
  set (s := mapaccess h (Some m) mode) in *.
  assert (wf_slice h s) as Hwfs.
  { destruct s as [|a n] eqn:Hs; [done |].
    apply mapaccess_SArr in Hs. by destruct (Hown _ _ _ _ Hm Hs). }
  destruct (Hel Hwfs) as [Hels' Hwfs']. clear Hel.
  assert (∀ m', mapobj h1 m' = mapobj h m') as Hobj1.
  { intros m'. by apply mapobj_same_maps. }
  assert (∀ m' k, mapobj h' (Some m') !! k =
                  if decide (m' = m ∧ k = mode) then Some s'
                  else mapobj h (Some m') !! k) as Hentry.
  { intros m' k. unfold h'. rewrite mapobj_assign.
    destruct (decide (m = m')) as [<-|Hne].
    - rewrite Hobj1. destruct (decide (k = mode)) as [->|Hk].
      + rewrite lookup_insert_eq. by rewrite decide_True.
      + rewrite lookup_insert_ne by done. rewrite decide_False; [done |]. by intros [_ ?].
    - rewrite decide_False by (intros [? _]; congruence).
      simpl. by rewrite Hmp. }
  (* an array of another entry of the result is not the one appended to *)
  assert (∀ m' k b n, rmap m' → (m', k) ≠ (m, mode) →
            mapobj h (Some m') !! k = Some (SArr b n) →
            arrays h1 !! b = arrays h !! b) as Hother.
  { intros m' k b n Hm' Hne Hb. destruct (Hown _ _ _ _ Hm' Hb) as [_ [Hb' _]].
    apply Harr; [done |]. intros n0 Hs. apply mapaccess_SArr in Hs.
    destruct (Hsep _ _ _ _ _ _ _ Hm' Hm Hb Hs) as [-> ->]. done. }
  (* where the new slice sits *)
  assert (∀ a n, s' = SArr a n → arrays h0 !! a = None ∧
            ∀ m' k n', rmap m' → (m', k) ≠ (m, mode) →
              mapobj h (Some m') !! k ≠ Some (SArr a n')) as Hnew.
  { intros a n ->. destruct Hs' as [_ [[n0 Hs]|Hnone]].
    - apply mapaccess_SArr in Hs. split; [by destruct (Hown _ _ _ _ Hm Hs) |].
      intros m' k n' Hm' Hne Hb.
      destruct (Hsep _ _ _ _ _ _ _ Hm' Hm Hb Hs) as [-> ->]. done.
    - split.
      + destruct (arrays h0 !! a) as [l|] eqn:Ha; [|done].
        rewrite (lookup_weaken _ _ _ _ Ha Hext3) in Hnone. done.
      + intros m' k n' Hm' _ Hb. destruct (Hown _ _ _ _ Hm' Hb) as [_ [[l Hl] _]].
        congruence. }
  split; [|split; [|split; [|split; [|split]]]].
  - (* the invariant *)
    split; [|split; [|split]].
    + split; [|split]; simpl.
      * by rewrite Hst.
      * apply map_subseteq_spec. intros i M Hi.
        rewrite lookup_insert_ne; [rewrite Hmp; by eapply lookup_weaken |].
        intros <-. rewrite (rmap_fresh _ Hm) in Hi. done.
      * apply map_subseteq_spec. intros b l Hb.
        pose proof (lookup_weaken _ _ _ _ Hb Hext3) as Hb'.
        rewrite Harr; [done | by eexists |].
        intros n Hs. apply mapaccess_SArr in Hs.
        destruct (Hown _ _ _ _ Hm Hs) as [Hnone _]. congruence.
    + exists role. simpl. by rewrite Hst.
    + intros m' k a n Hm'. rewrite Hentry. case_decide as Hc.
      * intros [= ->]. split; [by destruct (Hnew _ _ eq_refl) |]. done.
      * intros Hb. destruct (Hown _ _ _ _ Hm' Hb) as [Hnone [Ha Hn]].
        split; [done |]. destruct (Hlen _ Ha) as [Ha1 Hl1].
        split; [done |]. unfold backing in *. simpl. lia.
    + intros m1 k1 n1 m2 k2 n2 a Hm1 Hm2. rewrite !Hentry.
      case_decide as Hc1; case_decide as Hc2.
      * destruct Hc1 as [-> ->], Hc2 as [-> ->]. done.
      * intros [= ->] Hb. destruct (Hnew _ _ eq_refl) as [_ Hno].
        exfalso. eapply (Hno m2 k2); [done | | done]. intros [= -> ->]. by apply Hc2.
      * intros Hb [= ->]. destruct (Hnew _ _ eq_refl) as [_ Hno].
        exfalso. eapply (Hno m1 k1); [done | | done]. intros [= -> ->]. by apply Hc1.
      * by apply Hsep.
  - simpl. done.
  - unfold h'. rewrite mapobj_assign, decide_True by done. by rewrite Hobj1.
  - intros m' Hne. simpl. rewrite lookup_insert_ne by done. by rewrite Hmp.
  - unfold rolesFor at 1. unfold mapaccess. rewrite Hentry, decide_True by done.
    simpl. change (rolesFor h (Some m) mode) with (elems h s).
    rewrite <- Hels'. by destruct s'.
  - intros m' k Hm' Hne. unfold rolesFor, mapaccess. rewrite Hentry.
    rewrite decide_False by (intros [-> ->]; done).
    apply elems_same_backing. intros b n Hb. simpl.
    destruct (mapobj h (Some m') !! k) as [t|] eqn:Ht; simpl in Hb; [|done].
    subst t. by eapply Hother.
Qed.

Lemma elems_extends h t : extends h0 h → wf_slice h0 t → elems h t = elems h0 t.
Proof.
  intros (_ & _ & Harr) Ht. apply elems_same_backing. intros a n ->.
  destruct Ht as [[l Hl] _]. by rewrite Hl, (lookup_weaken _ _ _ _ Hl Harr).
Qed.

Lemma appendEntry_step F m h mode roles :
  (∀ role, F (mkPermission role (Some mA) (Some mD)) = Some m) → rmap m →
  inv h →
  ∃ h' s', appendEntry F r mode roles h = Done tt h' ∧
    inv h' ∧
    structs h' = structs h ∧
    mapobj h' (Some m) = <[mode := s']> (mapobj h (Some m)) ∧
    (∀ m', m' ≠ m → maps h' !! m' = maps h !! m') ∧
    rolesFor h' (Some m) mode = rolesFor h (Some m) mode ++ elems h roles ∧
    (∀ m' k, rmap m' → (m', k) ≠ (m, mode) →
       rolesFor h' (Some m') k = rolesFor h (Some m') k).
Proof.
  intros HF Hm Hinv.
  pose proof Hinv as (_ & [role Hstruct] & _).
  destruct (append_spec (mapaccess h (Some m) mode) (elems h roles) h)
    as (s' & h1 & Happ & Hpost).
  pose proof Hpost as (Hst & _).
  exists (mkHeap (structs h1) (<[m := <[mode := s']> (mapobj h1 (Some m))]> (maps h1))
                 (arrays h1)), s'.
  split; [|by apply inv_update].
  unfold appendEntry, bind, deref, mapread, spread.
  rewrite Hstruct. cbn beta iota. rewrite HF, Happ. cbn beta iota.
  rewrite Hst, Hstruct. cbn beta iota. rewrite HF.
  unfold mapassign. by rewrite Hst.
Qed.

Lemma forEach_spec F m kvs : ∀ h,
  (∀ role, F (mkPermission role (Some mA) (Some mD)) = Some m) → rmap m →
  NoDup kvs.*1 → (∀ k t, (k, t) ∈ kvs → wf_slice h0 t) →
  inv h →
  ∃ h', forEach (appendEntry F r) kvs h = Done tt h' ∧
    inv h' ∧
    structs h' = structs h ∧
    dom (mapobj h' (Some m)) = dom (list_to_map kvs : gmap string slice) ∪ dom (mapobj h (Some m)) ∧
    (∀ m', m' ≠ m → maps h' !! m' = maps h !! m') ∧
    (∀ k, rolesFor h' (Some m) k
          = rolesFor h (Some m) k
            ++ elems h0 (default SNil ((list_to_map kvs : gmap string slice) !! k))) ∧
    (∀ m' k, rmap m' → m' ≠ m → rolesFor h' (Some m') k = rolesFor h (Some m') k).
Proof.
  induction kvs as [|[k0 t0] kvs IH]; intros h HF Hm Hnd Hwf Hinv.
  - exists h. simpl. split; [done |]. split; [done |]. split; [done |].
    split; [|split; [done |split; [|done]]].
    + by rewrite dom_empty_L, (left_id_L ∅ (∪)).
    + intros k. rewrite lookup_empty. simpl. by rewrite app_nil_r.
  - apply NoDup_cons in Hnd as [Hk0 Hnd].
    destruct (appendEntry_step F m h k0 t0 HF Hm Hinv)
      as (h1 & s' & Hrun & Hinv1 & Hst1 & Hobj1 & Hmaps1 & Hk1 & Hoth1).
    destruct (IH h1 HF Hm Hnd) as (h' & Hrun' & Hinv' & Hst' & Hdom' & Hmaps' & Hk' & Hoth');
      [intros k t Hin; apply (Hwf k t); by right | done |].
    exists h'. split; [|split; [|split; [|split; [|split; [|split]]]]].
    + simpl. unfold bind. by rewrite Hrun.
    + done.
    + congruence.
    + rewrite Hdom', Hobj1. simpl. rewrite !dom_insert_L.
      apply set_eq. intros x. rewrite !elem_of_union. tauto.
    + intros m' Hne. by rewrite Hmaps', Hmaps1.
    + intros k. rewrite Hk'. simpl. destruct (decide (k = k0)) as [->|Hne].
      * rewrite lookup_insert_eq. simpl.
        rewrite (not_elem_of_list_to_map_1 _ _ Hk0). simpl. rewrite app_nil_r.
        rewrite Hk1. f_equal. apply elems_extends; [by destruct Hinv |].
        apply (Hwf k0). left.
      * rewrite lookup_insert_ne by done. f_equal.
        apply Hoth1; [done |]. intros [= ?]. done.
    + intros m' k Hm' Hne. rewrite Hoth' by done. apply Hoth1; [done |].
      intros [= ? ?]. done.
Qed.

Lemma rangeMap_spec F m (P : Permission) h :
  (∀ role, F (mkPermission role (Some mA) (Some mD)) = Some m) → rmap m →
  wf_store h0 → wf_ref h0 (F P) →
  inv h →
  ∃ h', rangeMap (F P) (appendEntry F r) h = Done tt h' ∧
    inv h' ∧
    structs h' = structs h ∧
    dom (mapobj h' (Some m)) = dom (mapobj h0 (F P)) ∪ dom (mapobj h (Some m)) ∧
    (∀ m', m' ≠ m → maps h' !! m' = maps h !! m') ∧
    (∀ k, rolesFor h' (Some m) k = rolesFor h (Some m) k ++ rolesFor h0 (F P) k) ∧
    (∀ m' k, rmap m' → m' ≠ m → rolesFor h' (Some m') k = rolesFor h (Some m') k).
Proof.
  intros HF Hm [_ Hwf] Href Hinv.
  assert (mapobj h (F P) = mapobj h0 (F P)) as Hobj.
  { destruct (F P) as [l|]; [|done]. simpl in *. destruct Href as [O HO].
    destruct Hinv as ((_ & Hext & _) & _).
    by rewrite HO, (lookup_weaken _ _ _ _ HO Hext). }
  destruct (forEach_spec F m (rangeOrder (mapobj h0 (F P))) h HF Hm) as (h' & Hrun & Hpost).
  - rewrite (rangeOrder_perm (mapobj h0 (F P))). apply NoDup_fst_map_to_list.
  - intros k t Hin. rewrite (rangeOrder_perm (mapobj h0 (F P))) in Hin.
    apply elem_of_map_to_list in Hin.
    destruct (F P) as [l|]; simpl in *; [|by rewrite lookup_empty in Hin].
    destruct Href as [O HO]. rewrite HO in Hin. simpl in Hin.
    by apply (Hwf l O HO k t).
  - done.
  - exists h'. unfold rangeMap. rewrite Hobj. split; [done |].
    rewrite (list_to_map_proper _ (map_to_list (mapobj h0 (F P)))) in Hpost.
    + rewrite list_to_map_to_list in Hpost. done.
    + rewrite (rangeOrder_perm (mapobj h0 (F P))). apply NoDup_fst_map_to_list.
    + apply rangeOrder_perm.
Qed.

Lemma rolesFor_same_store h h' m k :
  maps h' = maps h → arrays h' = arrays h → rolesFor h' m k = rolesFor h m k.
Proof.
  intros Hm Ha. unfold rolesFor, mapaccess. rewrite (mapobj_same_maps _ _ _ Hm).
  apply elems_same_backing. intros. by rewrite Ha.
Qed.

Lemma mapobj_same_lookup h h' m :
  maps h' !! m = maps h !! m → mapobj h' (Some m) = mapobj h (Some m).
Proof. simpl. by intros ->. Qed.

Lemma setRole_inv h role :
  inv h →
  ∃ h', setRole r role h = Done tt h' ∧ inv h' ∧
    structs h' = <[r := mkPermission role (Some mA) (Some mD)]> (structs h) ∧
    maps h' = maps h ∧ arrays h' = arrays h.
Proof.
  intros ((Hext1 & Hext2 & Hext3) & [role0 Hstruct] & Hown & Hsep).
  exists (mkHeap (<[r := mkPermission role (Some mA) (Some mD)]> (structs h))
                 (maps h) (arrays h)).
  split; [|split; [|done]].
  - unfold setRole, bind, deref. rewrite Hstruct. reflexivity.
  - split; [|split; [|split]]; simpl.
    + split; [|done]. simpl. apply map_subseteq_spec. intros i P Hi.
      rewrite lookup_insert_ne; [by eapply lookup_weaken |]. intros <-. congruence.
    + exists role. by rewrite lookup_insert_eq.
    + exact Hown.
    + exact Hsep.
Qed.

Lemma appendRoles_spec p h :
  wf_store h0 → valid_ptr h0 p → inv h →
  ∃ h', appendRoles r p h = Done tt h' ∧ inv h' ∧
    (∀ R, structs h !! r = Some R →
       ∃ R', structs h' !! r = Some R' ∧
             Role R' = match operand h0 p with Some P => Role P | None => Role R end) ∧
    (∀ F m, result_field mA mD F m →
       dom (mapobj h' (Some m)) = operandKeys h0 F p ∪ dom (mapobj h (Some m)) ∧
       ∀ k, rolesFor h' (Some m) k = rolesFor h (Some m) k ++ operandRoles h0 F p k).
Proof.
  intros Hwf Hp Hinv. destruct p as [l|]; last first.
  { exists h. split; [done |]. split; [done |]. split; [by eauto |].
    intros F m _. unfold operandKeys, operandRoles, operand. cbn [mbind option_bind]. split.
    - by rewrite (left_id_L ∅ (∪)).
    - intros k. by rewrite app_nil_r. }
  destruct Hp as [P HP].
  assert (l ≠ r) as Hlr by congruence.
  pose proof Hwf as [Hrefs _]. destruct (Hrefs l P HP) as [HrefA HrefD].
  assert (structs h !! l = Some P) as HPh.
  { destruct Hinv as ((Hext & _) & _). by eapply lookup_weaken. }
  destruct (setRole_inv h (Role P) Hinv) as (h1 & Hrun1 & Hinv1 & Hst1 & Hmp1 & Har1).
  assert (structs h1 !! l = Some P) as HP1.
  { rewrite Hst1, lookup_insert_ne; done. }
  destruct (rangeMap_spec DeniedRoles mD P h1) as
    (h2 & Hrun2 & Hinv2 & Hst2 & Hdom2 & Hmaps2 & Hk2 & Hoth2);
    [done | by right | done | done | done |].
  assert (structs h2 !! l = Some P) as HP2 by congruence.
  destruct (rangeMap_spec AllowedRoles mA P h2) as
    (h3 & Hrun3 & Hinv3 & Hst3 & Hdom3 & Hmaps3 & Hk3 & Hoth3);
    [done | by left | done | done | done |].
  exists h3. split; [|split; [done |split]].
  - unfold appendRoles, bind, deref. rewrite HPh, Hrun1, HP1, Hrun2, HP2. done.
  - intros R _. eexists. split.
    + rewrite Hst3, Hst2, Hst1. apply lookup_insert_eq.
    + unfold operand. simpl. by rewrite HP.
  - assert (operand h0 (Some l) = Some P) as Hop by done.
    intros F m [[-> ->]|[-> ->]]; unfold operandKeys, operandRoles; rewrite Hop.
    + split.
      * rewrite (mapobj_same_lookup h2 h3) by (apply Hmaps3; done).
        rewrite Hdom2. by rewrite (mapobj_same_maps h h1).
      * intros k. rewrite Hoth3; [|by right | done]. rewrite Hk2.
        by rewrite (rolesFor_same_store h h1).
    + split.
      * rewrite Hdom3. rewrite (mapobj_same_lookup h1 h2) by (apply Hmaps2; done).
        by rewrite (mapobj_same_maps h h1).
      * intros k. rewrite Hk3. rewrite Hoth2; [|by left | done].
        by rewrite (rolesFor_same_store h h1).
Qed.

End concat.

Lemma Concat_spec h permission newPermission' :
  wf_store h → valid_ptr h permission → valid_ptr h newPermission' →
  ∃ r mA mD h',
    Concat permission newPermission' h = Done (Some r) h' ∧
    structs h !! r = None ∧ maps h !! mA = None ∧ maps h !! mD = None ∧ mA ≠ mD ∧
    structs h' !! r
      = Some (mkPermission (concatRole h permission newPermission') (Some mA) (Some mD)) ∧
    extends h h' ∧
    (∀ F m, result_field mA mD F m →
       dom (mapobj h' (Some m))
         = operandKeys h F newPermission' ∪ operandKeys h F permission ∧
       ∀ k, rolesFor h' (Some m) k
            = operandRoles h F newPermission' k ++ operandRoles h F permission k).
Proof.
  intros Hwf Hself Hother.
  set (mA := fresh (dom (maps h))).
  set (mD := fresh (dom (<[mA := ∅]> (maps h)))).
  set (r := fresh (dom (structs h))).
  assert (maps h !! mA = None) as HmA by (apply not_elem_of_dom, is_fresh).
  assert (<[mA := ∅]> (maps h) !! mD = None) as HmD' by (apply not_elem_of_dom, is_fresh).
  assert (mA ≠ mD) as HAD.
  { intros Heq. rewrite <- Heq, lookup_insert_eq in HmD'. done. }
  assert (maps h !! mD = None) as HmD by (by rewrite lookup_insert_ne in HmD').
  assert (structs h !! r = None) as Hr by (apply not_elem_of_dom, is_fresh).
  set (h1 := mkHeap (<[r := mkPermission Global (Some mA) (Some mD)]> (structs h))
                    (<[mD := ∅]> (<[mA := ∅]> (maps h))) (arrays h)).
  assert (concat_inv h r mA mD h1) as Hinv1.
  { split; [|split; [|split]].
    - split; [|split]; simpl; [by apply insert_subseteq | | done].
      etrans; [by apply (insert_subseteq _ mA ∅) | by apply insert_subseteq].
    - exists Global. simpl. by rewrite lookup_insert_eq.
    - intros m k a n [->| ->]; simpl.
      + rewrite lookup_insert_ne, lookup_insert_eq by done. simpl. by rewrite lookup_empty.
      + rewrite lookup_insert_eq. simpl. by rewrite lookup_empty.
    - intros m1 k1 n1 m2 k2 n2 a [->| ->] _; simpl.
      + rewrite lookup_insert_ne, lookup_insert_eq by done. simpl. by rewrite lookup_empty.
      + rewrite lookup_insert_eq. simpl. by rewrite lookup_empty. }
  assert (∀ m, result_map mA mD m → mapobj h1 (Some m) = ∅) as Hempty.
  { intros m [->| ->]; simpl.
    - by rewrite lookup_insert_ne, lookup_insert_eq by done.
    - by rewrite lookup_insert_eq. }
  destruct (appendRoles_spec h r mA mD Hr HmA HmD HAD newPermission' h1 Hwf Hother Hinv1)
    as (h2 & Hrun2 & Hinv2 & Hrole2 & Hpost2).
  destruct (appendRoles_spec h r mA mD Hr HmA HmD HAD permission h2 Hwf Hself Hinv2)
    as (h3 & Hrun3 & Hinv3 & Hrole3 & Hpost3).
  exists r, mA, mD, h3. split; [|split; [done |split; [done |split; [done |split; [done |]]]]].
  { change (Concat permission newPermission' h)
      with ((run! appendRoles r newPermission' in
             run! appendRoles r permission in
             ret (Some r)) h1).
    unfold bind. by rewrite Hrun2, Hrun3. }
  split; [|split].
  - destruct (Hrole2 (mkPermission Global (Some mA) (Some mD))) as (R2 & HR2 & Hrl2).
    { simpl. apply lookup_insert_eq. }
    destruct (Hrole3 R2 HR2) as (R3 & HR3 & Hrl3).
    destruct Hinv3 as (_ & [role Hstruct] & _).
    rewrite Hstruct in HR3. injection HR3 as <-. rewrite Hstruct. do 2 f_equal.
    simpl in Hrl3. rewrite Hrl3. unfold concatRole.
    destruct (operand h permission); [done |]. rewrite Hrl2.
    by destruct (operand h newPermission').
  - by destruct Hinv3.
  - intros F m HF. destruct (Hpost2 F m HF) as [Hdom2 Hk2].
    destruct (Hpost3 F m HF) as [Hdom3 Hk3].
    assert (result_map mA mD m) as Hm.
    { destruct HF as [[_ ->]|[_ ->]]; [by right | by left]. }
    split.
    + rewrite Hdom3, Hdom2, (Hempty m Hm), dom_empty_L.
      apply set_eq. intros x. rewrite !elem_of_union, elem_of_empty. tauto.
    + intros k. rewrite Hk3, Hk2. unfold rolesFor at 1, mapaccess.
      rewrite (Hempty m Hm), lookup_empty. simpl.
      done.
Qed.

(** ** The store under [Allow] and [Deny] *)

Lemma Allow_cases permission mode roles h :
  Allow permission mode roles h =
  if decide (mode = CRUD) then
    (let! p1 := Allow permission Create roles in
     let! p2 := Allow p1 Update roles in
     let! p3 := Allow p2 Read roles in
     Allow p3 Delete roles) h
  else grant AllowedRoles permission mode roles h.
Proof. rewrite Allow_equation_1. by destruct (decide (mode = CRUD)). Qed.

Lemma Deny_cases permission mode roles h :
  Deny permission mode roles h =
  if decide (mode = CRUD) then
    (let! p1 := Deny permission Create roles in
     let! p2 := Deny p1 Update roles in
     let! p3 := Deny p2 Read roles in
     Deny p3 Delete roles) h
  else grant DeniedRoles permission mode roles h.
Proof. rewrite Deny_equation_1. by destruct (decide (mode = CRUD)). Qed.

Lemma mapaccess_nil_map h k : mapaccess h None k = SNil.
Proof. unfold mapaccess. simpl. by rewrite lookup_empty. Qed.

(** The statements of [grant] from the [append] on, run on a store where
    the entry is not nil. *)
Lemma grant_tail F l P m mode roles h :
  structs h !! l = Some P → F P = Some m →
  is_nil (mapaccess h (Some m) mode) = false →
  ∃ h' s',
    (let! P := deref (Some l) in
     let! s := mapread (F P) mode in
     let! s' := append s roles in
     let! P := deref (Some l) in
     run! mapassign (F P) mode s' in
     ret (Some l)) h = Done (Some l) h' ∧
    structs h' = structs h ∧
    maps h' = <[m := <[mode := s']> (mapobj h (Some m))]> (maps h) ∧
    is_nil s' = false ∧
    (wf_slice h (mapaccess h (Some m) mode) →
     rolesFor h' (Some m) mode = rolesFor h (Some m) mode ++ roles).
Proof.
  intros HP HF Hnil.
  destruct (append_spec (mapaccess h (Some m) mode) roles h)
    as (s' & h1 & Happ & Hst & Hmp & _ & _ & Hel & Hs').
  exists (mkHeap (structs h1) (<[m := <[mode := s']> (mapobj h1 (Some m))]> (maps h1))
                 (arrays h1)), s'.
  split; [|split; [done |split; [|split]]].
  - unfold bind, deref, mapread. rewrite HP. cbn beta iota. rewrite HF, Happ.
    cbn beta iota. rewrite Hst, HP. cbn beta iota. rewrite HF.
    unfold mapassign, ret. by rewrite Hst.
  - rewrite <- (mapobj_same_maps h h1 (Some m) Hmp), <- Hmp. done.
  - destruct s'; [|done]. destruct Hs' as [Hs _]. by rewrite Hs in Hnil.
  - intros Hwf. destruct (Hel Hwf) as [Hels _].
    unfold rolesFor at 1, mapaccess. rewrite mapobj_assign, decide_True by done.
    rewrite lookup_insert_eq. simpl. fold (rolesFor h (Some m) mode).
    unfold rolesFor. rewrite <- Hels. by destruct s'.
Qed.

Lemma grant_spec F l P mode roles h :
  structs h !! l = Some P →
  match F P with
  | None => grant F (Some l) mode roles h = Panic NilMapAssignment
  | Some m =>
      ∃ h' s', grant F (Some l) mode roles h = Done (Some l) h' ∧
        structs h' = structs h ∧
        maps h' = <[m := <[mode := s']> (mapobj h (Some m))]> (maps h) ∧
        is_nil s' = false ∧
        ((∀ s, mapobj h (Some m) !! mode = Some s → wf_slice h s) →
         rolesFor h' (Some m) mode = rolesFor h (Some m) mode ++ roles)
  end.
Proof.
  intros HP. destruct (F P) as [m|] eqn:HF.
  - destruct (is_nil (mapaccess h (Some m) mode)) eqn:Hnil.
    + (* the entry is first set to an empty slice *)
      set (a := fresh (dom (arrays h))).
      set (h1 := mkHeap (structs h) (<[m := <[mode := SArr a 0]> (mapobj h (Some m))]> (maps h))
                        (<[a := []]> (arrays h))).
      assert (mapobj h1 (Some m) = <[mode := SArr a 0]> (mapobj h (Some m))) as Hobj1.
      { unfold h1. by rewrite mapobj_assign, decide_True. }
      assert (mapaccess h1 (Some m) mode = SArr a 0) as Hacc1.
      { unfold mapaccess. by rewrite Hobj1, lookup_insert_eq. }
      destruct (grant_tail F l P m mode roles h1 HP HF) as (h' & s' & Hrun & Hst & Hmp & Hs' & Hel).
      { by rewrite Hacc1. }
      exists h', s'. split; [|split; [done |split; [|split; [done |]]]].
      * unfold grant, bind at 1 2, deref at 1, mapread at 1. rewrite HP. cbn beta iota.
        rewrite HF, Hnil. unfold bind at 1 2 3, emptyslice, deref at 1.
        cbn beta iota zeta. simpl structs. rewrite HP. cbn beta iota. rewrite HF.
        unfold mapassign at 1. fold a. fold h1. exact Hrun.
      * rewrite Hmp, Hobj1. simpl. by rewrite !insert_insert_eq.
      * intros _. rewrite Hel.
        -- f_equal. unfold rolesFor. rewrite Hacc1.
           rewrite (elems_nil_slice h _ Hnil). simpl. unfold backing. simpl.
           by rewrite lookup_insert_eq.
        -- rewrite Hacc1. simpl. unfold backing. simpl. rewrite lookup_insert_eq.
           split; [by eexists | done].
    + destruct (grant_tail F l P m mode roles h HP HF Hnil) as (h' & s' & Hrun & Hst & Hmp & Hs' & Hel).
      exists h', s'. split; [|split; [done |split; [done |split; [done |]]]].
      * unfold grant, bind at 1 2, deref at 1, mapread at 1. rewrite HP. cbn beta iota.
        rewrite HF, Hnil. unfold bind at 1, ret at 1. exact Hrun.
      * intros Hwf. apply Hel. destruct (mapaccess h (Some m) mode) as [|a n] eqn:Hs; [done |].
        apply Hwf. by apply mapaccess_SArr.
  - unfold grant, bind, deref, mapread. rewrite HP. cbn beta iota.
    rewrite HF, mapaccess_nil_map. simpl. rewrite HP. cbn beta iota. by rewrite HF.
Qed.

Lemma grant_Done F p mode roles h p' h' :
  grant F p mode roles h = Done p' h' →
  ∃ l P m s', p = Some l ∧ p' = Some l ∧ structs h !! l = Some P ∧ F P = Some m ∧
    structs h' = structs h ∧
    maps h' = <[m := <[mode := s']> (mapobj h (Some m))]> (maps h).
Proof.
  intros Hrun. destruct p as [l|]; [|done].
  destruct (structs h !! l) as [P|] eqn:HP.
  - pose proof (grant_spec F l P mode roles h HP) as Hspec.
    destruct (F P) as [m|] eqn:HF.
    + destruct Hspec as (h1 & s' & Hrun1 & Hst & Hmp & _).
      rewrite Hrun1 in Hrun. injection Hrun as <- <-.
      exists l, P, m, s'. done.
    + congruence.
  - unfold grant, bind, deref in Hrun. by rewrite HP in Hrun.
Qed.

Lemma grant_keeps_key F p mode roles h p' h' m k :
  grant F p mode roles h = Done p' h' → k ≠ mode →
  mapobj h' m !! k = mapobj h m !! k.
Proof.
  intros (l & P & m0 & s' & _ & _ & _ & _ & _ & Hmp)%grant_Done Hk.
  destruct m as [m|]; [|done]. simpl. rewrite Hmp.
  destruct (decide (m0 = m)) as [->|Hne].
  - rewrite lookup_insert_eq. simpl. by rewrite lookup_insert_ne.
  - by rewrite lookup_insert_ne.
Qed.

Lemma wf_store_entry h m mode s :
  wf_store h → mapobj h (Some m) !! mode = Some s → wf_slice h s.
Proof.
  intros [_ Hwf]. simpl. destruct (maps h !! m) as [M|] eqn:HM; simpl.
  - by apply (Hwf m M HM).
  - by rewrite lookup_empty.
Qed.

(** [Allow] and [Deny] are the same function up to the field they fill. *)
Section builder.

Variable F : Permission → option loc.
Variable B : option loc → PermissionMode → list string → heap → outcome (option loc).
Hypothesis B_cases : ∀ p mode roles h,
  B p mode roles h =
  if decide (mode = CRUD) then
    (let! p1 := B p Create roles in
     let! p2 := B p1 Update roles in
     let! p3 := B p2 Read roles in
     B p3 Delete roles) h
  else grant F p mode roles h.

Lemma B_concrete p mode roles h :
  mode ≠ CRUD → B p mode roles h = grant F p mode roles h.
Proof. intros Hm. by rewrite B_cases, decide_False. Qed.

Lemma B_concrete_Done p mode roles h p' h' :
  mode ≠ CRUD → B p mode roles h = Done p' h' →
  p' = p ∧ structs h' = structs h ∧ ∀ m, mapobj h' m !! CRUD = mapobj h m !! CRUD.
Proof.
  intros Hm Hrun. rewrite B_concrete in Hrun by done.
  split; [|split].
  - apply grant_Done in Hrun as (l & _ & _ & _ & -> & -> & _). done.
  - apply grant_Done in Hrun as (l & _ & _ & _ & _ & _ & _ & _ & Hst & _). done.
  - intros m. eapply grant_keeps_key; [done |]. congruence.
Qed.

Lemma B_Done p mode roles h p' h' :
  B p mode roles h = Done p' h' →
  p' = p ∧ structs h' = structs h ∧ ∀ m, mapobj h' m !! CRUD = mapobj h m !! CRUD.
Proof.
  destruct (decide (mode = CRUD)) as [->|Hm]; [|by apply B_concrete_Done].
  rewrite B_cases, decide_True by done. unfold bind.
  destruct (B p Create roles h) as [p1 h1|] eqn:H1; [|done].
  apply B_concrete_Done in H1 as (-> & Hst1 & Hk1); [|done].
  destruct (B p Update roles h1) as [p2 h2|] eqn:H2; [|done].
  apply B_concrete_Done in H2 as (-> & Hst2 & Hk2); [|done].
  destruct (B p Read roles h2) as [p3 h3|] eqn:H3; [|done].
  apply B_concrete_Done in H3 as (-> & Hst3 & Hk3); [|done].
  intros H4. apply B_concrete_Done in H4 as (-> & Hst4 & Hk4); [|done].
  split; [done |]. split; [congruence |].
  intros m. by rewrite Hk4, Hk3, Hk2, Hk1.
Qed.

Lemma B_sequence p roles h :
  B p CRUD roles h =
  (run! B p Create roles in
   run! B p Update roles in
   run! B p Read roles in
   B p Delete roles) h.
Proof.
  rewrite (B_cases p CRUD), decide_True by done. unfold bind.
  destruct (B p Create roles h) as [p1 h1|] eqn:H1; [|done].
  apply B_Done in H1 as (-> & _).
  destruct (B p Update roles h1) as [p2 h2|] eqn:H2; [|done].
  apply B_Done in H2 as (-> & _).
  destruct (B p Read roles h2) as [p3 h3|] eqn:H3; [|done].
  apply B_Done in H3 as (-> & _). done.
Qed.

Lemma B_nil_map l P mode roles h :
  structs h !! l = Some P → F P = None →
  B (Some l) mode roles h = Panic NilMapAssignment.
Proof.
  intros HP HF.
  assert (∀ mode', mode' ≠ CRUD → B (Some l) mode' roles h = Panic NilMapAssignment) as Hc.
  { intros mode' Hm. rewrite B_concrete by done.
    pose proof (grant_spec F l P mode' roles h HP) as Hspec. by rewrite HF in Hspec. }
  destruct (decide (mode = CRUD)) as [->|Hm]; [|by apply Hc].
  rewrite B_cases, decide_True by done. unfold bind. by rewrite Hc.
Qed.

Lemma B_concrete_ok l P m mode roles h :
  mode ≠ CRUD → structs h !! l = Some P → F P = Some m →
  ∃ h', B (Some l) mode roles h = Done (Some l) h' ∧
    structs h' = structs h ∧
    is_nil (mapaccess h' (Some m) mode) = false ∧
    (wf_store h → rolesFor h' (Some m) mode = rolesFor h (Some m) mode ++ roles).
Proof.
  intros Hm HP HF. rewrite B_concrete by done.
  pose proof (grant_spec F l P mode roles h HP) as Hspec. rewrite HF in Hspec.
  destruct Hspec as (h' & s' & Hrun & Hst & Hmp & Hs' & Hel).
  exists h'. split; [done |]. split; [done |]. split.
  - unfold mapaccess. simpl. rewrite Hmp, lookup_insert_eq. simpl.
    by rewrite lookup_insert_eq.
  - intros Hwf. apply Hel. intros s. by apply wf_store_entry.
Qed.

Lemma B_ok l P m mode roles h :
  structs h !! l = Some P → F P = Some m →
  ∃ h', B (Some l) mode roles h = Done (Some l) h' ∧ structs h' = structs h.
Proof.
  intros HP HF.
  destruct (decide (mode = CRUD)) as [->|Hm].
  - rewrite B_cases, decide_True by done. unfold bind.
    destruct (B_concrete_ok l P m Create roles h) as (h1 & -> & Hst1 & _); [done.. |].
    rewrite <- Hst1 in HP.
    destruct (B_concrete_ok l P m Update roles h1) as (h2 & -> & Hst2 & _); [done.. |].
    rewrite <- Hst2 in HP.
    destruct (B_concrete_ok l P m Read roles h2) as (h3 & -> & Hst3 & _); [done.. |].
    rewrite <- Hst3 in HP.
    destruct (B_concrete_ok l P m Delete roles h3) as (h4 & -> & Hst4 & _); [done.. |].
    exists h4. split; [done | congruence].
  - destruct (B_concrete_ok l P m mode roles h) as (h' & ? & ? & _); [done.. |].
    by exists h'.
Qed.

End builder.

Lemma run_calls_crud_key calls : ∀ permission h p' h',
  run_calls permission calls h = Done p' h' →
  ∀ m, mapobj h' m !! CRUD = mapobj h m !! CRUD.
Proof.
  induction calls as [|[mode roles|mode roles] calls IH]; intros p h p' h'; simpl.
  - by intros [= _ ->].
  - unfold bind. destruct (Allow p mode roles h) as [p1 h1|] eqn:H1; [|done].
    apply (B_Done AllowedRoles Allow Allow_cases) in H1 as (_ & _ & Hk1).
    intros Hrest m. by rewrite (IH _ _ _ _ Hrest), Hk1.
  - unfold bind. destruct (Deny p mode roles h) as [p1 h1|] eqn:H1; [|done].
    apply (B_Done DeniedRoles Deny Deny_cases) in H1 as (_ & _ & Hk1).
    intros Hrest m. by rewrite (IH _ _ _ _ Hrest), Hk1.
Qed.

Lemma run_calls_returns calls : ∀ h l P,
  structs h !! l = Some P → is_Some (AllowedRoles P) → is_Some (DeniedRoles P) →
  ∃ h', run_calls (Some l) calls h = Done (Some l) h' ∧ structs h' = structs h.
Proof.
  induction calls as [|[mode roles|mode roles] calls IH]; intros h l P HP [mA HA] [mD HD]; simpl.
  - by exists h.
  - destruct (B_ok AllowedRoles Allow Allow_cases l P mA mode roles h HP HA) as (h1 & Hrun & Hst).
    rewrite <- Hst in HP.
    destruct (IH h1 l P HP) as (h' & Hrest & Hst'); [by eexists.. |].
    exists h'. unfold bind. rewrite Hrun. split; [done | congruence].
  - destruct (B_ok DeniedRoles Deny Deny_cases l P mD mode roles h HP HD) as (h1 & Hrun & Hst).
    rewrite <- Hst in HP.
    destruct (IH h1 l P HP) as (h' & Hrest & Hst'); [by eexists.. |].
    exists h'. unfold bind. rewrite Hrun. split; [done | congruence].
Qed.

(** ** [Concat], from the caller's side *)

Lemma Concat_result h permission newPermission' :
  wf_store h → valid_ptr h permission → valid_ptr h newPermission' →
  ∃ r R h',
    Concat permission newPermission' h = Done (Some r) h' ∧
    structs h !! r = None ∧
    structs h' !! r = Some R ∧
    Role R = concatRole h permission newPermission' ∧
    (∃ mA mD, AllowedRoles R = Some mA ∧ DeniedRoles R = Some mD ∧
              maps h !! mA = None ∧ maps h !! mD = None ∧ mA ≠ mD) ∧
    extends h h' ∧
    (∀ F, is_field F →
       dom (mapobj h' (F R)) = operandKeys h F newPermission' ∪ operandKeys h F permission ∧
       ∀ mode, rolesFor h' (F R) mode
               = operandRoles h F newPermission' mode ++ operandRoles h F permission mode).
Proof.
  intros Hwf Hself Hother.
  destruct (Concat_spec h permission newPermission' Hwf Hself Hother)
    as (r & mA & mD & h' & Hrun & Hr & HmA & HmD & HAD & HR & Hext & Hpost).
  exists r, (mkPermission (concatRole h permission newPermission') (Some mA) (Some mD)), h'.
  split; [done |]. split; [done |]. split; [done |]. split; [done |].
  split; [by exists mA, mD |]. split; [done |].
  intros F [->| ->]; simpl.
  - apply (Hpost AllowedRoles mA). by right.
  - apply (Hpost DeniedRoles mD). by left.
Qed.

(** What a store holds for an operand is read the same in every store
    that extends it. *)
Lemma extends_operand h h' p :
  wf_store h → extends h h' → valid_ptr h p →
  operand h' p = operand h p ∧
  ∀ F, is_field F →
    operandKeys h' F p = operandKeys h F p ∧
    ∀ mode, operandRoles h' F p mode = operandRoles h F p mode.
Proof.
  intros Hwf Hext Hp. destruct p as [l|]; [|done]. destruct Hp as [P HP].
  pose proof Hext as (Hext1 & Hext2 & Hext3).
  assert (operand h' (Some l) = Some P) as Hop' by (by eapply lookup_weaken).
  assert (operand h (Some l) = Some P) as Hop by done.
  split; [congruence |]. intros F HF.
  unfold operandKeys, operandRoles. rewrite Hop, Hop'.
  assert (wf_ref h (F P)) as Href.
  { destruct Hwf as [Hrefs _]. destruct (Hrefs l P HP). by destruct HF as [->| ->]. }
  assert (mapobj h' (F P) = mapobj h (F P)) as Hobj.
  { destruct (F P) as [m|]; [|done]. destruct Href as [M HM]. simpl.
    by rewrite HM, (lookup_weaken _ _ _ _ HM Hext2). }
  split; [by rewrite Hobj |].
  intros mode. unfold rolesFor, mapaccess. rewrite Hobj.
  destruct (mapobj h (F P) !! mode) as [s|] eqn:Hs; [|done]. simpl.
  apply elems_extends; [done |].
  destruct (F P) as [m|]; [by eapply wf_store_entry |].
  simpl in Hs. by rewrite lookup_empty in Hs.
Qed.

(** The decision depends on the store only through the role names of the
    two entries for the mode and the size of the allowed map. *)
Lemma HasPermission_same_rules h h' P P' mode roles :
  rolesFor h' (DeniedRoles P') mode = rolesFor h (DeniedRoles P) mode →
  rolesFor h' (AllowedRoles P') mode = rolesFor h (AllowedRoles P) mode →
  maplen h' (AllowedRoles P') = maplen h (AllowedRoles P) →
  HasPermission h' P' mode roles = HasPermission h P mode roles.
Proof.
  intros HD HA Hlen. unfold HasPermission.
  destruct (resolveRoles roles []); [done |].
  by rewrite !guarded_match, !entry_match, HD, HA, Hlen.
Qed.

(** C4.  [Concat] on two pointers, each nil or the address of a policy,
    returns the address of a policy in which, for every mode and both for
    [DeniedRoles] and [AllowedRoles], the role names are those of the
    argument followed by those of the receiver, the keys are the keys of
    either operand, and the scope is the receiver's if the receiver is not
    nil, else the argument's if the argument is not nil, else [Global]. *)
Theorem Concat_entries_and_scope h permission newPermission' :
  wf_store h → valid_ptr h permission → valid_ptr h newPermission' →
  ∃ r R h',
    Concat permission newPermission' h = Done (Some r) h' ∧
    structs h' !! r = Some R ∧
    (∀ mode, rolesFor h' (DeniedRoles R) mode
             = operandRoles h DeniedRoles newPermission' mode
               ++ operandRoles h DeniedRoles permission mode) ∧
    (∀ mode, rolesFor h' (AllowedRoles R) mode
             = operandRoles h AllowedRoles newPermission' mode
               ++ operandRoles h AllowedRoles permission mode) ∧
    dom (mapobj h' (DeniedRoles R))
      = operandKeys h DeniedRoles newPermission' ∪ operandKeys h DeniedRoles permission ∧
    dom (mapobj h' (AllowedRoles R))
      = operandKeys h AllowedRoles newPermission' ∪ operandKeys h AllowedRoles permission ∧
    Role R = match operand h permission, operand h newPermission' with
             | Some P, _ => Role P
             | None, Some Q => Role Q
             | None, None => Global
             end.
Proof.
  intros Hwf Hself Hother.
  destruct (Concat_result h permission newPermission' Hwf Hself Hother)
    as (r & R & h' & Hrun & _ & HR & Hrole & _ & _ & Hpost).
  destruct (Hpost DeniedRoles) as [HdomD HD]; [by right |].
  destruct (Hpost AllowedRoles) as [HdomA HA]; [by left |].
  exists r, R, h'. repeat (split; [done |]).
  rewrite Hrole. unfold concatRole. by destruct (operand h permission).
Qed.

(** C6.  From the same store, [Concat] of two policies in either order
    gives results with the same members: a role name is in the allowed
    (denied) list of a mode in one result exactly when it is in that list
    in the other; the scope of each result is the one [Concat] attributes
    it, favouring its receiver. *)
Theorem Concat_membership_commutes h p q :
  wf_store h → valid_ptr h p → valid_ptr h q →
  ∃ r1 R1 h1 r2 R2 h2,
    Concat p q h = Done (Some r1) h1 ∧ structs h1 !! r1 = Some R1 ∧
    Concat q p h = Done (Some r2) h2 ∧ structs h2 !! r2 = Some R2 ∧
    (∀ mode role,
       (role ∈ rolesFor h1 (AllowedRoles R1) mode ↔ role ∈ rolesFor h2 (AllowedRoles R2) mode) ∧
       (role ∈ rolesFor h1 (DeniedRoles R1) mode ↔ role ∈ rolesFor h2 (DeniedRoles R2) mode)) ∧
    Role R1 = concatRole h p q ∧ Role R2 = concatRole h q p.
Proof.
  intros Hwf Hp Hq.
  destruct (Concat_result h p q Hwf Hp Hq)
    as (r1 & R1 & h1 & Hrun1 & _ & HR1 & Hrole1 & _ & _ & Hpost1).
  destruct (Concat_result h q p Hwf Hq Hp)
    as (r2 & R2 & h2 & Hrun2 & _ & HR2 & Hrole2 & _ & _ & Hpost2).
  exists r1, R1, h1, r2, R2, h2. repeat (split; [done |]). split; [|done].
  intros mode role.
  destruct (Hpost1 DeniedRoles) as [_ HD1]; [by right |].
  destruct (Hpost1 AllowedRoles) as [_ HA1]; [by left |].
  destruct (Hpost2 DeniedRoles) as [_ HD2]; [by right |].
  destruct (Hpost2 AllowedRoles) as [_ HA2]; [by left |].
  rewrite HD1, HA1, HD2, HA2, !elem_of_app. tauto.
Qed.

(** C7.  [Concat] returns the address of a struct the store did not have,
    whose two maps the store did not have either, and leaves every struct,
    map and array of the store as it was, so that both operands read as
    before.  With a nil pointer on one side the result records, for every
    mode and field, the role names and keys of the other operand, and
    decides every request as that operand does. *)
Theorem Concat_frame h permission newPermission' :
  wf_store h → valid_ptr h permission → valid_ptr h newPermission' →
  ∃ r R h',
    Concat permission newPermission' h = Done (Some r) h' ∧
    structs h !! r = None ∧ structs h' !! r = Some R ∧
    (∃ mA mD, AllowedRoles R = Some mA ∧ DeniedRoles R = Some mD ∧
              maps h !! mA = None ∧ maps h !! mD = None ∧ mA ≠ mD) ∧
    extends h h' ∧
    (∀ p, p = permission ∨ p = newPermission' →
       operand h' p = operand h p ∧
       ∀ F, is_field F →
         operandKeys h' F p = operandKeys h F p ∧
         ∀ mode, operandRoles h' F p mode = operandRoles h F p mode) ∧
    (∀ p, (permission = None ∧ p = newPermission') ∨ (newPermission' = None ∧ p = permission) →
       (∀ F, is_field F →
          dom (mapobj h' (F R)) = operandKeys h F p ∧
          ∀ mode, rolesFor h' (F R) mode = operandRoles h F p mode) ∧
       ∀ P mode roles, operand h p = Some P →
          HasPermission h' R mode roles = HasPermission h P mode roles).
Proof.
  intros Hwf Hself Hother.
  destruct (Concat_result h permission newPermission' Hwf Hself Hother)
    as (r & R & h' & Hrun & Hr & HR & _ & Hmaps & Hext & Hpost).
  exists r, R, h'. repeat (split; [done |]). split.
  { intros p [->| ->]; by apply extends_operand. }
  intros p Hnil.
  assert (∀ F, is_field F →
            dom (mapobj h' (F R)) = operandKeys h F p ∧
            ∀ mode, rolesFor h' (F R) mode = operandRoles h F p mode) as Hid.
  { intros F HF. destruct (Hpost F HF) as [Hdom Hroles].
    destruct Hnil as [[-> ->]|[-> ->]].
    - split.
      + rewrite Hdom. unfold operandKeys at 2. simpl. by rewrite (right_id_L ∅ (∪)).
      + intros mode. rewrite Hroles. unfold operandRoles at 2. simpl. by rewrite app_nil_r.
    - split.
      + rewrite Hdom. unfold operandKeys at 1. simpl. by rewrite (left_id_L ∅ (∪)).
      + intros mode. by rewrite Hroles. }
  split; [done |].
  intros P mode roles HP.
  destruct (Hid DeniedRoles) as [_ HD]; [by right |].
  destruct (Hid AllowedRoles) as [HdomA HA]; [by left |].
  unfold operandKeys, operandRoles in *. rewrite HP in *.
  apply HasPermission_same_rules; [done.. |].
  unfold maplen. by rewrite <- !size_dom, HdomA.
Qed.

(** ** The builders *)

(** C5.  [Allow] with [CRUD] leaves the store as the calls for [Create],
    [Update], [Read] and [Delete] on the same policy do, one after the
    other, and so does [Deny]; and no sequence of [Allow] and [Deny] calls
    changes what any map holds under the key [CRUD], so that a map without
    that key never gets it.  On a policy with both maps such a sequence
    always returns. *)
Theorem crud_is_four_calls permission roles h :
  Allow permission CRUD roles h =
    (run! Allow permission Create roles in
     run! Allow permission Update roles in
     run! Allow permission Read roles in
     Allow permission Delete roles) h ∧
  Deny permission CRUD roles h =
    (run! Deny permission Create roles in
     run! Deny permission Update roles in
     run! Deny permission Read roles in
     Deny permission Delete roles) h ∧
  (∀ calls p' h',
     run_calls permission calls h = Done p' h' →
     ∀ m, mapobj h' m !! CRUD = mapobj h m !! CRUD) ∧
  (∀ calls l P,
     permission = Some l → structs h !! l = Some P →
     is_Some (AllowedRoles P) → is_Some (DeniedRoles P) →
     ∃ h', run_calls permission calls h = Done permission h').
Proof.
  split; [|split; [|split]].
  - apply (B_sequence AllowedRoles Allow Allow_cases).
  - apply (B_sequence DeniedRoles Deny Deny_cases).
  - intros calls p' h'. apply run_calls_crud_key.
  - intros calls l P -> HP HA HD.
    destruct (run_calls_returns calls h l P HP HA HD) as (h' & Hrun & _). by exists h'.
Qed.

(** C10.  On a policy whose [AllowedRoles] map is nil every [Allow] panics
    on the assignment to the map; on a policy whose map is not nil every
    [Allow] returns the policy, and for a mode other than [CRUD] the entry
    of the mode is then a non-nil slice holding the former role names
    followed by the new ones.  The same holds of [Deny] and [DeniedRoles].
    Both maps of a policy returned by [Concat] are not nil, and every
    [Allow] and [Deny] on it returns. *)
Theorem builders_need_maps h :
  (∀ l P mode roles, structs h !! l = Some P →
     (AllowedRoles P = None → Allow (Some l) mode roles h = Panic NilMapAssignment) ∧
     (DeniedRoles P = None → Deny (Some l) mode roles h = Panic NilMapAssignment) ∧
     (is_Some (AllowedRoles P) →
        ∃ h', Allow (Some l) mode roles h = Done (Some l) h' ∧
              (mode ≠ CRUD →
                 is_nil (mapaccess h' (AllowedRoles P) mode) = false ∧
                 (wf_store h →
                  rolesFor h' (AllowedRoles P) mode
                  = rolesFor h (AllowedRoles P) mode ++ roles))) ∧
     (is_Some (DeniedRoles P) →
        ∃ h', Deny (Some l) mode roles h = Done (Some l) h' ∧
              (mode ≠ CRUD →
                 is_nil (mapaccess h' (DeniedRoles P) mode) = false ∧
                 (wf_store h →
                  rolesFor h' (DeniedRoles P) mode
                  = rolesFor h (DeniedRoles P) mode ++ roles)))) ∧
  (∀ permission newPermission',
     wf_store h → valid_ptr h permission → valid_ptr h newPermission' →
     ∃ r R h',
       Concat permission newPermission' h = Done (Some r) h' ∧
       structs h' !! r = Some R ∧
       is_Some (AllowedRoles R) ∧ is_Some (DeniedRoles R) ∧
       ∀ mode roles,
         (∃ h'', Allow (Some r) mode roles h' = Done (Some r) h'') ∧
         (∃ h'', Deny (Some r) mode roles h' = Done (Some r) h'')).
Proof.
  assert (∀ F B, (∀ p mode roles h,
              B p mode roles h =
              if decide (mode = CRUD) then
                (let! p1 := B p Create roles in
                 let! p2 := B p1 Update roles in
                 let! p3 := B p2 Read roles in
                 B p3 Delete roles) h
              else grant F p mode roles h) →
            ∀ l P mode roles, structs h !! l = Some P → is_Some (F P) →
            ∃ h', B (Some l) mode roles h = Done (Some l) h' ∧
              (mode ≠ CRUD →
                 is_nil (mapaccess h' (F P) mode) = false ∧
                 (wf_store h → rolesFor h' (F P) mode = rolesFor h (F P) mode ++ roles)))
    as Hok.
  { intros F B HB l P mode roles HP [m HF].
    destruct (decide (mode = CRUD)) as [->|Hm].
    - destruct (B_ok F B HB l P m CRUD roles h HP HF) as (h' & Hrun & _).
      exists h'. split; [done |]. done.
    - destruct (B_concrete_ok F B HB l P m mode roles h Hm HP HF) as (h' & Hrun & _ & Hnil & Hel).
      exists h'. split; [done |]. intros _. by rewrite HF. }
  split.
  - intros l P mode roles HP. split; [|split; [|split]].
    + by apply (B_nil_map AllowedRoles Allow Allow_cases).
    + by apply (B_nil_map DeniedRoles Deny Deny_cases).
    + by apply (Hok AllowedRoles Allow Allow_cases).
    + by apply (Hok DeniedRoles Deny Deny_cases).
  - intros permission newPermission' Hwf Hself Hother.
    destruct (Concat_result h permission newPermission' Hwf Hself Hother)
      as (r & R & h' & Hrun & _ & HR & _ & (mA & mD & HA & HD & _) & _).
    exists r, R, h'. split; [done |]. split; [done |].
    split; [by rewrite HA |]. split; [by rewrite HD |].
    intros mode roles. split.
    + destruct (B_ok AllowedRoles Allow Allow_cases r R mA mode roles h' HR HA) as (h'' & ? & _).
      by exists h''.
    + destruct (B_ok DeniedRoles Deny Deny_cases r R mD mode roles h' HR HD) as (h'' & ? & _).
      by exists h''.
Qed.

(** * Further properties of the decision *)

(** ** [includeRoles] *)

Lemma includeRoles_ext roles roles' values values' :
  (∀ x, x ∈ roles ↔ x ∈ roles') → (∀ x, x ∈ values ↔ x ∈ values') →
  includeRoles roles values = includeRoles roles' values'.
Proof.
  intros Hr Hv. apply eq_true_iff_eq. rewrite !includeRoles_true.
  split; intros (role & Hin & Hm); exists role.
  - rewrite <- Hr, <- Hv. done.
  - rewrite Hr, Hv. done.
Qed.

(** X1.  [includeRoles] looks at its two lists as sets: lists with the
    same elements, in whatever order and number, give the same answer. *)
Theorem includeRoles_same_elements roles roles' values values' :
  (∀ x, x ∈ roles ↔ x ∈ roles') → (∀ x, x ∈ values ↔ x ∈ values') →
  includeRoles roles values = includeRoles roles' values'.
Proof. apply includeRoles_ext. Qed.

(** X2.  A match is never lost by adding rules or by giving the actor
    more role names. *)
Theorem includeRoles_mono roles roles' values values' :
  roles ⊆ roles' → values ⊆ values' →
  includeRoles roles values = true → includeRoles roles' values' = true.
Proof.
  intros Hr Hv. rewrite !includeRoles_true. intros (role & Hin & Hm).
  exists role. split; [by apply Hr |]. destruct Hm as [?|?]; [by left | right; by apply Hv].
Qed.

Lemma includeRoles_app roles1 roles2 values :
  includeRoles (roles1 ++ roles2) values
  = includeRoles roles1 values || includeRoles roles2 values.
Proof.
  apply eq_true_iff_eq. rewrite orb_true_iff, !includeRoles_true. split.
  - intros (role & [?|?]%elem_of_app & Hm); [left | right]; by exists role.
  - intros [(role & ? & ?)|(role & ? & ?)]; exists role; rewrite elem_of_app; auto.
Qed.

(** ** The actors *)

Lemma resolveRoles_accepted roles : ∀ roleNames,
  Forall is_role_value roles →
  resolveRoles roles roleNames = inr (roleNames ++ concat (namesOf <$> roles)).
Proof.
  induction roles as [|role roles IH]; intros roleNames Hall; simpl.
  - by rewrite app_nil_r.
  - apply Forall_cons in Hall as [Hrole Hall].
    destruct role as [r|rs|v]; simpl in *; [| |done].
    + rewrite IH by done. by rewrite <- app_assoc.
    + rewrite IH by done. by rewrite <- app_assoc.
Qed.





(** X5.  The decision depends on the actors through the set of their role
    names only: two lists of accepted values whose role names are the same
    up to order and repetition get the same answer (a [Roler] counts as
    the strings it returns). *)
Theorem HasPermission_same_names h P mode roles roles' :
  Forall is_role_value roles → Forall is_role_value roles' →
  (∀ x, x ∈ concat (namesOf <$> roles) ↔ x ∈ concat (namesOf <$> roles')) →
  HasPermission h P mode roles = HasPermission h P mode roles'.
Proof.
  intros Hall Hall' Hsame.
  rewrite (HasPermission_resolved h P mode roles _ (resolveRoles_accepted roles [] Hall)).
  rewrite (HasPermission_resolved h P mode roles' _ (resolveRoles_accepted roles' [] Hall')).
  simpl.
  rewrite (includeRoles_ext (rolesFor h (DeniedRoles P) mode) _ _
             (concat (namesOf <$> roles')) (λ _, reflexivity _) Hsame).
  rewrite (includeRoles_ext (rolesFor h (AllowedRoles P) mode) _ _
             (concat (namesOf <$> roles')) (λ _, reflexivity _) Hsame).
  done.
Qed.

(** X6.  An actor without any role name is let through by wildcard rules
    only: it is refused when [Anyone] is denied for the mode, and else
    admitted when the [AllowedRoles] map has no key at all or [Anyone] is
    allowed for the mode. *)
Theorem HasPermission_no_role_names h P mode roles :
  resolveRoles roles [] = inr [] →
  HasPermission h P mode roles =
  ([], if bool_decide (Anyone ∈ rolesFor h (DeniedRoles P) mode) then false
       else if maplen h (AllowedRoles P) =? 0 then true
       else bool_decide (Anyone ∈ rolesFor h (AllowedRoles P) mode)).
Proof.
  intros Hres. rewrite (HasPermission_resolved _ _ _ _ _ Hres).
  assert (∀ l, includeRoles l [] = bool_decide (Anyone ∈ l)) as Hnone.
  { intros l. apply eq_true_iff_eq. rewrite includeRoles_true, bool_decide_eq_true. split.
    - intros (role & Hin & [->|Hm]); [done | by apply elem_of_nil in Hm].
    - intros Hin. exists Anyone. auto. }
  by rewrite !Hnone.
Qed.

(** X7.  A policy whose two maps have no key, the zero value of
    [Permission] among them, admits every list of accepted values for
    every mode. *)
Theorem HasPermission_unconfigured h P mode roles :
  maplen h (DeniedRoles P) = 0 → maplen h (AllowedRoles P) = 0 →
  Forall is_role_value roles →
  HasPermission h P mode roles = ([], true).
Proof.
  intros HD HA Hall.
  rewrite (HasPermission_resolved h P mode roles _ (resolveRoles_accepted roles [] Hall)).
  unfold rolesFor. rewrite (maplen_0_mapaccess _ _ _ HD), HA. done.
Qed.

(** X8.  [Anyone] in the list allowed for a mode admits every list of
    accepted values, the empty one included, unless the deny entry of the
    mode matches. *)
Theorem HasPermission_allowed_wildcard h P mode roles :
  Forall is_role_value roles →
  Anyone ∈ rolesFor h (AllowedRoles P) mode →
  includeRoles (rolesFor h (DeniedRoles P) mode) (concat (namesOf <$> roles)) = false →
  HasPermission h P mode roles = ([], true).
Proof.
  intros Hall Hany Hdeny.
  rewrite (HasPermission_resolved h P mode roles _ (resolveRoles_accepted roles [] Hall)).
  simpl. rewrite Hdeny.
  assert (includeRoles (rolesFor h (AllowedRoles P) mode) (concat (namesOf <$> roles)) = true)
    as ->.
  { apply includeRoles_true. exists Anyone. auto. }
  by destruct (maplen h (AllowedRoles P) =? 0).
Qed.

(** * The validators and processors of a resource *)

Section named.

Context {T : Type}.
Variable nameOf : T → string.


Lemma replaceNamed_present pre old post new :
  Forall (other_name nameOf (nameOf new)) pre → nameOf old = nameOf new →
  replaceNamed nameOf (pre ++ Some old :: post) (Some new)
  = inr (Some (pre ++ Some new :: post)).
Proof.
  intros Hpre Hold. induction Hpre as [|v pre (v' & -> & Hne) _ IH]; simpl.
  - by rewrite bool_decide_eq_true_2.
  - rewrite bool_decide_eq_false_2 by done. by rewrite IH.
Qed.

Lemma replaceNamed_inr items new : ∀ r,
  replaceNamed nameOf items (Some new) = inr r →
  match r with
  | None => Forall (other_name nameOf (nameOf new)) items
  | Some items' =>
      ∃ pre old post, items = pre ++ Some old :: post ∧
        Forall (other_name nameOf (nameOf new)) pre ∧ nameOf old = nameOf new ∧
        items' = pre ++ Some new :: post
  end.
Proof.
  induction items as [|v items IH]; intros r; simpl.
  - by intros [= <-].
  - destruct v as [v'|]; [|done]. case_bool_decide as Hn.
    + intros [= <-]. by exists [], v', items.
    + destruct (replaceNamed nameOf items (Some new)) as [f|[items'|]] eqn:Hrec; [done | |].
      * intros [= <-]. destruct (IH _ eq_refl) as (pre & old & post & -> & Hpre & Hold & ->).
        exists (Some v' :: pre), old, post. repeat split; try done.
        apply Forall_cons. split; [by exists v' | done].
      * intros [= <-]. apply Forall_cons. split; [by exists v' | by apply (IH None)].
Qed.

Lemma addNamed_inr items new items' :
  addNamed nameOf items (Some new) = inr items' →
  (Forall (other_name nameOf (nameOf new)) items ∧ items' = items ++ [Some new]) ∨
  (∃ pre old post, items = pre ++ Some old :: post ∧
     Forall (other_name nameOf (nameOf new)) pre ∧ nameOf old = nameOf new ∧
     items' = pre ++ Some new :: post).
Proof.
  unfold addNamed.
  destruct (replaceNamed nameOf items (Some new)) as [f|r] eqn:Hrep; [done |].
  pose proof (replaceNamed_inr _ _ _ Hrep) as Hr. destruct r as [r|].
  - intros [= <-]. by right.
  - intros [= <-]. by left.
Qed.

Lemma addNamed_returns items new :
  Forall is_Some items → ∃ items', addNamed nameOf items (Some new) = inr items'.
Proof.
  intros Hall. unfold addNamed.
  assert (∃ r, replaceNamed nameOf items (Some new) = inr r) as [r ->].
  { induction Hall as [|v items [v' ->] _ [r IH]]; simpl; [by eexists |].
    case_bool_decide; [by eexists |]. rewrite IH. destruct r; by eexists. }
  destruct r; by eexists.
Qed.

Lemma findNamed_other_prefix name pre rest :
  Forall (other_name nameOf name) pre →
  findNamed nameOf name (pre ++ rest) = findNamed nameOf name rest.
Proof.
  induction 1 as [|v pre (v' & -> & Hne) _ IH]; simpl; [done |].
  by rewrite bool_decide_eq_false_2.
Qed.

Lemma findNamed_replace name pre old new post :
  nameOf old = nameOf new → name ≠ nameOf new →
  findNamed nameOf name (pre ++ Some new :: post)
  = findNamed nameOf name (pre ++ Some old :: post).
Proof.
  intros Hold Hne. induction pre as [|[v|] pre IH]; simpl.
  - rewrite !bool_decide_eq_false_2 by congruence. done.
  - by rewrite IH.
  - done.
Qed.

Lemma findNamed_snoc_other name items new :
  name ≠ nameOf new →
  findNamed nameOf name (items ++ [Some new]) = findNamed nameOf name items.
Proof.
  intros Hne. induction items as [|[v|] items IH]; simpl.
  - by rewrite bool_decide_eq_false_2.
  - by rewrite IH.
  - done.
Qed.

Lemma namesIn_other name items :
  Forall (other_name nameOf name) items → name ∉ namesIn nameOf items.
Proof.
  induction 1 as [|v items (v' & -> & Hne) _ IH]; unfold namesIn; simpl.
  - apply not_elem_of_nil.
  - apply not_elem_of_cons. split; [congruence | done].
Qed.

Lemma namesIn_app items1 items2 :
  namesIn nameOf (items1 ++ items2) = namesIn nameOf items1 ++ namesIn nameOf items2.
Proof. unfold namesIn. apply omap_app. Qed.


(** X10.  On a list without nil pointers the call with an entry that is
    not nil returns, and in the new list the name of the new entry is found
    to be the new entry, while every other name is found to be what it
    was. *)
Theorem addNamed_lookup items new :
  Forall is_Some items →
  ∃ items', addNamed nameOf items (Some new) = inr items' ∧
    findNamed nameOf (nameOf new) items' = Some new ∧
    ∀ name, name ≠ nameOf new →
      findNamed nameOf name items' = findNamed nameOf name items.
Proof.
  intros Hall. destruct (addNamed_returns items new Hall) as [items' Hrun].
  exists items'. split; [done |].
  destruct (addNamed_inr _ _ _ Hrun)
    as [[Habs ->]|(pre & old & post & -> & Hpre & Hold & ->)].
  - split.
    + rewrite findNamed_other_prefix by done. simpl. by rewrite bool_decide_eq_true_2.
    + intros name Hne. by apply findNamed_snoc_other.
  - split.
    + rewrite findNamed_other_prefix by done. simpl. by rewrite bool_decide_eq_true_2.
    + intros name Hne. by apply findNamed_replace.
Qed.

(** X11.  A call that returns keeps the names of the entries and their
    order when the name was there, and else adds the name at the end: no
    name gets a second entry, and names that were all different stay all
    different. *)
Theorem addNamed_names items new items' :
  addNamed nameOf items (Some new) = inr items' →
  namesIn nameOf items'
    = (if decide (nameOf new ∈ namesIn nameOf items) then namesIn nameOf items
       else namesIn nameOf items ++ [nameOf new]) ∧
  length items'
    = (if decide (nameOf new ∈ namesIn nameOf items) then length items
       else S (length items)) ∧
  (NoDup (namesIn nameOf items) → NoDup (namesIn nameOf items')).
Proof.
  intros Hrun.
  destruct (addNamed_inr _ _ _ Hrun)
    as [[Habs ->]|(pre & old & post & -> & Hpre & Hold & ->)].
  - pose proof (namesIn_other _ _ Habs) as Hnot.
    destruct (decide (nameOf new ∈ namesIn nameOf items)) as [?|_]; [done |].
    rewrite namesIn_app, length_app. simpl.
    split; [done |]. split; [lia |].
    intros Hnd. apply NoDup_app. split; [done |]. split.
    + intros x Hx [->|[]%elem_of_nil]%elem_of_cons. done.
    + apply NoDup_singleton.
  - assert (namesIn nameOf (pre ++ Some new :: post)
            = namesIn nameOf (pre ++ Some old :: post)) as Hsame.
    { rewrite !namesIn_app. unfold namesIn. simpl. by rewrite Hold. }
    assert (nameOf new ∈ namesIn nameOf (pre ++ Some old :: post)) as Hin.
    { rewrite namesIn_app, elem_of_app. right. unfold namesIn. simpl.
      rewrite Hold. left. }
    destruct (decide (nameOf new ∈ namesIn nameOf (pre ++ Some old :: post))) as [_|?];
      [|done].
    rewrite Hsame, !length_app. simpl. done.
Qed.

(** X12.  Adding the same entry a second time changes nothing. *)
Theorem addNamed_idempotent items new items' :
  addNamed nameOf items (Some new) = inr items' →
  addNamed nameOf items' (Some new) = inr items'.
Proof.
  intros Hrun.
  destruct (addNamed_inr _ _ _ Hrun)
    as [[Habs ->]|(pre & old & post & -> & Hpre & Hold & ->)].
  - unfold addNamed. by rewrite (replaceNamed_present items new [] new).
  - unfold addNamed. by rewrite (replaceNamed_present pre new post new).
Qed.

(** X13.  The call panics, on a nil pointer, exactly when the list is not
    empty and the pointer to add is nil, or when the loop comes to a nil
    entry of the list before it comes to an entry of the name.  So a nil
    pointer is added to an empty list without a panic, and every call
    after that panics. *)
Theorem addNamed_panics items item f :
  addNamed nameOf items item = inl f ↔
  f = NilDereference ∧
  ((item = None ∧ items ≠ []) ∨
   ∃ new pre post, item = Some new ∧ items = pre ++ None :: post ∧
     Forall (other_name nameOf (nameOf new)) pre).
Proof.
  split.
  - unfold addNamed.
    destruct (replaceNamed nameOf items item) as [f'|r] eqn:Hrep; [|by destruct r].
    intros [= ->]. revert f Hrep.
    induction items as [|v items IH]; intros f Hrep; simpl in Hrep; [done |].
    destruct v as [v'|], item as [new|].
    + case_bool_decide as Hn; [done |].
      destruct (replaceNamed nameOf items (Some new)) as [f'|[r|]] eqn:Hrec; [|done..].
      injection Hrep as ->.
      destruct (IH f eq_refl) as [-> [[? _]|(new' & pre & post & Hnew & -> & Hpre)]];
        [done |]. injection Hnew as <-.
      split; [done |]. right. exists new, (Some v' :: pre), post.
      split; [done |]. split; [done |]. apply Forall_cons. split; [by exists v' | done].
    + injection Hrep as <-. split; [done |]. by left.
    + injection Hrep as <-. split; [done |]. right. by exists new, [], items.
    + injection Hrep as <-. split; [done |]. by left.
  - intros [-> [[-> Hne]|(new & pre & post & -> & -> & Hpre)]]; unfold addNamed.
    + destruct items as [|[v|] items]; done.
    + assert (replaceNamed nameOf (pre ++ None :: post) (Some new) = inl NilDereference) as ->;
        [|done].
      induction Hpre as [|v pre (v' & -> & Hne) _ IH]; simpl; [done |].
      rewrite bool_decide_eq_false_2 by done. by rewrite IH.
Qed.

End named.

(** * The primary fields of a resource *)

Lemma collectFields_all {StructField} (fieldByName : string → option StructField)
    res fields : ∀ sfs acc,
  Forall2 (λ name sf, fieldByName name = Some sf) fields sfs →
  collectFields fieldByName res fields acc = (acc ++ sfs, None).
Proof.
  induction fields as [|name fields IH]; intros sfs acc Hall.
  - apply Forall2_nil_inv_l in Hall as ->. simpl. by rewrite app_nil_r.
  - apply Forall2_cons_inv_l in Hall as (sf & sfs' & Hsf & Hall & ->). simpl.
    rewrite Hsf, (IH sfs') by done. by rewrite <- app_assoc.
Qed.

Lemma collectFields_bad {StructField} (fieldByName : string → option StructField)
    res pre bad post : ∀ sfs acc,
  Forall2 (λ name sf, fieldByName name = Some sf) pre sfs →
  fieldByName bad = None →
  collectFields fieldByName res (pre ++ bad :: post) acc
  = (acc ++ sfs, Some (bad ++ " is not a valid field for resource " ++ Name res)%string).
Proof.
  induction pre as [|name pre IH]; intros sfs acc Hall Hbad.
  - apply Forall2_nil_inv_l in Hall as ->. simpl. by rewrite Hbad, app_nil_r.
  - apply Forall2_cons_inv_l in Hall as (sf & sfs' & Hsf & Hall & ->). simpl.
    rewrite Hsf, (IH sfs') by done. by rewrite <- app_assoc.
Qed.

Lemma collectFields_None {StructField} (fieldByName : string → option StructField)
    res fields : ∀ acc result,
  collectFields fieldByName res fields acc = (result, None) →
  ∃ sfs, Forall2 (λ name sf, fieldByName name = Some sf) fields sfs ∧ result = acc ++ sfs.
Proof.
  induction fields as [|name fields IH]; intros acc result; simpl.
  - intros [= <-]. exists []. by rewrite app_nil_r.
  - destruct (fieldByName name) as [sf|] eqn:Hsf; [|done].
    intros (sfs & Hall & ->)%IH. exists (sf :: sfs). split.
    + by apply Forall2_cons.
    + by rewrite <- app_assoc.
Qed.

(** X14.  Called with field names, [SetPrimaryFields] returns without an
    error exactly when every name is a field of the value, and the primary
    fields are then the fields of the names, one for each name and in
    their order; the primary field of the value plays no part. *)
Theorem SetPrimaryFields_named {StructField} (fieldByName : string → option StructField)
    primaryField res fields sfs :
  fields ≠ [] →
  SetPrimaryFields fieldByName primaryField res fields = (sfs, None) ↔
  Forall2 (λ name sf, fieldByName name = Some sf) fields sfs.
Proof.
  intros Hne. unfold SetPrimaryFields.
  rewrite decide_True by (destruct fields; [done | simpl; lia]). split.
  - intros (sfs' & Hall & ->)%collectFields_None. done.
  - intros Hall. by rewrite (collectFields_all _ _ _ sfs).
Qed.

(** X15.  At the first name that is not a field the call returns the
    error about that name; the primary fields are then the fields of the
    names before it, neither the former ones nor those of the names after
    it. *)
Theorem SetPrimaryFields_first_invalid {StructField}
    (fieldByName : string → option StructField) primaryField res pre bad post sfs :
  Forall2 (λ name sf, fieldByName name = Some sf) pre sfs →
  fieldByName bad = None →
  SetPrimaryFields fieldByName primaryField res (pre ++ bad :: post)
  = (sfs, Some (bad ++ " is not a valid field for resource " ++ Name res)%string).
Proof.
  intros Hall Hbad. unfold SetPrimaryFields.
  rewrite decide_True by (rewrite length_app; simpl; lia).
  by rewrite (collectFields_bad _ _ _ _ _ sfs).
Qed.

(** * The builders and the decision *)

Lemma mapobj_lookup_Some h m k s :
  mapobj h (Some m) !! k = Some s ↔ ∃ M, maps h !! m = Some M ∧ M !! k = Some s.
Proof.
  simpl. destruct (maps h !! m) as [M|]; simpl.
  - split; [by exists M | by intros (? & [= <-] & ?)].
  - rewrite lookup_empty. split; [done | by intros (? & ? & ?)].
Qed.

Lemma sep_store_spec h :
  sep_store h ↔
  ∀ m1 k1 n1 m2 k2 n2 a,
    mapobj h (Some m1) !! k1 = Some (SArr a n1) →
    mapobj h (Some m2) !! k2 = Some (SArr a n2) →
    m1 = m2 ∧ k1 = k2.
Proof.
  split.
  - intros Hsep m1 k1 n1 m2 k2 n2 a (M1 & HM1 & H1)%mapobj_lookup_Some
      (M2 & HM2 & H2)%mapobj_lookup_Some.
    by apply (Hsep m1 M1 HM1 k1 _ H1 m2 M2 HM2 k2 _ H2).
  - intros Hsep m1 M1 HM1 k1 s1 H1 m2 M2 HM2 k2 s2 H2 Hsh.
    destruct s1 as [|a n1], s2 as [|b n2]; simpl in Hsh; try done. subst b.
    apply (Hsep m1 k1 n1 m2 k2 n2 a); apply mapobj_lookup_Some; eauto.
Qed.

Lemma wf_store_slices h :
  (∀ m k s, mapobj h (Some m) !! k = Some s → wf_slice h s) →
  map_Forall (λ _ M, map_Forall (λ _ s, wf_slice h s) M) (maps h).
Proof.
  intros Hwf m M HM k s Hs. apply (Hwf m k). apply mapobj_lookup_Some. eauto.
Qed.

(** One entry of a map is replaced by what [append] made of it. *)
Lemma entry_update_good h h1 m mode xs s' :
  wf_store h → sep_store h → is_Some (maps h !! m) →
  append_post (mapaccess h (Some m) mode) xs h s' h1 →
  let h' := mkHeap (structs h1) (<[m := <[mode := s']> (mapobj h1 (Some m))]> (maps h1))
                   (arrays h1) in
  wf_store h' ∧ sep_store h' ∧ structs h' = structs h ∧
  mapobj h' (Some m) = <[mode := s']> (mapobj h (Some m)) ∧
  (∀ m', m' ≠ m → maps h' !! m' = maps h !! m') ∧
  rolesFor h' (Some m) mode = rolesFor h (Some m) mode ++ xs ∧
  (∀ m' k, (m', k) ≠ (m, mode) → rolesFor h' (Some m') k = rolesFor h (Some m') k).
Proof.
  intros Hwf Hsep0 Hm (Hst & Hmp & Harr & Hlen & Hel & Hs') h'.
  pose proof Hwf as [Hrefs _].
  pose proof (λ m k s, wf_store_entry h m k s Hwf) as Hown.
  pose proof (proj1 (sep_store_spec h) Hsep0) as Hsep.
  set (s := mapaccess h (Some m) mode) in *.
  assert (wf_slice h s) as Hwfs.
  { destruct s as [|a n] eqn:Hs; [done |]. apply mapaccess_SArr in Hs. by eapply Hown. }
  destruct (Hel Hwfs) as [Hels' Hwfs']. clear Hel.
  assert (∀ m', mapobj h1 m' = mapobj h m') as Hobj1.
  { intros m'. by apply mapobj_same_maps. }
  assert (∀ m' k, mapobj h' (Some m') !! k =
                  if decide (m' = m ∧ k = mode) then Some s'
                  else mapobj h (Some m') !! k) as Hentry.
  { intros m' k. unfold h'. rewrite mapobj_assign.
    destruct (decide (m = m')) as [<-|Hne].
    - rewrite Hobj1. destruct (decide (k = mode)) as [->|Hk].
      + rewrite lookup_insert_eq. by rewrite decide_True.
      + rewrite lookup_insert_ne by done. rewrite decide_False; [done |]. by intros [_ ?].
    - rewrite decide_False by (intros [? _]; congruence).
      simpl. by rewrite Hmp. }
  assert (∀ m' k b n, (m', k) ≠ (m, mode) →
            mapobj h (Some m') !! k = Some (SArr b n) →
            arrays h1 !! b = arrays h !! b) as Hother.
  { intros m' k b n Hne Hb. destruct (Hown _ _ _ Hb) as [Hb' _].
    apply Harr; [done |]. intros n0 Hs. apply mapaccess_SArr in Hs.
    destruct (Hsep _ _ _ _ _ _ _ Hb Hs) as [-> ->]. done. }
  assert (∀ a n, s' = SArr a n →
            ∀ m' k n', (m', k) ≠ (m, mode) →
              mapobj h (Some m') !! k ≠ Some (SArr a n')) as Hnew.
  { intros a n ->. destruct Hs' as [_ [[n0 Hs]|Hnone]].
    - apply mapaccess_SArr in Hs. intros m' k n' Hne Hb.
      destruct (Hsep _ _ _ _ _ _ _ Hb Hs) as [-> ->]. done.
    - intros m' k n' _ Hb. destruct (Hown _ _ _ Hb) as [[l Hl] _]. congruence. }
  split; [|split; [|split; [|split; [|split; [|split]]]]].
  - split.
    + intros l P HP. simpl in HP. rewrite Hst in HP.
      destruct (Hrefs l P HP) as [HA HD].
      assert (∀ x, wf_ref h x → wf_ref h' x) as Href.
      { intros [x|] Hx; [|done]. simpl in *.
        destruct (decide (m = x)) as [->|Hne]; [by rewrite lookup_insert_eq |].
        by rewrite lookup_insert_ne, Hmp. }
      split; by apply Href.
    + apply wf_store_slices. intros m' k t. rewrite Hentry. case_decide as Hc.
      * intros [= <-]. by destruct s'.
      * intros Ht. pose proof (Hown _ _ _ Ht) as Hwt.
        destruct t as [|b n]; [done |]. destruct Hwt as [Hb Hn].
        destruct (Hlen _ Hb) as [Hb1 Hl1]. split; [done |].
        unfold backing in *. simpl. lia.
  - apply sep_store_spec. intros m1 k1 n1 m2 k2 n2 a. rewrite !Hentry.
    case_decide as Hc1; case_decide as Hc2.
    + destruct Hc1 as [-> ->], Hc2 as [-> ->]. done.
    + intros [= ->] Hb. exfalso. eapply (Hnew _ _ eq_refl m2 k2); [|done].
      intros [= -> ->]. by apply Hc2.
    + intros Hb [= ->]. exfalso. eapply (Hnew _ _ eq_refl m1 k1); [|done].
      intros [= -> ->]. by apply Hc1.
    + by apply Hsep.
  - done.
  - unfold h'. rewrite mapobj_assign, decide_True by done. by rewrite Hobj1.
  - intros m' Hne. simpl. rewrite lookup_insert_ne by done. by rewrite Hmp.
  - unfold rolesFor at 1. unfold mapaccess. rewrite Hentry, decide_True by done.
    simpl. change (rolesFor h (Some m) mode) with (elems h s).
    rewrite <- Hels'. by destruct s'.
  - intros m' k Hne. unfold rolesFor, mapaccess. rewrite Hentry.
    rewrite decide_False by (intros [-> ->]; done).
    apply elems_same_backing. intros b n Hb. simpl.
    destruct (mapobj h (Some m') !! k) as [t|] eqn:Ht; simpl in Hb; [|done].
    subst t. by eapply Hother.
Qed.

(** [[]string{}] stands to a nil slice as [append] of nothing, but for the
    result, which is not nil. *)
Lemma emptyslice_post h :
  append_post SNil [] h (SArr (fresh (dom (arrays h))) 0)
    (mkHeap (structs h) (maps h) (<[fresh (dom (arrays h)) := []]> (arrays h))).
Proof.
  assert (arrays h !! fresh (dom (arrays h)) = None) as Ha.
  { apply not_elem_of_dom, is_fresh. }
  revert Ha. generalize (fresh (dom (arrays h))). intros a Ha.
  split; [done |]. split; [done |]. split; [|split; [|split]]; simpl.
  - intros b [l Hb] _. rewrite lookup_insert_ne; [done |]. congruence.
  - intros b [l Hb]. split.
    + rewrite lookup_insert_ne; [by eexists | congruence].
    + rewrite backing_insert_ne; [done | congruence].
  - intros _. split; [done |]. rewrite lookup_insert_eq. split; [by eexists |]. lia.
  - rewrite lookup_insert_eq. split; [by eexists | by right].
Qed.

Lemma grant_tail_run F l P m mode roles h :
  structs h !! l = Some P → F P = Some m →
  ∃ s' h1, append_post (mapaccess h (Some m) mode) roles h s' h1 ∧
    (let! P := deref (Some l) in
     let! s := mapread (F P) mode in
     let! s' := append s roles in
     let! P := deref (Some l) in
     run! mapassign (F P) mode s' in
     ret (Some l)) h
    = Done (Some l)
        (mkHeap (structs h1) (<[m := <[mode := s']> (mapobj h1 (Some m))]> (maps h1))
                (arrays h1)).
Proof.
  intros HP HF.
  destruct (append_spec (mapaccess h (Some m) mode) roles h) as (s' & h1 & Happ & Hpost).
  exists s', h1. split; [done |]. destruct Hpost as (Hst & _).
  unfold bind, deref, mapread. rewrite HP. cbn beta iota. rewrite HF, Happ.
  cbn beta iota. rewrite Hst, HP. cbn beta iota. rewrite HF.
  unfold mapassign, ret. by rewrite Hst.
Qed.

Lemma granted_one h h' m mode roles :
  wf_store h' → sep_store h' → structs h' = structs h → is_Some (maps h' !! m) →
  dom (mapobj h' (Some m)) = {[mode]} ∪ dom (mapobj h (Some m)) →
  (∀ m', m' ≠ m → maps h' !! m' = maps h !! m') →
  rolesFor h' (Some m) mode = rolesFor h (Some m) mode ++ roles →
  (∀ m' k, (m', k) ≠ (m, mode) → rolesFor h' (Some m') k = rolesFor h (Some m') k) →
  granted m [mode] roles h h'.
Proof.
  intros Hwf Hsep Hst Hm Hdom Hmaps Hk Hoth. repeat (split; [done |]). split; [|split].
  - rewrite Hdom. simpl. by rewrite (right_id_L ∅ (∪)).
  - done.
  - intros m' k. case_decide as Hc.
    + destruct Hc as [-> ->%list_elem_of_singleton]. done.
    + apply Hoth. intros [= -> ->]. apply Hc. split; [done |]. by apply list_elem_of_singleton.
Qed.

Lemma grant_granted F l P m mode roles h :
  wf_store h → sep_store h →
  structs h !! l = Some P → F P = Some m → is_Some (maps h !! m) →
  ∃ h', grant F (Some l) mode roles h = Done (Some l) h' ∧ granted m [mode] roles h h'.
Proof.
  intros Hwf Hsep HP HF Hm.
  destruct (is_nil (mapaccess h (Some m) mode)) eqn:Hnil.
  - (* the entry is first set to an empty slice *)
    set (a := fresh (dom (arrays h))).
    set (h0 := mkHeap (structs h) (maps h) (<[a := []]> (arrays h))).
    set (h1 := mkHeap (structs h0) (<[m := <[mode := SArr a 0]> (mapobj h0 (Some m))]> (maps h0))
                      (arrays h0)).
    assert (append_post (mapaccess h (Some m) mode) [] h (SArr a 0) h0) as Hpost0.
    { destruct (mapaccess h (Some m) mode); [|done]. apply emptyslice_post. }
    destruct (entry_update_good h h0 m mode [] (SArr a 0) Hwf Hsep Hm Hpost0)
      as (Hwf1 & Hsep1 & Hst1 & Hobj1 & Hmaps1 & Hk1 & Hoth1).
    fold h1 in Hwf1, Hsep1, Hst1, Hobj1, Hmaps1, Hk1, Hoth1.
    assert (is_Some (maps h1 !! m)) as Hm1.
    { simpl. rewrite lookup_insert_eq. by eexists. }
    assert (structs h1 !! l = Some P) as HP1 by done.
    destruct (grant_tail_run F l P m mode roles h1 HP1 HF) as (s' & h2 & Hpost & Hrun).
    destruct (entry_update_good h1 h2 m mode roles s' Hwf1 Hsep1 Hm1 Hpost)
      as (Hwf2 & Hsep2 & Hst2 & Hobj2 & Hmaps2 & Hk2 & Hoth2).
    eexists. split.
    + unfold grant, bind at 1 2, deref at 1, mapread at 1. rewrite HP. cbn beta iota.
      rewrite HF, Hnil. unfold bind at 1 2 3, emptyslice, deref at 1.
      cbn beta iota zeta. simpl structs. rewrite HP. cbn beta iota. rewrite HF.
      unfold mapassign at 1. exact Hrun.
    + apply granted_one; try done.
      * simpl. rewrite lookup_insert_eq. by eexists.
      * rewrite Hobj2, Hobj1, !dom_insert_L.
        apply set_eq. intros x. rewrite !elem_of_union. tauto.
      * intros m' Hne. by rewrite Hmaps2, Hmaps1.
      * rewrite Hk2, Hk1. by rewrite app_nil_r.
      * intros m' k Hne. by rewrite Hoth2, Hoth1.
  - destruct (grant_tail_run F l P m mode roles h HP HF) as (s' & h2 & Hpost & Hrun).
    destruct (entry_update_good h h2 m mode roles s' Hwf Hsep Hm Hpost)
      as (Hwf2 & Hsep2 & Hst2 & Hobj2 & Hmaps2 & Hk2 & Hoth2).
    eexists. split.
    + unfold grant, bind at 1 2, deref at 1, mapread at 1. rewrite HP. cbn beta iota.
      rewrite HF, Hnil. unfold bind at 1, ret at 1. exact Hrun.
    + apply granted_one; try done.
      * simpl. rewrite lookup_insert_eq. by eexists.
      * by rewrite Hobj2, dom_insert_L.
Qed.

Lemma granted_then m modes k roles h h1 h2 :
  granted m modes roles h h1 → granted m [k] roles h1 h2 → k ∉ modes →
  granted m (modes ++ [k]) roles h h2.
Proof.
  intros (_ & _ & Hst1 & _ & Hdom1 & Hmaps1 & Hr1) (Hwf2 & Hsep2 & Hst2 & Hm2 & Hdom2 & Hmaps2 & Hr2) Hk.
  split; [done |]. split; [done |]. split; [congruence |]. split; [done |].
  split; [|split].
  - rewrite Hdom2, Hdom1, list_to_set_app_L.
    apply set_eq. intros x. rewrite !elem_of_union. tauto.
  - intros m' Hne. by rewrite Hmaps2, Hmaps1.
  - intros m' x. rewrite Hr2, Hr1.
    destruct (decide (m' = m)) as [->|Hne]; last first.
    { rewrite !decide_False by (intros [? _]; done). done. }
    destruct (decide (x = k)) as [->|Hx].
    + rewrite decide_True by (split; [done | left]).
      rewrite decide_False by (intros [_ ?]; done).
      rewrite decide_True; [done |]. split; [done |]. rewrite elem_of_app. right. left.
    + rewrite decide_False by (intros [_ ?%list_elem_of_singleton]; done).
      destruct (decide (x ∈ modes)) as [Hin|Hin].
      * rewrite !decide_True; [done | |done]. split; [done |]. rewrite elem_of_app. by left.
      * rewrite !decide_False; [done | |by intros [_ ?]].
        intros [_ [?|?%list_elem_of_singleton]%elem_of_app]; done.
Qed.

(** [Allow] and [Deny] on a store that is well formed and without shared
    arrays. *)
Section builder_granted.

Variable F : Permission → option loc.
Variable B : option loc → PermissionMode → list string → heap → outcome (option loc).
Hypothesis B_cases : ∀ p mode roles h,
  B p mode roles h =
  if decide (mode = CRUD) then
    (let! p1 := B p Create roles in
     let! p2 := B p1 Update roles in
     let! p3 := B p2 Read roles in
     B p3 Delete roles) h
  else grant F p mode roles h.

Lemma B_granted l P m mode roles h :
  wf_store h → sep_store h →
  structs h !! l = Some P → F P = Some m → is_Some (maps h !! m) →
  ∃ h', B (Some l) mode roles h = Done (Some l) h' ∧ granted m (expand mode) roles h h'.
Proof.
  intros Hwf Hsep HP HF Hm. unfold expand. rewrite B_cases.
  destruct (decide (mode = CRUD)) as [->|Hmode]; [|by apply (grant_granted F l P)].
  assert (∀ k h0, k ≠ CRUD → B (Some l) k roles h0 = grant F (Some l) k roles h0) as Hstep.
  { intros k h0 Hk. by rewrite B_cases, decide_False. }
  destruct (grant_granted F l P m Create roles h Hwf Hsep HP HF Hm) as (h1 & Hrun1 & Hg1).
  pose proof Hg1 as (Hwf1 & Hsep1 & Hst1 & Hm1 & _).
  rewrite <- Hst1 in HP.
  destruct (grant_granted F l P m Update roles h1 Hwf1 Hsep1 HP HF Hm1) as (h2 & Hrun2 & Hg2).
  pose proof Hg2 as (Hwf2 & Hsep2 & Hst2 & Hm2 & _).
  rewrite <- Hst2 in HP.
  destruct (grant_granted F l P m Read roles h2 Hwf2 Hsep2 HP HF Hm2) as (h3 & Hrun3 & Hg3).
  pose proof Hg3 as (Hwf3 & Hsep3 & Hst3 & Hm3 & _).
  rewrite <- Hst3 in HP.
  destruct (grant_granted F l P m Delete roles h3 Hwf3 Hsep3 HP HF Hm3) as (h4 & Hrun4 & Hg4).
  exists h4. split.
  - unfold bind. rewrite (Hstep Create) by done. rewrite Hrun1. cbn beta iota.
    rewrite (Hstep Update) by done. rewrite Hrun2. cbn beta iota.
    rewrite (Hstep Read) by done. rewrite Hrun3. cbn beta iota.
    rewrite (Hstep Delete) by done. exact Hrun4.
  - apply (granted_then m [Create; Update; Read] Delete roles h h3 h4); [|done |].
    + apply (granted_then m [Create; Update] Read roles h h2 h3); [|done |].
      * apply (granted_then m [Create] Update roles h h1 h2); [done.. |].
        by intros ?%list_elem_of_singleton.
      * intros [?|?%list_elem_of_singleton]%elem_of_cons; done.
    + intros [?|[?|?%list_elem_of_singleton]%elem_of_cons]%elem_of_cons; done.
Qed.

End builder_granted.

Lemma builder_granted F B l P m mode roles h :
  is_builder F B → wf_store h → sep_store h →
  structs h !! l = Some P → F P = Some m →
  ∃ h', B (Some l) mode roles h = Done (Some l) h' ∧ granted m (expand mode) roles h h'.
Proof.
  intros HB Hwf Hsep HP HF.
  assert (is_Some (maps h !! m)) as Hm.
  { destruct Hwf as [Hrefs _]. destruct (Hrefs l P HP) as [HA HD].
    destruct HB as [[-> _]|[-> _]]; [rewrite HF in HA | rewrite HF in HD]; done. }
  destruct HB as [[-> ->]|[-> ->]].
  - by apply (B_granted AllowedRoles Allow Allow_cases l P).
  - by apply (B_granted DeniedRoles Deny Deny_cases l P).
Qed.

Lemma granted_other m modes roles h h' x :
  granted m modes roles h h' → x ≠ Some m →
  mapobj h' x = mapobj h x ∧ ∀ k, rolesFor h' x k = rolesFor h x k.
Proof.
  intros (_ & _ & _ & _ & _ & Hmaps & Hr) Hx. destruct x as [m'|].
  - assert (m' ≠ m) as Hne by congruence. split.
    + apply mapobj_same_lookup. by apply Hmaps.
    + intros k. rewrite Hr. by rewrite decide_False by (intros [? _]; done).
  - split; [done |]. intros k. unfold rolesFor. by rewrite !mapaccess_nil_map.
Qed.

Lemma granted_roles m modes roles h h' k :
  granted m modes roles h h' →
  rolesFor h' (Some m) k
  = rolesFor h (Some m) k ++ (if decide (k ∈ modes) then roles else []).
Proof.
  intros (_ & _ & _ & _ & _ & _ & Hr). rewrite Hr.
  destruct (decide (k ∈ modes)).
  - by rewrite decide_True.
  - rewrite decide_False by (by intros [_ ?]). by rewrite app_nil_r.
Qed.

Lemma expand_nonempty mode : ∃ k, k ∈ expand mode.
Proof. unfold expand. case_decide; eexists; left. Qed.

Lemma granted_maplen m mode roles h h' :
  granted m (expand mode) roles h h' → maplen h' (Some m) ≠ 0.
Proof.
  intros (_ & _ & _ & _ & Hdom & _) Hz. apply maplen_0_mapobj in Hz.
  destruct (expand_nonempty mode) as [k Hk].
  assert (k ∈ dom (mapobj h' (Some m))) as Hin.
  { rewrite Hdom, elem_of_union, elem_of_list_to_set. by left. }
  rewrite Hz, dom_empty_L in Hin. by apply elem_of_empty in Hin.
Qed.

(** X16.  On a policy whose map is not nil, in a store that is well formed
    and without shared arrays, [Allow] and [Deny] return and leave a store
    that is again well formed and without shared arrays, with the same
    structs. *)
Theorem builders_keep_store F B l P mode roles h :
  is_builder F B → wf_store h → sep_store h →
  structs h !! l = Some P → is_Some (F P) →
  ∃ h', B (Some l) mode roles h = Done (Some l) h' ∧
    wf_store h' ∧ sep_store h' ∧ structs h' = structs h.
Proof.
  intros HB Hwf Hsep HP [m HF].
  destruct (builder_granted F B l P m mode roles h HB Hwf Hsep HP HF)
    as (h' & Hrun & Hwf' & Hsep' & Hst & _).
  by exists h'.
Qed.

(** X17.  In a store that is well formed and without shared arrays, a
    builder call on a policy whose map is not nil changes nothing but the
    entries of its map for the modes it is about: every other map is as
    before, the other entries of its map keep their role names, and a
    policy that uses the map for neither of its fields decides every
    request as before. *)
Theorem builders_frame F B l P mode roles h :
  is_builder F B → wf_store h → sep_store h →
  structs h !! l = Some P → is_Some (F P) →
  ∃ h', B (Some l) mode roles h = Done (Some l) h' ∧
    (∀ x, x ≠ F P → mapobj h' x = mapobj h x ∧ ∀ k, rolesFor h' x k = rolesFor h x k) ∧
    (∀ k, k ∉ expand mode → rolesFor h' (F P) k = rolesFor h (F P) k) ∧
    (∀ Q k actors, AllowedRoles Q ≠ F P → DeniedRoles Q ≠ F P →
       HasPermission h' Q k actors = HasPermission h Q k actors).
Proof.
  intros HB Hwf Hsep HP [m HF].
  destruct (builder_granted F B l P m mode roles h HB Hwf Hsep HP HF) as (h' & Hrun & Hg).
  exists h'. split; [done |]. rewrite HF. split; [|split].
  - intros x Hx. by apply (granted_other m (expand mode) roles).
  - intros k Hk. rewrite (granted_roles _ _ _ _ _ k Hg).
    rewrite decide_False by done. by rewrite app_nil_r.
  - intros Q k actors HA HD.
    destruct (granted_other _ _ _ _ _ _ Hg HA) as [HobjA HrA].
    destruct (granted_other _ _ _ _ _ _ Hg HD) as [_ HrD].
    apply HasPermission_same_rules; [done.. |]. unfold maplen. by rewrite HobjA.
Qed.

(** X18.  In a store that is well formed and without shared arrays, after
    [Deny(mode, roles)] on a policy whose [DeniedRoles] map is not nil the
    policy refuses, for the mode (for each of the four modes when the mode
    is [CRUD]), every actor holding one of the role names, and every actor
    at all when [Anyone] is among them, whatever is allowed. *)
Theorem Deny_then_refused l P mode roles h :
  wf_store h → sep_store h →
  structs h !! l = Some P → is_Some (DeniedRoles P) →
  ∃ h', Deny (Some l) mode roles h = Done (Some l) h' ∧
    structs h' !! l = Some P ∧
    ∀ k actors, k ∈ expand mode →
      (Anyone ∈ roles ∨
       ∃ roleNames role, resolveRoles actors [] = inr roleNames ∧
                         role ∈ roles ∧ role ∈ roleNames) →
      (HasPermission h' P k actors).2 = false.
Proof.
  intros Hwf Hsep HP [m HF].
  destruct (builder_granted DeniedRoles Deny l P m mode roles h) as (h' & Hrun & Hg);
    [by right | done.. |].
  exists h'. split; [done |]. split.
  { destruct Hg as (_ & _ & -> & _). done. }
  intros k actors Hk Hmatch.
  destruct (resolveRoles actors []) as [bad|roleNames] eqn:Hres.
  { unfold HasPermission. by rewrite Hres. }
  rewrite (HasPermission_resolved _ _ _ _ _ Hres).
  rewrite HF, (granted_roles _ _ _ _ _ k Hg), decide_True by done.
  assert (includeRoles (rolesFor h (Some m) k ++ roles) roleNames = true) as ->; [|done].
  apply includeRoles_true.
  destruct Hmatch as [Hany|(names & role & Hnames & Hin & Hm)].
  - exists Anyone. rewrite elem_of_app. auto.
  - assert (names = roleNames) as -> by congruence.
    exists role. rewrite elem_of_app. auto.
Qed.

(** X19.  In a store that is well formed and without shared arrays, after
    [Allow(mode, roles)] on a policy whose [AllowedRoles] map is not nil
    and whose two fields are not the same map, the policy admits, for the
    mode (for each of the four modes when the mode is [CRUD]), every actor
    holding one of the role names that the deny entry of the mode does not
    match, and every such actor at all when [Anyone] is among the role
    names. *)
Theorem Allow_then_admitted l P mode roles h :
  wf_store h → sep_store h →
  structs h !! l = Some P → is_Some (AllowedRoles P) →
  DeniedRoles P ≠ AllowedRoles P →
  ∃ h', Allow (Some l) mode roles h = Done (Some l) h' ∧
    structs h' !! l = Some P ∧
    ∀ k actors roleNames, k ∈ expand mode →
      resolveRoles actors [] = inr roleNames →
      (Anyone ∈ roles ∨ ∃ role, role ∈ roles ∧ role ∈ roleNames) →
      includeRoles (rolesFor h (DeniedRoles P) k) roleNames = false →
      HasPermission h' P k actors = ([], true).
Proof.
  intros Hwf Hsep HP [m HF] Hdist.
  destruct (builder_granted AllowedRoles Allow l P m mode roles h) as (h' & Hrun & Hg);
    [by left | done.. |].
  exists h'. split; [done |]. split.
  { destruct Hg as (_ & _ & -> & _). done. }
  intros k actors roleNames Hk Hres Hmatch Hdeny.
  rewrite (HasPermission_resolved _ _ _ _ _ Hres).
  rewrite HF in Hdist.
  destruct (granted_other _ _ _ _ _ _ Hg Hdist) as [_ HrD].
  rewrite HrD, Hdeny, HF.
  pose proof (granted_maplen _ _ _ _ _ Hg) as Hlen.
  apply Nat.eqb_neq in Hlen. rewrite Hlen.
  rewrite (granted_roles _ _ _ _ _ k Hg), decide_True by done.
  assert (includeRoles (rolesFor h (Some m) k ++ roles) roleNames = true) as ->; [|done].
  apply includeRoles_true.
  destruct Hmatch as [Hany|(role & Hin & Hm)].
  - exists Anyone. rewrite elem_of_app. auto.
  - exists role. rewrite elem_of_app. auto.
Qed.

(** X20.  In a store that is well formed and without shared arrays, after
    any [Allow] on a policy whose [AllowedRoles] map is not nil, whatever
    its mode and role names, the policy admits only what an allow entry
    matches: the entries of the modes of the call are the former ones
    followed by the role names, the other entries are the former ones, and
    a request that is admitted has a role name, or [Anyone], in the entry
    of its mode. *)
Theorem Allow_then_allow_list l P mode roles h :
  wf_store h → sep_store h →
  structs h !! l = Some P → is_Some (AllowedRoles P) →
  ∃ h', Allow (Some l) mode roles h = Done (Some l) h' ∧
    (∀ k, rolesFor h' (AllowedRoles P) k
          = rolesFor h (AllowedRoles P) k ++ (if decide (k ∈ expand mode) then roles else [])) ∧
    ∀ k actors, (HasPermission h' P k actors).2 = true →
      ∃ roleNames role, resolveRoles actors [] = inr roleNames ∧
        role ∈ rolesFor h' (AllowedRoles P) k ∧ (role = Anyone ∨ role ∈ roleNames).
Proof.
  intros Hwf Hsep HP [m HF].
  destruct (builder_granted AllowedRoles Allow l P m mode roles h) as (h' & Hrun & Hg);
    [by left | done.. |].
  exists h'. split; [done |]. rewrite HF. split.
  { intros k. by apply (granted_roles m (expand mode) roles). }
  intros k actors.
  destruct (resolveRoles actors []) as [bad|roleNames] eqn:Hres.
  { unfold HasPermission. by rewrite Hres. }
  rewrite (HasPermission_resolved _ _ _ _ _ Hres). simpl.
  destruct (includeRoles (rolesFor h' (DeniedRoles P) k) roleNames); [done |].
  pose proof (granted_maplen _ _ _ _ _ Hg) as Hlen.
  apply Nat.eqb_neq in Hlen. rewrite HF, Hlen.
  intros (role & Hin & Hm)%includeRoles_true. by exists roleNames, role.
Qed.


(** X22.  In a store that is well formed and without shared arrays, two
    calls of a builder for the same mode on a policy whose map is not nil
    add up: they leave the role names of every entry, and the decisions of
    every policy, as one call with the two lists of role names put
    together does. *)
Theorem builders_accumulate F B l P mode roles1 roles2 h :
  is_builder F B → wf_store h → sep_store h →
  structs h !! l = Some P → is_Some (F P) →
  ∃ h1 h2 h12,
    B (Some l) mode roles1 h = Done (Some l) h1 ∧
    B (Some l) mode roles2 h1 = Done (Some l) h2 ∧
    B (Some l) mode (roles1 ++ roles2) h = Done (Some l) h12 ∧
    (∀ x k, rolesFor h2 x k = rolesFor h12 x k) ∧
    (∀ Q k actors, HasPermission h2 Q k actors = HasPermission h12 Q k actors).
Proof.
  intros HB Hwf Hsep HP [m HF].
  destruct (builder_granted F B l P m mode roles1 h HB Hwf Hsep HP HF) as (h1 & Hrun1 & Hg1).
  pose proof Hg1 as (Hwf1 & Hsep1 & Hst1 & _).
  assert (structs h1 !! l = Some P) as HP1 by (by rewrite Hst1).
  destruct (builder_granted F B l P m mode roles2 h1 HB Hwf1 Hsep1 HP1 HF) as (h2 & Hrun2 & Hg2).
  destruct (builder_granted F B l P m mode (roles1 ++ roles2) h HB Hwf Hsep HP HF)
    as (h12 & Hrun12 & Hg12).
  exists h1, h2, h12. repeat (split; [done |]).
  assert (∀ x k, rolesFor h2 x k = rolesFor h12 x k) as Hroles.
  { intros x k. destruct (decide (x = Some m)) as [->|Hx].
    - rewrite (granted_roles _ _ _ _ _ k Hg2), (granted_roles _ _ _ _ _ k Hg1),
        (granted_roles _ _ _ _ _ k Hg12).
      destruct (decide (k ∈ expand mode)); by rewrite <- ?app_assoc.
    - destruct (granted_other _ _ _ _ _ _ Hg2 Hx) as [_ ->].
      destruct (granted_other _ _ _ _ _ _ Hg1 Hx) as [_ ->].
      by destruct (granted_other _ _ _ _ _ _ Hg12 Hx) as [_ ->]. }
  assert (∀ x, dom (mapobj h2 x) = dom (mapobj h12 x)) as Hdom.
  { intros x. destruct (decide (x = Some m)) as [->|Hx].
    - destruct Hg2 as (_ & _ & _ & _ & -> & _), Hg1 as (_ & _ & _ & _ & -> & _),
        Hg12 as (_ & _ & _ & _ & -> & _).
      apply set_eq. intros y. rewrite !elem_of_union. tauto.
    - destruct (granted_other _ _ _ _ _ _ Hg2 Hx) as [-> _].
      destruct (granted_other _ _ _ _ _ _ Hg1 Hx) as [-> _].
      by destruct (granted_other _ _ _ _ _ _ Hg12 Hx) as [-> _]. }
  split; [done |]. intros Q k actors.
  apply HasPermission_same_rules; [done.. |].
  unfold maplen. by rewrite <- !size_dom, Hdom.
Qed.

(** * [Concat] and the decision *)

(** The decision depends on the role names of the two entries as sets. *)
Lemma HasPermission_same_members h h' P P' mode roles :
  (∀ x, x ∈ rolesFor h' (DeniedRoles P') mode ↔ x ∈ rolesFor h (DeniedRoles P) mode) →
  (∀ x, x ∈ rolesFor h' (AllowedRoles P') mode ↔ x ∈ rolesFor h (AllowedRoles P) mode) →
  maplen h' (AllowedRoles P') = maplen h (AllowedRoles P) →
  HasPermission h' P' mode roles = HasPermission h P mode roles.
Proof.
  intros HD HA Hlen. unfold HasPermission.
  destruct (resolveRoles roles []) as [bad|names]; [done |].
  rewrite !guarded_match, !entry_match, Hlen.
  rewrite (includeRoles_ext _ _ names names HD (λ _, reflexivity _)).
  by rewrite (includeRoles_ext _ _ names names HA (λ _, reflexivity _)).
Qed.

Lemma maplen_dom h h' m m' :
  dom (mapobj h' m') = dom (mapobj h m) → maplen h' m' = maplen h m.
Proof. intros Hdom. unfold maplen. by rewrite <- !size_dom, Hdom. Qed.

(** ** The store stays well formed and without shared arrays *)

Lemma appendEntry_good F r mode roles h h' :
  is_field F → wf_store h → sep_store h →
  appendEntry F r mode roles h = Done tt h' →
  wf_store h' ∧ sep_store h' ∧ structs h' = structs h.
Proof.
  intros HF Hwf Hsep. unfold appendEntry, bind, deref, mapread, spread.
  destruct (structs h !! r) as [R|] eqn:HR; [|done]. cbn beta iota.
  destruct (append_spec (mapaccess h (F R) mode) (elems h roles) h)
    as (s' & h1 & -> & Hpost).
  pose proof Hpost as (Hst & _). cbn beta iota. rewrite Hst, HR. cbn beta iota.
  destruct (F R) as [m|] eqn:Hm; [|done].
  unfold mapassign. intros [= <-].
  assert (is_Some (maps h !! m)) as Hal.
  { destruct Hwf as [Hrefs _]. destruct (Hrefs r R HR) as [HA HD].
    destruct HF as [->| ->]; [rewrite Hm in HA | rewrite Hm in HD]; done. }
  destruct (entry_update_good h h1 m mode _ s' Hwf Hsep Hal Hpost) as (? & ? & ? & _).
  done.
Qed.

Lemma forEach_good F r kvs : ∀ h h',
  is_field F → wf_store h → sep_store h →
  forEach (appendEntry F r) kvs h = Done tt h' →
  wf_store h' ∧ sep_store h' ∧ structs h' = structs h.
Proof.
  induction kvs as [|[k v] kvs IH]; intros h h' HF Hwf Hsep; simpl.
  - by intros [= <-].
  - unfold bind. destruct (appendEntry F r k v h) as [[] h1|] eqn:Hstep; [|done].
    destruct (appendEntry_good F r k v h h1 HF Hwf Hsep Hstep) as (Hwf1 & Hsep1 & Hst1).
    intros Hrest. destruct (IH h1 h' HF Hwf1 Hsep1 Hrest) as (? & ? & ?).
    split; [done |]. split; [done | congruence].
Qed.

Lemma setRole_good r role h h' :
  wf_store h → sep_store h → setRole r role h = Done tt h' →
  wf_store h' ∧ sep_store h'.
Proof.
  intros [Hrefs Hsl] Hsep. unfold setRole, bind, deref.
  destruct (structs h !! r) as [R|] eqn:HR; [|done]. intros [= <-].
  split; [|done]. split; [|done].
  intros l P. simpl. destruct (decide (r = l)) as [->|Hne].
  - rewrite lookup_insert_eq. intros [= <-]. simpl. by apply (Hrefs l R).
  - rewrite lookup_insert_ne by done. by apply Hrefs.
Qed.

Lemma deref_Done p h P h0 : deref p h = Done P h0 → h0 = h.
Proof.
  unfold deref. destruct p as [l|]; [|done].
  destruct (structs h !! l); [|done]. by intros [= _ <-].
Qed.

Lemma appendRoles_good r p h h' :
  wf_store h → sep_store h → appendRoles r p h = Done tt h' →
  wf_store h' ∧ sep_store h'.
Proof.
  intros Hwf Hsep. destruct p as [l|]; [|by intros [= <-]].
  unfold appendRoles, bind at 1. destruct (deref (Some l) h) as [P h0|] eqn:HP; [|done].
  apply deref_Done in HP as ->.
  unfold bind at 1. destruct (setRole r (Role P) h) as [[] h1|] eqn:H1; [|done].
  destruct (setRole_good _ _ _ _ Hwf Hsep H1) as [Hwf1 Hsep1].
  unfold bind at 1. destruct (deref (Some l) h1) as [P1 h1'|] eqn:HP1; [|done].
  apply deref_Done in HP1 as ->.
  unfold bind at 1, rangeMap at 1.
  destruct (forEach (appendEntry DeniedRoles r) (rangeOrder (mapobj h1 (DeniedRoles P1))) h1)
    as [[] h2|] eqn:H2; [|done].
  destruct (forEach_good _ _ _ _ _ (or_intror eq_refl) Hwf1 Hsep1 H2) as (Hwf2 & Hsep2 & _).
  unfold bind at 1. destruct (deref (Some l) h2) as [P2 h2'|] eqn:HP2; [|done].
  apply deref_Done in HP2 as ->.
  unfold rangeMap. intros H3.
  destruct (forEach_good _ _ _ _ _ (or_introl eq_refl) Hwf2 Hsep2 H3) as (? & ? & _).
  done.
Qed.

Lemma Concat_good permission newPermission' h r h' :
  wf_store h → sep_store h →
  Concat permission newPermission' h = Done r h' →
  wf_store h' ∧ sep_store h'.
Proof.
  intros Hwf Hsep.
  set (mA := fresh (dom (maps h))).
  set (mD := fresh (dom (<[mA := ∅]> (maps h)))).
  set (x := fresh (dom (structs h))).
  set (h1 := mkHeap (<[x := mkPermission Global (Some mA) (Some mD)]> (structs h))
                    (<[mD := ∅]> (<[mA := ∅]> (maps h))) (arrays h)).
  change (Concat permission newPermission' h)
    with ((run! appendRoles x newPermission' in
           run! appendRoles x permission in
           ret (Some x)) h1).
  assert (maps h !! mA = None) as HmA by (apply not_elem_of_dom, is_fresh).
  assert (<[mA := ∅]> (maps h) !! mD = None) as HmD' by (apply not_elem_of_dom, is_fresh).
  assert (mA ≠ mD) as HAD.
  { intros Heq. rewrite <- Heq, lookup_insert_eq in HmD'. done. }
  assert (maps h !! mD = None) as HmD by (by rewrite lookup_insert_ne in HmD').
  assert (structs h !! x = None) as Hx by (apply not_elem_of_dom, is_fresh).
  assert (∀ m k s, mapobj h1 (Some m) !! k = Some s → mapobj h (Some m) !! k = Some s) as Hold.
  { intros m k s. simpl. destruct (decide (mD = m)) as [->|HneD].
    { rewrite lookup_insert_eq. simpl. by rewrite lookup_empty. }
    rewrite lookup_insert_ne by done. destruct (decide (mA = m)) as [->|HneA].
    { rewrite lookup_insert_eq. simpl. by rewrite lookup_empty. }
    by rewrite lookup_insert_ne. }
  assert (wf_store h1) as Hwf1.
  { pose proof Hwf as [Hrefs _]. split.
    - assert (∀ y, wf_ref h y → wf_ref h1 y) as Href.
      { intros [y|] Hy; [|done]. simpl in *. destruct Hy as [M HM].
        rewrite !lookup_insert_ne by congruence. by eexists. }
      intros l P. simpl. destruct (decide (x = l)) as [->|Hne].
      + rewrite lookup_insert_eq. intros [= <-]. simpl. split.
        * rewrite lookup_insert_ne, lookup_insert_eq by done. by eexists.
        * rewrite lookup_insert_eq. by eexists.
      + rewrite lookup_insert_ne by done. intros HP. destruct (Hrefs l P HP).
        split; by apply Href.
    - apply wf_store_slices. intros m k s Hs%Hold.
      by apply (wf_store_entry h m k s). }
  assert (sep_store h1) as Hsep1.
  { apply sep_store_spec. intros m1 k1 n1 m2 k2 n2 a H1%Hold H2%Hold.
    by apply (proj1 (sep_store_spec h) Hsep m1 k1 n1 m2 k2 n2 a). }
  unfold bind at 1. destruct (appendRoles x newPermission' h1) as [[] h2|] eqn:H2; [|done].
  destruct (appendRoles_good _ _ _ _ Hwf1 Hsep1 H2) as [Hwf2 Hsep2].
  unfold bind at 1. destruct (appendRoles x permission h2) as [[] h3|] eqn:H3; [|done].
  destruct (appendRoles_good _ _ _ _ Hwf2 Hsep2 H3) as [Hwf3 Hsep3].
  by intros [= _ <-].
Qed.

Lemma valid_ptr_extends h h' p : extends h h' → valid_ptr h p → valid_ptr h' p.
Proof.
  intros (Hst & _) Hp. destruct p as [l|]; [|done]. destruct Hp as [P HP].
  exists P. by eapply lookup_weaken.
Qed.

Lemma gset_size_0 (X : gset string) : size X = 0 ↔ X = ∅.
Proof. rewrite size_empty_iff. apply leibniz_equiv_iff. Qed.

(** X23.  The decisions of a merged policy, from the rules of its
    operands: a request is refused when the deny entry of either operand
    matches; else it is admitted when neither operand has a key in its
    [AllowedRoles] map; else it is admitted exactly when the allow entry
    of either operand matches. *)
Theorem Concat_decision h permission newPermission' :
  wf_store h → valid_ptr h permission → valid_ptr h newPermission' →
  ∃ r R h',
    Concat permission newPermission' h = Done (Some r) h' ∧
    structs h' !! r = Some R ∧
    ∀ k actors roleNames,
      resolveRoles actors [] = inr roleNames →
      HasPermission h' R k actors =
      ([], if includeRoles (operandRoles h DeniedRoles newPermission' k) roleNames
              || includeRoles (operandRoles h DeniedRoles permission k) roleNames
           then false
           else if bool_decide (operandKeys h AllowedRoles newPermission' = ∅ ∧
                                operandKeys h AllowedRoles permission = ∅)
           then true
           else includeRoles (operandRoles h AllowedRoles newPermission' k) roleNames
                || includeRoles (operandRoles h AllowedRoles permission k) roleNames).
Proof.
  intros Hwf Hself Hother.
  destruct (Concat_result h permission newPermission' Hwf Hself Hother)
    as (r & R & h' & Hrun & _ & HR & _ & _ & _ & Hpost).
  exists r, R, h'. split; [done |]. split; [done |].
  intros k actors roleNames Hres.
  destruct (Hpost DeniedRoles) as [_ HD]; [by right |].
  destruct (Hpost AllowedRoles) as [HdomA HA]; [by left |].
  rewrite (HasPermission_resolved _ _ _ _ _ Hres), HD, HA, !includeRoles_app.
  do 2 f_equal.
  assert ((maplen h' (AllowedRoles R) =? 0)
          = bool_decide (operandKeys h AllowedRoles newPermission' = ∅ ∧
                         operandKeys h AllowedRoles permission = ∅)) as ->; [|done].
  apply eq_true_iff_eq. rewrite Nat.eqb_eq, bool_decide_eq_true.
  unfold maplen. rewrite <- size_dom, HdomA, gset_size_0. apply empty_union_L.
Qed.

(** X24.  The two orders of merging decide alike: from the same store,
    [Concat] of two policies in either order gives policies that answer
    every request the same. *)
Theorem Concat_decisions_commute h p q :
  wf_store h → valid_ptr h p → valid_ptr h q →
  ∃ r1 R1 h1 r2 R2 h2,
    Concat p q h = Done (Some r1) h1 ∧ structs h1 !! r1 = Some R1 ∧
    Concat q p h = Done (Some r2) h2 ∧ structs h2 !! r2 = Some R2 ∧
    ∀ k actors, HasPermission h1 R1 k actors = HasPermission h2 R2 k actors.
Proof.
  intros Hwf Hp Hq.
  destruct (Concat_result h p q Hwf Hp Hq)
    as (r1 & R1 & h1 & Hrun1 & _ & HR1 & _ & _ & _ & Hpost1).
  destruct (Concat_result h q p Hwf Hq Hp)
    as (r2 & R2 & h2 & Hrun2 & _ & HR2 & _ & _ & _ & Hpost2).
  exists r1, R1, h1, r2, R2, h2. repeat (split; [done |]).
  intros k actors.
  destruct (Hpost1 DeniedRoles) as [_ HD1]; [by right |].
  destruct (Hpost1 AllowedRoles) as [HdomA1 HA1]; [by left |].
  destruct (Hpost2 DeniedRoles) as [_ HD2]; [by right |].
  destruct (Hpost2 AllowedRoles) as [HdomA2 HA2]; [by left |].
  apply HasPermission_same_members.
  - intros x. rewrite HD1, HD2, !elem_of_app. tauto.
  - intros x. rewrite HA1, HA2, !elem_of_app. tauto.
  - apply maplen_dom. rewrite HdomA1, HdomA2. apply (comm_L (∪)).
Qed.

(** X25.  Merging a policy with itself gives a policy that decides as it
    does. *)
Theorem Concat_self h l P :
  wf_store h → structs h !! l = Some P →
  ∃ r R h',
    Concat (Some l) (Some l) h = Done (Some r) h' ∧ structs h' !! r = Some R ∧
    Role R = Role P ∧
    ∀ k actors, HasPermission h' R k actors = HasPermission h P k actors.
Proof.
  intros Hwf HP.
  assert (valid_ptr h (Some l)) as Hl by (by exists P).
  destruct (Concat_result h (Some l) (Some l) Hwf Hl Hl)
    as (r & R & h' & Hrun & _ & HR & Hrole & _ & _ & Hpost).
  assert (operand h (Some l) = Some P) as Hop by done.
  exists r, R, h'. repeat (split; [done |]). split.
  { rewrite Hrole. unfold concatRole. by rewrite Hop. }
  intros k actors.
  destruct (Hpost DeniedRoles) as [_ HD]; [by right |].
  destruct (Hpost AllowedRoles) as [HdomA HA]; [by left |].
  unfold operandRoles, operandKeys in *. rewrite Hop in *.
  apply HasPermission_same_members.
  - intros x. rewrite HD, elem_of_app. tauto.
  - intros x. rewrite HA, elem_of_app. tauto.
  - apply maplen_dom. rewrite HdomA. apply (idemp_L (∪)).
Qed.

(** X26.  [Concat] keeps a store well formed and without shared arrays:
    its result and both operands are policies of the new store, on which
    the builders and [Concat] can go on. *)
Theorem Concat_keeps_store h permission newPermission' :
  wf_store h → sep_store h → valid_ptr h permission → valid_ptr h newPermission' →
  ∃ r h',
    Concat permission newPermission' h = Done (Some r) h' ∧
    wf_store h' ∧ sep_store h' ∧
    valid_ptr h' (Some r) ∧ valid_ptr h' permission ∧ valid_ptr h' newPermission'.
Proof.
  intros Hwf Hsep Hself Hother.
  destruct (Concat_result h permission newPermission' Hwf Hself Hother)
    as (r & R & h' & Hrun & _ & HR & _ & _ & Hext & _).
  destruct (Concat_good _ _ _ _ _ Hwf Hsep Hrun) as [Hwf' Hsep'].
  exists r, h'. repeat (split; [done |]).
  split; [by exists R |]. split; by apply (valid_ptr_extends h).
Qed.

(** X27.  A merged policy shares nothing with the policies it was made
    from: a builder call on the result leaves every policy of the former
    store deciding as before the merge, and a builder call on a policy of
    the former store leaves the result deciding as before the call. *)
Theorem Concat_result_independent F B h permission newPermission' mode roles :
  is_builder F B →
  wf_store h → sep_store h → valid_ptr h permission → valid_ptr h newPermission' →
  ∃ r R h',
    Concat permission newPermission' h = Done (Some r) h' ∧ structs h' !! r = Some R ∧
    (∃ h'', B (Some r) mode roles h' = Done (Some r) h'' ∧
       ∀ l Q k actors, structs h !! l = Some Q →
         HasPermission h'' Q k actors = HasPermission h Q k actors) ∧
    (∀ l Q, structs h !! l = Some Q → is_Some (F Q) →
       ∃ h'', B (Some l) mode roles h' = Done (Some l) h'' ∧
         ∀ k actors, HasPermission h'' R k actors = HasPermission h' R k actors).
Proof.
  intros HB Hwf Hsep Hself Hother.
  destruct (Concat_result h permission newPermission' Hwf Hself Hother)
    as (r & R & h' & Hrun & Hr & HR & _ & (mA & mD & HA & HD & HmA & HmD & HAD) & Hext & _).
  destruct (Concat_good _ _ _ _ _ Hwf Hsep Hrun) as [Hwf' Hsep'].
  exists r, R, h'. split; [done |]. split; [done |].
  assert (∀ l Q x, structs h !! l = Some Q → is_field x → wf_ref h (x Q)) as Hrefs.
  { intros l Q x HQ Hx. destruct Hwf as [Hrefs _]. destruct (Hrefs l Q HQ).
    by destruct Hx as [->| ->]. }
  assert (∀ x, is_field x → ∃ m, x R = Some m ∧ maps h !! m = None) as Hfresh.
  { intros x [->| ->]; [by exists mA | by exists mD]. }
  assert (is_field F) as HF by (destruct HB as [[-> _]|[-> _]]; [by left | by right]).
  split.
  - destruct (Hfresh F HF) as (m & Hm & Hnone).
    destruct (builder_granted F B r R m mode roles h' HB Hwf' Hsep' HR Hm) as (h'' & Hrun' & Hg).
    exists h''. split; [done |]. intros l Q k actors HQ.
    assert (∀ x, is_field x → x Q ≠ Some m) as Hne.
    { intros x Hx Heq. pose proof (Hrefs l Q x HQ Hx) as Href. rewrite Heq in Href.
      simpl in Href. rewrite Hnone in Href. by destruct Href. }
    destruct (granted_other _ _ _ _ _ _ Hg (Hne AllowedRoles (or_introl eq_refl)))
      as [HobjA HrA].
    destruct (granted_other _ _ _ _ _ _ Hg (Hne DeniedRoles (or_intror eq_refl)))
      as [_ HrD].
    destruct (extends_operand h h' (Some l) Hwf Hext) as [_ Hsame]; [by exists Q |].
    destruct (Hsame AllowedRoles) as [HkA HoA]; [by left |].
    destruct (Hsame DeniedRoles) as [_ HoD]; [by right |].
    assert (operand h (Some l) = Some Q) as Hop by done.
    assert (operand h' (Some l) = Some Q) as Hop'.
    { destruct Hext as (Hst & _). by eapply lookup_weaken. }
    unfold operandKeys, operandRoles in *. rewrite Hop, Hop' in *.
    apply HasPermission_same_rules.
    + by rewrite HrD.
    + by rewrite HrA.
    + apply maplen_dom. by rewrite HobjA.
  - intros l Q HQ [m Hm].
    assert (structs h' !! l = Some Q) as HQ'.
    { destruct Hext as (Hst & _). by eapply lookup_weaken. }
    destruct (builder_granted F B l Q m mode roles h' HB Hwf' Hsep' HQ' Hm) as (h'' & Hrun' & Hg).
    exists h''. split; [done |]. intros k actors.
    assert (∀ x, is_field x → x R ≠ Some m) as Hne.
    { intros x Hx Heq. destruct (Hfresh x Hx) as (m' & Hm' & Hnone).
      assert (m' = m) as -> by congruence.
      pose proof (Hrefs l Q F HQ HF) as Href. rewrite Hm in Href. simpl in Href.
      rewrite Hnone in Href. by destruct Href. }
    destruct (granted_other _ _ _ _ _ _ Hg (Hne AllowedRoles (or_introl eq_refl)))
      as [HobjA HrA].
    destruct (granted_other _ _ _ _ _ _ Hg (Hne DeniedRoles (or_intror eq_refl)))
      as [_ HrD].
    apply HasPermission_same_rules; [done.. |]. apply maplen_dom. by rewrite HobjA.
Qed.

(** X28.  Merging is associative on the rules: merging the merge of two
    policies with a third, or the first with the merge of the other two,
    gives the same role names, in the same order, for every mode and
    field, the same keys, and the same answer to every request. *)
Theorem Concat_assoc h p q s :
  wf_store h → sep_store h → valid_ptr h p → valid_ptr h q → valid_ptr h s →
  ∃ x h1 y Y h2 z h3 w W h4,
    Concat p q h = Done (Some x) h1 ∧
    Concat (Some x) s h1 = Done (Some y) h2 ∧ structs h2 !! y = Some Y ∧
    Concat q s h = Done (Some z) h3 ∧
    Concat p (Some z) h3 = Done (Some w) h4 ∧ structs h4 !! w = Some W ∧
    (∀ F, is_field F →
       dom (mapobj h2 (F Y)) = dom (mapobj h4 (F W)) ∧
       ∀ k, rolesFor h2 (F Y) k = rolesFor h4 (F W) k) ∧
    ∀ k actors, HasPermission h2 Y k actors = HasPermission h4 W k actors.
Proof.
  intros Hwf Hsep Hp Hq Hs.
  (* the first way *)
  destruct (Concat_result h p q Hwf Hp Hq)
    as (x & X & h1 & Hrun1 & _ & HX & _ & _ & Hext1 & Hpost1).
  destruct (Concat_good _ _ _ _ _ Hwf Hsep Hrun1) as [Hwf1 Hsep1].
  assert (valid_ptr h1 (Some x)) as Hx by (by exists X).
  pose proof (valid_ptr_extends h h1 s Hext1 Hs) as Hs1.
  destruct (Concat_result h1 (Some x) s Hwf1 Hx Hs1)
    as (y & Y & h2 & Hrun2 & _ & HY & _ & _ & _ & Hpost2).
  (* the second way *)
  destruct (Concat_result h q s Hwf Hq Hs)
    as (z & Z & h3 & Hrun3 & _ & HZ & _ & _ & Hext3 & Hpost3).
  destruct (Concat_good _ _ _ _ _ Hwf Hsep Hrun3) as [Hwf3 Hsep3].
  assert (valid_ptr h3 (Some z)) as Hz by (by exists Z).
  pose proof (valid_ptr_extends h h3 p Hext3 Hp) as Hp3.
  destruct (Concat_result h3 p (Some z) Hwf3 Hp3 Hz)
    as (w & W & h4 & Hrun4 & _ & HW & _ & _ & _ & Hpost4).
  exists x, h1, y, Y, h2, z, h3, w, W, h4. repeat (split; [done |]).
  assert (operand h1 (Some x) = Some X) as HopX by done.
  assert (operand h3 (Some z) = Some Z) as HopZ by done.
  destruct (extends_operand h h1 s Hwf Hext1 Hs) as [_ Hs_same].
  destruct (extends_operand h h3 p Hwf Hext3 Hp) as [_ Hp_same].
  assert (∀ F, is_field F →
            dom (mapobj h2 (F Y)) = dom (mapobj h4 (F W)) ∧
            ∀ k, rolesFor h2 (F Y) k = rolesFor h4 (F W) k) as Hsame.
  { intros F HF.
    destruct (Hpost1 F HF) as [Hd1 Hr1]. destruct (Hpost2 F HF) as [Hd2 Hr2].
    destruct (Hpost3 F HF) as [Hd3 Hr3]. destruct (Hpost4 F HF) as [Hd4 Hr4].
    destruct (Hs_same F HF) as [Hsk Hsr]. destruct (Hp_same F HF) as [Hpk Hpr].
    split.
    - rewrite Hd2, Hd4, Hsk, Hpk. unfold operandKeys at 2 3. rewrite HopX, HopZ.
      rewrite Hd1, Hd3. apply (assoc_L (∪)).
    - intros k. rewrite Hr2, Hr4, Hsr, Hpr. unfold operandRoles at 2 3.
      rewrite HopX, HopZ. rewrite Hr1, Hr3. apply app_assoc. }
  split; [done |]. intros k actors.
  destruct (Hsame DeniedRoles) as [_ HD]; [by right |].
  destruct (Hsame AllowedRoles) as [HdomA HA]; [by left |].
  apply HasPermission_same_rules; [done.. |]. by apply maplen_dom.
Qed.

End Evaluator.

Arguments Done {RoleRef A} a h.
Arguments Panic {RoleRef A} f.
Arguments mkPermission {RoleRef} Role AllowedRoles DeniedRoles.
Arguments Role {RoleRef} p.
Arguments AllowedRoles {RoleRef} p.
Arguments DeniedRoles {RoleRef} p.
Arguments structs {RoleRef} h.
Arguments maps {RoleRef} h.
Arguments arrays {RoleRef} h.
Arguments mapobj {RoleRef} h m.
Arguments maplen {RoleRef} h m.
Arguments mapaccess {RoleRef} h m k.
Arguments rolesFor {RoleRef} h m mode.
Arguments HasPermission {RoleRef} Anyone h permission mode roles.
Arguments Resource_HasPermission {RoleRef} Anyone res mode context _.
Arguments Concat {RoleRef} Global growslice rangeOrder permission newPermission' _.
Arguments Allow {RoleRef} growslice permission mode roles h.
Arguments Deny {RoleRef} growslice permission mode roles h.
Arguments run_calls {RoleRef} growslice permission calls _.
Arguments wf_store {RoleRef} h.
Arguments valid_ptr {RoleRef} h p.
Arguments extends {RoleRef} h h'.
Arguments viewer_store {RoleRef} Global.
Arguments viewer_policy {RoleRef} Global.
Arguments two_policies {RoleRef} Global.
Arguments blank_store {RoleRef} Global.
Arguments HasPermission_call {RoleRef} Anyone h permission mode roles.
Arguments sep_store {RoleRef} h.
Arguments wildcard_store {RoleRef} Global Anyone.
Arguments mkValidator {HandlerFn} Validator_Name Validator_Handler.
Arguments AddValidator {HandlerFn} validators validator.
Arguments AddProcessor {HandlerFn} processors processor.

(** * The operations on concrete stores

    Scopes are taken from a one-point type, the wildcard name is ["*"] and
    the runtime doubles capacities. *)

(** A policy with [Deny(Delete, "intern")] and no [Allow]: the intern may
    not delete, a manager may. *)
Example deny_only_policy :
  ∃ h, Deny doubling (Some 1%positive) Delete ["intern"] (blank_store tt)
       = Done (Some 1%positive) h ∧
    ∃ P, structs h !! 1%positive = Some P ∧
      HasPermission "*" h P Delete [AString "intern"] = ([], false) ∧
      HasPermission "*" h P Delete [AString "manager"] = ([], true).
Proof.
  eexists. split; [vm_compute; reflexivity |].
  eexists. split; [vm_compute; reflexivity |].
  split; vm_compute; reflexivity.
Qed.

(** A policy with [Allow(Read, "viewer")] only. *)
Example allow_list_policy :
  ∃ h, Allow doubling (Some 1%positive) Read ["viewer"] (blank_store tt)
       = Done (Some 1%positive) h ∧
    ∃ P, structs h !! 1%positive = Some P ∧
      HasPermission "*" h P Read [AString "viewer"] = ([], true) ∧
      HasPermission "*" h P Read [AString "editor"] = ([], false) ∧
      HasPermission "*" h P Update [AString "editor"] = ([], false) ∧
      HasPermission "*" h P Read [ARoler ["editor"; "viewer"]] = ([], true).
Proof.
  eexists. split; [vm_compute; reflexivity |].
  eexists. split; [vm_compute; reflexivity |].
  repeat split; vm_compute; reflexivity.
Qed.

(** The two policies merged: delete stays denied for the intern, read is
    allowed for the viewer, update is allowed for nobody. *)
Example merged_policy :
  ∃ r h, Concat tt doubling map_to_list (Some 2%positive) (Some 1%positive) (two_policies tt)
         = Done (Some r) h ∧
    ∃ R, structs h !! r = Some R ∧
      HasPermission "*" h R Delete [AString "intern"] = ([], false) ∧
      HasPermission "*" h R Read [AString "viewer"] = ([], true) ∧
      HasPermission "*" h R Update [AString "viewer"] = ([], false) ∧
      HasPermission "*" h R Create [AString "manager"] = ([], false).
Proof.
  eexists _, _. split; [vm_compute; reflexivity |].
  eexists. split; [vm_compute; reflexivity |].
  repeat split; vm_compute; reflexivity.
Qed.

(** An entry made by [Allow] without role names is an empty slice; in the
    result of [Concat] it is a nil slice under the same key. *)
Example empty_entry_merged :
  ∃ h1, Allow doubling (Some 1%positive) Read [] (blank_store tt)
        = Done (Some 1%positive) h1 ∧
    mapaccess h1 (Some 1%positive) Read = SArr 1%positive 0 ∧
    ∃ r h2 R, Concat tt doubling map_to_list (Some 1%positive) None h1 = Done (Some r) h2 ∧
      structs h2 !! r = Some R ∧
      mapobj h2 (AllowedRoles R) !! Read = Some SNil.
Proof.
  eexists. split; [vm_compute; reflexivity |].
  split; [vm_compute; reflexivity |].
  eexists _, _, _. split; [vm_compute; reflexivity |].
  split; vm_compute; reflexivity.
Qed.

(** ** Instances of the theorems *)

Lemma visits_in_map_order (M : gmap string slice) : map_to_list M ≡ₚ map_to_list M.
Proof. reflexivity. Defined.

(** C1: an actor holding [Anyone] is refused by a policy that allows read
    to viewers only. *)
Lemma actor_wildcard_counterexample : ¬ actor_wildcard_suffices unit "*".
Proof.
  intros Hclaim.
  specialize (Hclaim (viewer_store tt) (viewer_policy tt) Read
                [AString "*"] ["*"]).
  assert ((HasPermission "*" (viewer_store tt) (viewer_policy tt)
             Read [AString "*"]).2 = true) as Hdec.
  { apply Hclaim.
    - right. by left.
    - reflexivity.
    - compute_done.
    - vm_compute. reflexivity. }
  vm_compute in Hdec. discriminate Hdec.
Qed.

Lemma HasPermission_actor_wildcard_witness :
  resolveRoles [AString "*"; AString "viewer"] [] = inr ["*"; "viewer"] ∧
  "*" ∈ ["*"; "viewer"] ∧
  includeRoles "*"
    (rolesFor (viewer_store tt) (DeniedRoles (viewer_policy tt)) Read)
    ["*"; "viewer"] = false ∧
  ((HasPermission "*" (viewer_store tt) (viewer_policy tt) Read
      [AString "*"; AString "viewer"]).2 = true ↔
   maplen (viewer_store tt) (AllowedRoles (viewer_policy tt)) = 0 ∨
   ∃ role,
     role ∈ rolesFor (viewer_store tt)
              (AllowedRoles (viewer_policy tt)) Read ∧
     role ∈ ["*"; "viewer"]).
Proof.
  split; [reflexivity |]. split; [compute_done |]. split; [vm_compute; reflexivity |].
  apply (HasPermission_actor_wildcard unit "*" (viewer_store tt)
           (viewer_policy tt) Read [AString "*"; AString "viewer"] ["*"; "viewer"]).
  - reflexivity.
  - compute_done.
  - vm_compute. reflexivity.
Defined.

Lemma HasPermission_allow_rules_witness :
  resolveRoles [AString "editor"] [] = inr ["editor"] ∧
  includeRoles "*"
    (rolesFor (viewer_store tt) (DeniedRoles (viewer_policy tt)) Update)
    ["editor"] = false ∧
  (HasPermission "*" (viewer_store tt) (viewer_policy tt) Update
     [AString "editor"]).2 = false.
Proof.
  split; [reflexivity |]. split; [vm_compute; reflexivity |].
  apply (HasPermission_allow_rules unit "*" (viewer_store tt)
           (viewer_policy tt) Update [AString "editor"] ["editor"]).
  - reflexivity.
  - vm_compute. reflexivity.
  - vm_compute. discriminate.
  - vm_compute. reflexivity.
Defined.

Lemma HasPermission_deny_overrides_witness :
  mapobj (two_policies tt) (Some 4%positive) !! Delete = Some (SArr 2%positive 1) ∧
  (HasPermission "*" (two_policies tt)
     (mkPermission tt (Some 3%positive) (Some 4%positive))
     Delete [AString "intern"]).2 = false.
Proof.
  split; [vm_compute; reflexivity |].
  apply (HasPermission_deny_overrides unit "*" (two_policies tt)
           (mkPermission tt (Some 3%positive) (Some 4%positive))
           Delete [AString "intern"] (SArr 2%positive 1)).
  - vm_compute. reflexivity.
  - right. exists ["intern"], "intern". split; [reflexivity |].
    split; [vm_compute; left | left].
Defined.

(** C8: a nil pointer whose [GetRoles()] dereferences it, before a value
    that is neither a string nor a [Roler]: the call panics. *)
Lemma invalid_value_panic_counterexample : ¬ invalid_value_fails_closed unit "*".
Proof.
  intros Hclaim.
  destruct (Hclaim (viewer_store tt) (viewer_policy tt) Read
              [IRoler (inl NilDereference); IOther "42"] "42") as [events Hrun].
  - right. left.
  - vm_compute in Hrun. discriminate Hrun.
Qed.

Lemma HasPermission_invalid_value_witness :
  IOther "42" ∈ [IRoler (inr ["viewer"]); IOther "42"; IRoler (inl NilDereference)] ∧
  HasPermission_call "*" (viewer_store tt) (viewer_policy tt) Read
    [IRoler (inr ["viewer"]); IOther "42"; IRoler (inl NilDereference)]
  = inr ([InvalidRole (AOther "42")], false).
Proof.
  assert (IOther "42" ∈ [IRoler (inr ["viewer"]); IOther "42"; IRoler (inl NilDereference)])
    as Hin by (right; left).
  split; [exact Hin |].
  destruct (HasPermission_invalid_value unit "*" (viewer_store tt) (viewer_policy tt) Read
              _ "42" Hin) as (pre & v & post & Hsplit & Hacc & Hret & _).
  destruct pre as [|x [|y pre]].
  - discriminate Hsplit.
  - injection Hsplit as <- <- <-. apply Hret. repeat constructor.
  - injection Hsplit as <- Hy _. subst y. apply Forall_cons in Hacc as [_ Hacc].
    apply Forall_cons in Hacc as [Hno _]. destruct Hno.
Defined.

Lemma Resource_HasPermission_spec_witness :
  Resource_HasPermission "*" None Read None (viewer_store tt)
    = Done ([], true) (viewer_store tt) ∧
  Resource_HasPermission "*" (Some (mkResource "Post" (Some 1%positive))) Read
    (Some (mkContext [AString "viewer"])) (viewer_store tt)
    = Done
        (HasPermission "*" (viewer_store tt) (viewer_policy tt) Read
           [AString "viewer"])
        (viewer_store tt).
Proof.
  destruct (Resource_HasPermission_spec unit "*" (viewer_store tt) Read) as [Hnil Hrun].
  split.
  - apply Hnil. by left.
  - apply (Hrun (mkResource "Post" (Some 1%positive)) 1%positive).
    + reflexivity.
    + vm_compute. reflexivity.
Defined.

Lemma Concat_entries_and_scope_witness :
  wf_store (two_policies tt) ∧
  valid_ptr (two_policies tt) (Some 2%positive) ∧
  valid_ptr (two_policies tt) (Some 1%positive) ∧
  ∃ r R h',
    Concat tt doubling map_to_list (Some 2%positive) (Some 1%positive) (two_policies tt)
      = Done (Some r) h' ∧
    structs h' !! r = Some R ∧
    rolesFor h' (DeniedRoles R) Delete = ["intern"] ∧
    rolesFor h' (AllowedRoles R) Read = ["viewer"].
Proof.
  split; [compute_done |]. split; [compute_done |]. split; [compute_done |].
  destruct (Concat_entries_and_scope unit tt doubling map_to_list visits_in_map_order (two_policies tt)
              (Some 2%positive) (Some 1%positive))
    as (r & R & h' & Hrun & HR & HD & HA & _); [compute_done.. |].
  exists r, R, h'. split; [exact Hrun |]. split; [exact HR |].
  split; [rewrite HD | rewrite HA]; vm_compute; reflexivity.
Defined.

Lemma Concat_membership_commutes_witness :
  wf_store (two_policies tt) ∧
  valid_ptr (two_policies tt) (Some 2%positive) ∧
  valid_ptr (two_policies tt) (Some 1%positive) ∧
  ∃ r1 R1 h1 r2 R2 h2,
    Concat tt doubling map_to_list (Some 2%positive) (Some 1%positive) (two_policies tt)
      = Done (Some r1) h1 ∧ structs h1 !! r1 = Some R1 ∧
    Concat tt doubling map_to_list (Some 1%positive) (Some 2%positive) (two_policies tt)
      = Done (Some r2) h2 ∧ structs h2 !! r2 = Some R2 ∧
    ("viewer" ∈ rolesFor h1 (AllowedRoles R1) Read ↔
     "viewer" ∈ rolesFor h2 (AllowedRoles R2) Read).
Proof.
  split; [compute_done |]. split; [compute_done |]. split; [compute_done |].
  destruct (Concat_membership_commutes unit tt doubling map_to_list visits_in_map_order (two_policies tt)
              (Some 2%positive) (Some 1%positive))
    as (r1 & R1 & h1 & r2 & R2 & h2 & Hrun1 & HR1 & Hrun2 & HR2 & Hmem & _);
    [compute_done.. |].
  exists r1, R1, h1, r2, R2, h2.
  split; [exact Hrun1 |]. split; [exact HR1 |].
  split; [exact Hrun2 |]. split; [exact HR2 |].
  apply (Hmem Read "viewer").
Defined.

Lemma Concat_frame_witness :
  wf_store (two_policies tt) ∧
  valid_ptr (two_policies tt) (Some 2%positive) ∧
  valid_ptr (two_policies tt) None ∧
  ∃ r R h',
    Concat tt doubling map_to_list (Some 2%positive) None (two_policies tt)
      = Done (Some r) h' ∧
    structs (two_policies tt) !! r = None ∧
    structs h' !! r = Some R ∧
    extends (two_policies tt) h' ∧
    HasPermission "*" h' R Delete [AString "intern"] = ([], false).
Proof.
  split; [compute_done |]. split; [compute_done |]. split; [compute_done |].
  destruct (Concat_frame unit tt "*" doubling map_to_list visits_in_map_order (two_policies tt) (Some 2%positive) None)
    as (r & R & h' & Hrun & Hr & HR & _ & Hext & _ & Hid); [compute_done.. |].
  exists r, R, h'.
  split; [exact Hrun |]. split; [exact Hr |]. split; [exact HR |]. split; [exact Hext |].
  assert ((Some 2%positive = None ∧ Some 2%positive = (None : option positive)) ∨
          ((None : option positive) = None ∧ Some 2%positive = Some 2%positive)) as Hp.
  { right. split; reflexivity. }
  destruct (Hid (Some 2%positive) Hp) as [_ Hsame].
  rewrite (Hsame (mkPermission tt (Some 3%positive) (Some 4%positive))
             Delete [AString "intern"]);
    vm_compute; reflexivity.
Defined.

Lemma crud_is_four_calls_witness :
  ∃ p' h',
    run_calls doubling (Some 1%positive)
      [CallAllow CRUD ["editor"]; CallDeny CRUD ["intern"]] (blank_store tt)
      = Done p' h' ∧
    ∀ m, mapobj h' m !! CRUD = mapobj (blank_store tt) m !! CRUD.
Proof.
  eexists _, _. split; [vm_compute; reflexivity |].
  destruct (crud_is_four_calls unit doubling (Some 1%positive) [] (blank_store tt))
    as (_ & _ & Hkey & _).
  apply (Hkey [CallAllow CRUD ["editor"]; CallDeny CRUD ["intern"]] (Some 1%positive)).
  vm_compute. reflexivity.
Defined.

Lemma builders_need_maps_witness :
  Allow doubling (Some 2%positive) Read ["viewer"] (blank_store tt)
    = Panic NilMapAssignment ∧
  Deny doubling (Some 2%positive) CRUD ["intern"] (blank_store tt)
    = Panic NilMapAssignment ∧
  ∃ h', Allow doubling (Some 1%positive) Read ["viewer"] (blank_store tt)
        = Done (Some 1%positive) h' ∧
        rolesFor h' (Some 1%positive) Read = ["viewer"].
Proof.
  destruct (builders_need_maps unit tt doubling map_to_list visits_in_map_order (blank_store tt)) as [Hb _].
  destruct (Hb 2%positive (mkPermission tt None None) Read ["viewer"])
    as (HA & _); [vm_compute; reflexivity |].
  destruct (Hb 2%positive (mkPermission tt None None) CRUD ["intern"])
    as (_ & HD & _); [vm_compute; reflexivity |].
  destruct (Hb 1%positive (mkPermission tt (Some 1%positive) (Some 2%positive))
              Read ["viewer"]) as (_ & _ & Hok & _); [vm_compute; reflexivity |].
  split; [by apply HA |]. split; [by apply HD |].
  destruct Hok as (h' & Hrun & Hupd); [by eexists |].
  exists h'. split; [done |].
  destruct Hupd as [_ Hroles]; [done |].
  assert (wf_store (blank_store tt)) as Hwf by compute_done.
  etrans; [exact (Hroles Hwf) | vm_compute; reflexivity].
Defined.

(** ** Instances of the further properties *)

Lemma includeRoles_same_elements_witness :
  (∀ x : string, x ∈ ["a"; "b"; "a"] ↔ x ∈ ["b"; "a"]) ∧
  (∀ x : string, x ∈ ["x"; "b"] ↔ x ∈ ["b"; "x"; "x"]) ∧
  includeRoles "*" ["a"; "b"; "a"] ["x"; "b"] = includeRoles "*" ["b"; "a"] ["b"; "x"; "x"].
Proof.
  assert (∀ x : string, x ∈ ["a"; "b"; "a"] ↔ x ∈ ["b"; "a"]) as H1.
  { intros x. rewrite !elem_of_cons, !elem_of_nil. tauto. }
  assert (∀ x : string, x ∈ ["x"; "b"] ↔ x ∈ ["b"; "x"; "x"]) as H2.
  { intros x. rewrite !elem_of_cons, !elem_of_nil. tauto. }
  split; [exact H1 |]. split; [exact H2 |].
  exact (includeRoles_same_elements "*" _ _ _ _ H1 H2).
Defined.

Lemma includeRoles_mono_witness :
  ["a"] ⊆ ["a"; "b"] ∧ ["a"] ⊆ ["c"; "a"] ∧
  includeRoles "*" ["a"] ["a"] = true ∧
  includeRoles "*" ["a"; "b"] ["c"; "a"] = true.
Proof.
  assert (["a"] ⊆ ["a"; "b"]) as H1.
  { intros x. rewrite !elem_of_cons, !elem_of_nil. tauto. }
  assert (["a"] ⊆ ["c"; "a"]) as H2.
  { intros x. rewrite !elem_of_cons, !elem_of_nil. tauto. }
  split; [exact H1 |]. split; [exact H2 |]. split; [reflexivity |].
  exact (includeRoles_mono "*" _ _ _ _ H1 H2 eq_refl).
Defined.


Lemma HasPermission_same_names_witness :
  Forall is_role_value [AString "viewer"; AString "editor"] ∧
  Forall is_role_value [ARoler ["editor"; "viewer"; "viewer"]] ∧
  HasPermission "*" (viewer_store tt) (viewer_policy tt) Read
    [AString "viewer"; AString "editor"]
  = HasPermission "*" (viewer_store tt) (viewer_policy tt) Read
      [ARoler ["editor"; "viewer"; "viewer"]].
Proof.
  split; [compute_done |]. split; [compute_done |].
  apply (HasPermission_same_names unit "*"); [compute_done | compute_done |].
  intros x. simpl. rewrite !elem_of_cons, !elem_of_nil. tauto.
Defined.

Lemma HasPermission_no_role_names_witness :
  resolveRoles [ARoler []] [] = inr [] ∧
  HasPermission "*" (wildcard_store tt "*") (viewer_policy tt) Read [ARoler []] = ([], true) ∧
  HasPermission "*" (viewer_store tt) (viewer_policy tt) Read [ARoler []] = ([], false).
Proof.
  split; [reflexivity |]. split.
  - rewrite (HasPermission_no_role_names unit "*" (wildcard_store tt "*") (viewer_policy tt)
               Read [ARoler []] eq_refl).
    vm_compute. reflexivity.
  - vm_compute. reflexivity.
Defined.

Lemma HasPermission_unconfigured_witness :
  maplen (blank_store tt) (Some 2%positive) = 0 ∧
  maplen (blank_store tt) (Some 1%positive) = 0 ∧
  Forall is_role_value [AString "intern"] ∧
  HasPermission "*" (blank_store tt) (mkPermission tt (Some 1%positive) (Some 2%positive))
    Delete [AString "intern"] = ([], true) ∧
  HasPermission "*" (blank_store tt) (mkPermission tt None None)
    Delete [AString "intern"] = ([], true).
Proof.
  split; [vm_compute; reflexivity |]. split; [vm_compute; reflexivity |].
  split; [compute_done |]. split.
  - apply (HasPermission_unconfigured unit "*"); [vm_compute; reflexivity.. | compute_done].
  - apply (HasPermission_unconfigured unit "*"); [vm_compute; reflexivity.. | compute_done].
Defined.

Lemma HasPermission_allowed_wildcard_witness :
  Forall is_role_value [AString "intern"] ∧
  "*" ∈ rolesFor (wildcard_store tt "*") (Some 1%positive) Read ∧
  HasPermission "*" (wildcard_store tt "*") (viewer_policy tt) Read [AString "intern"]
  = ([], true) ∧
  HasPermission "*" (wildcard_store tt "*") (viewer_policy tt) Read [] = ([], true).
Proof.
  split; [compute_done |]. split; [vm_compute; left |]. split.
  - apply (HasPermission_allowed_wildcard unit "*");
      [compute_done | vm_compute; left | vm_compute; reflexivity].
  - apply (HasPermission_allowed_wildcard unit "*");
      [compute_done | vm_compute; left | vm_compute; reflexivity].
Defined.


Lemma addNamed_lookup_witness :
  Forall is_Some [Some (mkValidator "presence" 1); Some (mkValidator "length" 2)] ∧
  ∃ items',
    AddValidator [Some (mkValidator "presence" 1); Some (mkValidator "length" 2)]
      (Some (mkValidator "length" 3)) = inr items' ∧
    findNamed (@Validator_Name nat) "length" items' = Some (mkValidator "length" 3) ∧
    findNamed (@Validator_Name nat) "presence" items' = Some (mkValidator "presence" 1).
Proof.
  assert (Forall is_Some [Some (mkValidator "presence" 1); Some (mkValidator "length" 2)])
    as Hall by (repeat constructor; by eexists).
  split; [exact Hall |].
  destruct (addNamed_lookup (@Validator_Name nat) _ (mkValidator "length" 3) Hall)
    as (items' & Hrun & Hnew & Hold).
  exists items'. split; [exact Hrun |]. split; [exact Hnew |].
  rewrite (Hold "presence"); [reflexivity | vm_compute; discriminate].
Defined.

Lemma addNamed_names_witness :
  AddProcessor [Some (mkProcessor nat "trim" 1); Some (mkProcessor nat "hash" 2)]
    (Some (mkProcessor nat "trim" 5))
  = inr [Some (mkProcessor nat "trim" 5); Some (mkProcessor nat "hash" 2)] ∧
  namesIn (Processor_Name nat) [Some (mkProcessor nat "trim" 5); Some (mkProcessor nat "hash" 2)]
  = ["trim"; "hash"].
Proof.
  assert (AddProcessor [Some (mkProcessor nat "trim" 1); Some (mkProcessor nat "hash" 2)]
            (Some (mkProcessor nat "trim" 5))
          = inr [Some (mkProcessor nat "trim" 5); Some (mkProcessor nat "hash" 2)]) as Hrun
    by reflexivity.
  split; [exact Hrun |].
  destruct (addNamed_names (Processor_Name nat) _ _ _ Hrun) as (Hnames & _).
  rewrite Hnames. vm_compute. reflexivity.
Defined.

Lemma addNamed_idempotent_witness :
  AddValidator [Some (mkValidator "presence" 1)] (Some (mkValidator "length" 2))
  = inr [Some (mkValidator "presence" 1); Some (mkValidator "length" 2)] ∧
  AddValidator [Some (mkValidator "presence" 1); Some (mkValidator "length" 2)]
    (Some (mkValidator "length" 2))
  = inr [Some (mkValidator "presence" 1); Some (mkValidator "length" 2)].
Proof.
  assert (AddValidator [Some (mkValidator "presence" 1)] (Some (mkValidator "length" 2))
          = inr [Some (mkValidator "presence" 1); Some (mkValidator "length" 2)]) as Hrun
    by reflexivity.
  split; [exact Hrun |].
  exact (addNamed_idempotent (@Validator_Name nat) _ _ _ Hrun).
Defined.

Lemma addNamed_panics_witness :
  AddValidator (HandlerFn := nat) [] None = inr [None] ∧
  AddValidator [None] (Some (mkValidator "presence" 1)) = inl NilDereference.
Proof.
  split; [reflexivity |].
  apply (addNamed_panics (@Validator_Name nat)). split; [reflexivity |].
  right. exists (mkValidator "presence" 1), [], []. repeat split. constructor.
Defined.

Lemma SetPrimaryFields_named_witness :
  ["ID"; "Code"] ≠ [] ∧
  SetPrimaryFields
    (λ name, if bool_decide (name = "ID") then Some 1
             else if bool_decide (name = "Code") then Some 2 else None)
    (Some 1) (mkResource "Product" None) ["ID"; "Code"]
  = ([1; 2], None).
Proof.
  split; [discriminate |].
  apply SetPrimaryFields_named; [discriminate |].
  repeat constructor.
Defined.

Lemma SetPrimaryFields_first_invalid_witness :
  SetPrimaryFields
    (λ name, if bool_decide (name = "ID") then Some 1
             else if bool_decide (name = "Code") then Some 2 else None)
    (Some 1) (mkResource "Product" None) (["ID"] ++ "Price" :: ["Code"])
  = ([1], Some "Price is not a valid field for resource Product").
Proof.
  apply (SetPrimaryFields_first_invalid
           (λ name, if bool_decide (name = "ID") then Some 1
                    else if bool_decide (name = "Code") then Some 2 else None)
           (Some 1) (mkResource "Product" None) ["ID"] "Price" ["Code"] [1]).
  - repeat constructor.
  - reflexivity.
Defined.


Lemma builders_keep_store_witness :
  wf_store (blank_store tt) ∧ sep_store (blank_store tt) ∧
  ∃ h', Deny doubling (Some 1%positive) CRUD ["intern"] (blank_store tt)
        = Done (Some 1%positive) h' ∧
        wf_store h' ∧ sep_store h'.
Proof.
  split; [compute_done |]. split; [compute_done |].
  destruct (builders_keep_store unit doubling DeniedRoles (Deny doubling) 1%positive
              (mkPermission tt (Some 1%positive) (Some 2%positive)) CRUD ["intern"]
              (blank_store tt))
    as (h' & Hrun & Hwf & Hsep & _);
    [right; split; reflexivity | compute_done | compute_done
    | vm_compute; reflexivity | eexists; reflexivity |].
  exists h'. split; [exact Hrun |]. split; [exact Hwf | exact Hsep].
Defined.

Lemma builders_frame_witness :
  wf_store (two_policies tt) ∧ sep_store (two_policies tt) ∧
  ∃ h', Allow doubling (Some 1%positive) Read ["editor"] (two_policies tt)
        = Done (Some 1%positive) h' ∧
        rolesFor h' (Some 4%positive) Delete = ["intern"] ∧
        HasPermission "*" h' (mkPermission tt (Some 3%positive) (Some 4%positive))
          Delete [AString "intern"] = ([], false).
Proof.
  split; [compute_done |]. split; [compute_done |].
  destruct (builders_frame unit "*" doubling AllowedRoles (Allow doubling) 1%positive
              (mkPermission tt (Some 1%positive) (Some 2%positive)) Read ["editor"]
              (two_policies tt))
    as (h' & Hrun & Hother & _ & Hsame);
    [left; split; reflexivity | compute_done | compute_done
    | vm_compute; reflexivity | eexists; reflexivity |].
  exists h'. split; [exact Hrun |]. split.
  - destruct (Hother (Some 4%positive)) as [_ Hroles]; [vm_compute; discriminate |].
    rewrite Hroles. vm_compute. reflexivity.
  - rewrite (Hsame (mkPermission tt (Some 3%positive) (Some 4%positive)) Delete
               [AString "intern"]);
      [vm_compute; reflexivity | vm_compute; discriminate | vm_compute; discriminate].
Defined.

Lemma Deny_then_refused_witness :
  wf_store (blank_store tt) ∧ sep_store (blank_store tt) ∧
  ∃ h', Deny doubling (Some 1%positive) CRUD ["intern"] (blank_store tt)
        = Done (Some 1%positive) h' ∧
        (HasPermission "*" h' (mkPermission tt (Some 1%positive) (Some 2%positive))
           Update [AString "intern"; AString "editor"]).2 = false.
Proof.
  split; [compute_done |]. split; [compute_done |].
  destruct (Deny_then_refused unit "*" doubling 1%positive
              (mkPermission tt (Some 1%positive) (Some 2%positive)) CRUD ["intern"]
              (blank_store tt))
    as (h' & Hrun & _ & Hno);
    [compute_done | compute_done | vm_compute; reflexivity | eexists; reflexivity |].
  exists h'. split; [exact Hrun |].
  apply Hno; [compute_done |].
  right. exists ["intern"; "editor"], "intern".
  split; [reflexivity |]. split; left.
Defined.

Lemma Allow_then_admitted_witness :
  wf_store (two_policies tt) ∧ sep_store (two_policies tt) ∧
  includeRoles "*" (rolesFor (two_policies tt) (Some 2%positive) Update) ["editor"] = false ∧
  ∃ h', Allow doubling (Some 1%positive) CRUD ["editor"] (two_policies tt)
        = Done (Some 1%positive) h' ∧
        HasPermission "*" h' (mkPermission tt (Some 1%positive) (Some 2%positive))
          Update [AString "editor"] = ([], true).
Proof.
  split; [compute_done |]. split; [compute_done |]. split; [vm_compute; reflexivity |].
  destruct (Allow_then_admitted unit "*" doubling 1%positive
              (mkPermission tt (Some 1%positive) (Some 2%positive)) CRUD ["editor"]
              (two_policies tt))
    as (h' & Hrun & _ & Hyes);
    [compute_done | compute_done | vm_compute; reflexivity | eexists; reflexivity
    | vm_compute; discriminate |].
  exists h'. split; [exact Hrun |].
  apply (Hyes Update [AString "editor"] ["editor"]);
    [compute_done | reflexivity | | vm_compute; reflexivity].
  right. exists "editor". split; left.
Defined.

Lemma Allow_then_allow_list_witness :
  wf_store (two_policies tt) ∧ sep_store (two_policies tt) ∧
  ∃ h', Allow doubling (Some 1%positive) Read ["editor"] (two_policies tt)
        = Done (Some 1%positive) h' ∧
        rolesFor h' (Some 1%positive) Read = ["viewer"; "editor"] ∧
        rolesFor h' (Some 1%positive) Update = [].
Proof.
  split; [compute_done |]. split; [compute_done |].
  destruct (Allow_then_allow_list unit "*" doubling 1%positive
              (mkPermission tt (Some 1%positive) (Some 2%positive)) Read ["editor"]
              (two_policies tt))
    as (h' & Hrun & Hroles & _);
    [compute_done | compute_done | vm_compute; reflexivity | eexists; reflexivity |].
  exists h'. split; [exact Hrun |].
  split; [etrans; [exact (Hroles Read) | vm_compute; reflexivity]
         | etrans; [exact (Hroles Update) | vm_compute; reflexivity]].
Defined.


Lemma builders_accumulate_witness :
  wf_store (blank_store tt) ∧ sep_store (blank_store tt) ∧
  ∃ h1 h2 h12,
    Allow doubling (Some 1%positive) Read ["viewer"] (blank_store tt)
      = Done (Some 1%positive) h1 ∧
    Allow doubling (Some 1%positive) Read ["editor"] h1 = Done (Some 1%positive) h2 ∧
    Allow doubling (Some 1%positive) Read ["viewer"; "editor"] (blank_store tt)
      = Done (Some 1%positive) h12 ∧
    rolesFor h2 (Some 1%positive) Read = rolesFor h12 (Some 1%positive) Read.
Proof.
  split; [compute_done |]. split; [compute_done |].
  destruct (builders_accumulate unit "*" doubling AllowedRoles (Allow doubling) 1%positive
              (mkPermission tt (Some 1%positive) (Some 2%positive)) Read
              ["viewer"] ["editor"] (blank_store tt))
    as (h1 & h2 & h12 & Hrun1 & Hrun2 & Hrun12 & Hroles & _);
    [left; split; reflexivity | compute_done | compute_done
    | vm_compute; reflexivity | eexists; reflexivity |].
  exists h1, h2, h12.
  split; [exact Hrun1 |]. split; [exact Hrun2 |]. split; [exact Hrun12 |].
  apply Hroles.
Defined.

Lemma Concat_decision_witness :
  wf_store (two_policies tt) ∧
  valid_ptr (two_policies tt) (Some 1%positive) ∧
  valid_ptr (two_policies tt) (Some 2%positive) ∧
  ∃ r R h',
    Concat tt doubling map_to_list (Some 1%positive) (Some 2%positive) (two_policies tt)
      = Done (Some r) h' ∧
    structs h' !! r = Some R ∧
    HasPermission "*" h' R Delete [AString "intern"] = ([], false) ∧
    HasPermission "*" h' R Read [AString "viewer"] = ([], true) ∧
    HasPermission "*" h' R Read [AString "editor"] = ([], false).
Proof.
  split; [compute_done |]. split; [compute_done |]. split; [compute_done |].
  destruct (Concat_decision unit tt "*" doubling map_to_list visits_in_map_order
              (two_policies tt) (Some 1%positive) (Some 2%positive))
    as (r & R & h' & Hrun & HR & Hdec); [compute_done.. |].
  exists r, R, h'. split; [exact Hrun |]. split; [exact HR |].
  split; [|split].
  - etrans; [exact (Hdec Delete [AString "intern"] ["intern"] eq_refl) |].
    vm_compute. reflexivity.
  - etrans; [exact (Hdec Read [AString "viewer"] ["viewer"] eq_refl) |].
    vm_compute. reflexivity.
  - etrans; [exact (Hdec Read [AString "editor"] ["editor"] eq_refl) |].
    vm_compute. reflexivity.
Defined.

Lemma Concat_decisions_commute_witness :
  wf_store (two_policies tt) ∧
  valid_ptr (two_policies tt) (Some 1%positive) ∧
  valid_ptr (two_policies tt) (Some 2%positive) ∧
  ∃ r1 R1 h1 r2 R2 h2,
    Concat tt doubling map_to_list (Some 1%positive) (Some 2%positive) (two_policies tt)
      = Done (Some r1) h1 ∧ structs h1 !! r1 = Some R1 ∧
    Concat tt doubling map_to_list (Some 2%positive) (Some 1%positive) (two_policies tt)
      = Done (Some r2) h2 ∧ structs h2 !! r2 = Some R2 ∧
    HasPermission "*" h1 R1 Read [AString "viewer"]
    = HasPermission "*" h2 R2 Read [AString "viewer"].
Proof.
  split; [compute_done |]. split; [compute_done |]. split; [compute_done |].
  destruct (Concat_decisions_commute unit tt "*" doubling map_to_list visits_in_map_order
              (two_policies tt) (Some 1%positive) (Some 2%positive))
    as (r1 & R1 & h1 & r2 & R2 & h2 & Hrun1 & HR1 & Hrun2 & HR2 & Hsame);
    [compute_done.. |].
  exists r1, R1, h1, r2, R2, h2.
  split; [exact Hrun1 |]. split; [exact HR1 |].
  split; [exact Hrun2 |]. split; [exact HR2 |].
  apply Hsame.
Defined.

Lemma Concat_self_witness :
  wf_store (two_policies tt) ∧
  ∃ r R h',
    Concat tt doubling map_to_list (Some 1%positive) (Some 1%positive) (two_policies tt)
      = Done (Some r) h' ∧ structs h' !! r = Some R ∧
    HasPermission "*" h' R Read [AString "viewer"] = ([], true) ∧
    HasPermission "*" h' R Read [AString "intern"] = ([], false).
Proof.
  split; [compute_done |].
  destruct (Concat_self unit tt "*" doubling map_to_list visits_in_map_order
              (two_policies tt) 1%positive
              (mkPermission tt (Some 1%positive) (Some 2%positive)))
    as (r & R & h' & Hrun & HR & _ & Hsame);
    [compute_done | vm_compute; reflexivity |].
  exists r, R, h'. split; [exact Hrun |]. split; [exact HR |].
  split; (etrans; [apply Hsame | vm_compute; reflexivity]).
Defined.

Lemma Concat_keeps_store_witness :
  wf_store (two_policies tt) ∧ sep_store (two_policies tt) ∧
  valid_ptr (two_policies tt) (Some 1%positive) ∧
  valid_ptr (two_policies tt) (Some 2%positive) ∧
  ∃ r h',
    Concat tt doubling map_to_list (Some 1%positive) (Some 2%positive) (two_policies tt)
      = Done (Some r) h' ∧
    wf_store h' ∧ sep_store h' ∧ valid_ptr h' (Some r).
Proof.
  split; [compute_done |]. split; [compute_done |].
  split; [compute_done |]. split; [compute_done |].
  destruct (Concat_keeps_store unit tt doubling map_to_list visits_in_map_order
              (two_policies tt) (Some 1%positive) (Some 2%positive))
    as (r & h' & Hrun & Hwf & Hsep & Hr & _); [compute_done.. |].
  exists r, h'. split; [exact Hrun |]. split; [exact Hwf |]. split; [exact Hsep | exact Hr].
Defined.

Lemma Concat_result_independent_witness :
  wf_store (two_policies tt) ∧ sep_store (two_policies tt) ∧
  valid_ptr (two_policies tt) (Some 1%positive) ∧
  valid_ptr (two_policies tt) (Some 2%positive) ∧
  ∃ r h' h'',
    Concat tt doubling map_to_list (Some 1%positive) (Some 2%positive) (two_policies tt)
      = Done (Some r) h' ∧
    Allow doubling (Some r) Read ["intern"] h' = Done (Some r) h'' ∧
    HasPermission "*" h'' (mkPermission tt (Some 1%positive) (Some 2%positive))
      Read [AString "intern"] = ([], false).
Proof.
  split; [compute_done |]. split; [compute_done |].
  split; [compute_done |]. split; [compute_done |].
  destruct (Concat_result_independent unit tt "*" doubling map_to_list visits_in_map_order
              AllowedRoles (Allow doubling) (two_policies tt)
              (Some 1%positive) (Some 2%positive) Read ["intern"])
    as (r & R & h' & Hrun & _ & (h'' & Hallow & Hsame) & _);
    [left; split; reflexivity | compute_done.. |].
  exists r, h', h''. split; [exact Hrun |]. split; [exact Hallow |].
  etrans; [apply (Hsame 1%positive); vm_compute; reflexivity |].
  vm_compute. reflexivity.
Defined.

Lemma Concat_assoc_witness :
  wf_store (two_policies tt) ∧ sep_store (two_policies tt) ∧
  valid_ptr (two_policies tt) (Some 1%positive) ∧
  valid_ptr (two_policies tt) (Some 2%positive) ∧
  valid_ptr (two_policies tt) None ∧
  ∃ x h1 y Y h2 z h3 w W h4,
    Concat tt doubling map_to_list (Some 1%positive) (Some 2%positive) (two_policies tt)
      = Done (Some x) h1 ∧
    Concat tt doubling map_to_list (Some x) None h1 = Done (Some y) h2 ∧
    structs h2 !! y = Some Y ∧
    Concat tt doubling map_to_list (Some 2%positive) None (two_policies tt)
      = Done (Some z) h3 ∧
    Concat tt doubling map_to_list (Some 1%positive) (Some z) h3 = Done (Some w) h4 ∧
    structs h4 !! w = Some W ∧
    rolesFor h2 (AllowedRoles Y) Read = rolesFor h4 (AllowedRoles W) Read ∧
    HasPermission "*" h2 Y Read [AString "viewer"]
    = HasPermission "*" h4 W Read [AString "viewer"].
Proof.
  split; [compute_done |]. split; [compute_done |].
  split; [compute_done |]. split; [compute_done |]. split; [compute_done |].
  destruct (Concat_assoc unit tt "*" doubling map_to_list visits_in_map_order
              (two_policies tt) (Some 1%positive) (Some 2%positive) None)
    as (x & h1 & y & Y & h2 & z & h3 & w & W & h4 &
        Hrun1 & Hrun2 & HY & Hrun3 & Hrun4 & HW & Hrules & Hsame);
    [compute_done.. |].
  exists x, h1, y, Y, h2, z, h3, w, W, h4.
  split; [exact Hrun1 |]. split; [exact Hrun2 |]. split; [exact HY |].
  split; [exact Hrun3 |]. split; [exact Hrun4 |]. split; [exact HW |].
  split; [| apply Hsame].
  destruct (Hrules AllowedRoles) as [_ Hroles]; [left; reflexivity |].
  apply Hroles.
Defined.
